(** * k-means colour quantization (m-core.js): a shallow embedding

    The clustering and remapping core of [m-core.js] is embedded function by
    function.  JavaScript numbers are modelled in two ways:

    - in the clustering core ([nearestNeighbor], [centroid], [kMeans],
      [quantize]) a number is an exact rational, one of the two infinities,
      or NaN ([num]): sums, differences, squares and quotients are neither
      rounded nor overflow.  What is proved of these functions either does
      not depend on the values computed (shapes, errors, the path taken on
      NaN and [undefined], determinism), or is stated for inputs on which
      binary64 arithmetic is exact or stays in the range stated: integers
      and short dyadic fractions, samples of bounded magnitude;
    - [rescaleDimensions], whose result depends on how the quotient, the
      square root and the product round, and [nearestNeighbor] a second time
      ([Binary64.nearestNeighbor]), are embedded over the kernel's binary64
      floats, whose operations [SpecFloat] specifies.

    Exceptions are values of [outcome]; the unbounded [while (true)] loop of
    [kMeans] takes fuel; the mutable [seed] captured by each closure returned
    by [createSeededRandom] lives in an explicit [heap].  The DOM glue
    ([getPixelDataset], the canvas, the event handlers) is not embedded: an
    [image] stands for the raster [getImageData] returns. *)

From Stdlib Require Import ZArith QArith Qround Lia List Bool String.
From Stdlib Require Import Floats Uint63 Reals Lra.
From stdpp Require Import base list.

Local Open Scope Z_scope.

(** ** JavaScript values *)

Inductive num : Type :=
  | Num (q : Q)
  | PInf
  | NInf
  | NaN.

(** An array (plain or typed) of numbers. *)
Abbreviation array := (list num).

(** The result of reading an array element: [None] is [undefined]. *)
Abbreviation value := (option (list num)).

Inductive js_error : Type :=
  | TypeError
  | RangeError
  | ReferenceError.

Inductive outcome (A : Type) : Type :=
  | Return (a : A)
  | Throw (e : js_error)
  | OutOfFuel.
Arguments Return {A} a.
Arguments Throw {A} e.
Arguments OutOfFuel {A}.

Definition obind {A B} (m : outcome A) (f : A -> outcome B) : outcome B :=
  match m with
  | Return a => f a
  | Throw e => Throw e
  | OutOfFuel => OutOfFuel
  end.

(** [l[i]] for a number [i] holding an integer. *)
Definition js_get {A} (l : list A) (i : Z) : option A :=
  if i <? 0 then None else l !! Z.to_nat i.

(** Arithmetic on [num].  On finite numbers it is that of the rationals: it
    gives what binary64 gives whenever the exact result is a binary64 number,
    as on integers below [2^53] and on the short dyadic fractions used below;
    elsewhere binary64 rounds the result, or overflows to an infinity. *)
Module JsNum.

Definition of_Z (z : Z) : num := Num (inject_Z z).

Definition neg (x : num) : num :=
  match x with
  | Num q => Num (- q)
  | PInf => NInf
  | NInf => PInf
  | NaN => NaN
  end.

Definition add (x y : num) : num :=
  match x, y with
  | NaN, _ | _, NaN => NaN
  | Num a, Num b => Num (a + b)
  | PInf, NInf | NInf, PInf => NaN
  | PInf, _ | _, PInf => PInf
  | NInf, _ | _, NInf => NInf
  end.

Definition sub (x y : num) : num := add x (neg y).

(** [Math.pow(x, 2)] *)
Definition pow2 (x : num) : num :=
  match x with
  | Num q => Num (q * q)
  | PInf | NInf => PInf
  | NaN => NaN
  end.

(** [x / n] for a positive integer [n] *)
Definition div_pos (x : num) (n : positive) : num :=
  match x with
  | Num q => Num (q / inject_Z (Z.pos n))
  | other => other
  end.

(** [x < y] *)
Definition ltb (x y : num) : bool :=
  match x, y with
  | NaN, _ | _, NaN => false
  | Num a, Num b => negb (Qle_bool b a)
  | Num _, PInf => true
  | NInf, Num _ | NInf, PInf => true
  | _, _ => false
  end.

(** [x === y] on numbers *)
Definition strict_eqb (x y : num) : bool :=
  match x, y with
  | Num a, Num b => Qeq_bool a b
  | PInf, PInf | NInf, NInf => true
  | _, _ => false
  end.

End JsNum.

(** ** isArrayEqual (m-core.js, lines 19-23) *)

Fixpoint elements_equal (arr1 arr2 : array) : bool :=
  match arr1, arr2 with
  | x :: arr1', y :: arr2' =>
      if JsNum.strict_eqb x y then elements_equal arr1' arr2' else false
  | _, _ => true
  end.

(** Reading [.length] of [undefined] throws. *)
Definition isArrayEqual (arr1 arr2 : value) : outcome bool :=
  match arr1, arr2 with
  | Some a1, Some a2 =>
      if negb (length a1 =? length a2)%nat then Return false
      else Return (elements_equal a1 a2)
  | _, _ => Throw TypeError
  end.

(** ** nearestNeighbor (m-core.js, lines 90-105) *)

(** The inner loop: [dist += Math.pow(point[j] - neighbor[j], 2)] for every
    [j < point.length]; a missing [neighbor[j]] is [undefined], hence NaN. *)
Fixpoint dist_loop (point neighbor : array) (dist : num) : num :=
  match point with
  | [] => dist
  | pj :: point' =>
      let nj := match neighbor with [] => NaN | x :: _ => x end in
      dist_loop point' (tail neighbor)
        (JsNum.add dist (JsNum.pow2 (JsNum.sub pj nj)))
  end.

(** [neighbor[j]] on an [undefined] neighbor throws as soon as the inner loop
    runs once. *)
Definition neighbor_dist (point : array) (neighbor : value) : outcome num :=
  match neighbor with
  | Some nb => Return (dist_loop point nb (JsNum.of_Z 0))
  | None =>
      match point with
      | [] => Return (JsNum.of_Z 0)
      | _ :: _ => Throw TypeError
      end
  end.

Fixpoint nearest_loop (point : array) (neighbors : list value) (i : Z)
    (best_dist : num) (best_index : Z) : outcome Z :=
  match neighbors with
  | [] => Return best_index
  | neighbor :: rest =>
      obind (neighbor_dist point neighbor) (fun dist =>
        if JsNum.ltb dist best_dist
        then nearest_loop point rest (i + 1) dist i
        else nearest_loop point rest (i + 1) best_dist best_index)
  end.

Definition nearestNeighbor (point : array) (neighbors : list value) : outcome Z :=
  nearest_loop point neighbors 0 PInf (-1).

(** ** centroid (m-core.js, lines 114-128) *)

(** The inner loop over [j < point.length] with divisor [i + 1]:
    [runningCentroid[j] += (point[j] - runningCentroid[j]) / (i + 1)].
    Past the end of [runningCentroid] the read is [undefined], so the sum is
    NaN and the store appends it. *)
Fixpoint fold_point (runningCentroid point : array) (divisor : positive) : array :=
  match point with
  | [] => runningCentroid
  | pj :: point' =>
      match runningCentroid with
      | [] => NaN :: fold_point [] point' divisor
      | r :: rc' =>
          JsNum.add r (JsNum.div_pos (JsNum.sub pj r) divisor)
            :: fold_point rc' point' divisor
      end
  end.

Fixpoint centroid_loop (dataset : list array) (divisor : positive)
    (runningCentroid : array) : array :=
  match dataset with
  | [] => runningCentroid
  | point :: rest =>
      centroid_loop rest (Pos.succ divisor) (fold_point runningCentroid point divisor)
  end.

Definition centroid (dataset : list array) : array :=
  match dataset with
  | [] => []
  | first :: _ => centroid_loop dataset 1 (replicate (length first) (JsNum.of_Z 0))
  end.

(** ** Generator closures and the heap of their captured [seed]s *)

Abbreviation heap := (list Z) (only parsing).

(** A computation that may allocate and advance generators, and may throw. *)
Definition M (A : Type) : Type := heap -> outcome A * heap.

Definition ret {A} (a : A) : M A := fun h => (Return a, h).

Definition bind {A B} (m : M A) (f : A -> M B) : M B :=
  fun h =>
    match m h with
    | (Return a, h') => f a h'
    | (Throw e, h') => (Throw e, h')
    | (OutOfFuel, h') => (OutOfFuel, h')
    end.

Definition lift {A} (o : outcome A) : M A := fun h => (o, h).

Declare Scope outcome_scope.
Delimit Scope outcome_scope with outcome.
Notation "x <- m ;; k" := (obind m (fun x => k))
  (at level 20, m at level 99, k at level 200, only parsing) : outcome_scope.

Declare Scope heap_scope.
Delimit Scope heap_scope with heap.
Notation "x <- m ;; k" := (bind m (fun x => k))
  (at level 20, m at level 99, k at level 200, only parsing) : heap_scope.

(** A generator is the address of its captured [seed]. *)
Abbreviation generator := nat (only parsing).

(** createSeededRandom (m-core.js, lines 131-136): a new closure over its own
    [seed]. *)
Definition createSeededRandom (seed : Z) : M generator :=
  fun h => (Return (length h), h ++ [seed]).

(** [(seed * 9301 + 49297) % 233280] on an integer seed.  For
    [0 <= seed < 2^39] the sum is below [2^53] and binary64 computes it
    exactly; the seed of [kMeans] starts at 0 and stays below 233280. *)
Definition next_seed (seed : Z) : Z := Z.rem (seed * 9301 + 49297) 233280.

(** Calling the closure: [seed = (seed * 9301 + 49297) % 233280;
    return seed / 233280]. *)
Definition call_random (random : generator) : M Q :=
  fun h =>
    let seed := next_seed (default 0 (h !! random)) in
    (Return (inject_Z seed / 233280)%Q, <[random := seed]> h).

(** ** kMeans (m-core.js, lines 146-183) *)

(** [dataset[Math.floor(random() * dataset.length)]] *)
Definition random_point (random : generator) (dataset : list array) : M value :=
  (r <- call_random random ;;
   let idx := Qfloor (r * inject_Z (Z.of_nat (length dataset))) in
   ret (js_get dataset idx))%heap.

(** The first loop: [k] draws pushed onto [centroids]. *)
Fixpoint initial_centroids (todo : nat) (random : generator)
    (dataset : list array) (centroids : list value) : M (list value) :=
  match todo with
  | O => ret centroids
  | S todo' =>
      (c <- random_point random dataset ;;
       initial_centroids todo' random dataset (centroids ++ [c]))%heap
  end.

(** [[...Array(k)].map(_ => [])]: [Array(k)] throws a RangeError unless [k] is
    an integer in [0, 2^32 - 1]. *)
Definition empty_clusters (k : Z) : outcome (list (list array)) :=
  if (k <? 0) || (4294967295 <? k) then Throw RangeError
  else Return (replicate (Z.to_nat k) []).

(** The assignment loop: [clusters[nearestNeighbor(point, centroids)].push(point)];
    [.push] on [undefined] throws. *)
Fixpoint assign_points (points : list array) (centroids : list value)
    (clusters : list (list array)) : outcome (list (list array)) :=
  match points with
  | [] => Return clusters
  | point :: rest =>
      (nearest_centroid <- nearestNeighbor point centroids ;;
       match js_get clusters nearest_centroid with
       | None => Throw TypeError
       | Some cluster =>
           assign_points rest centroids
             (<[Z.to_nat nearest_centroid := cluster ++ [point]]> clusters)
       end)%outcome
  end.

(** [centroids[i]] *)
Definition get_value (l : list value) (i : nat) : value :=
  match l !! i with
  | Some v => v
  | None => None
  end.

(** [centroids[i] = v]: a store past the end extends the array. *)
Definition set_value (l : list value) (i : nat) (v : value) : list value :=
  if (i <? length l)%nat then <[i := v]> l
  else l ++ replicate (i - length l) None ++ [v].

(** The update loop over [i < k]. [converged && isArrayEqual(..)] does not
    call [isArrayEqual] once [converged] is false. *)
Fixpoint update_centroids (todo : nat) (i : nat) (random : generator)
    (dataset : list array) (clusters : list (list array))
    (converged : bool) (centroids : list value) : M (bool * list value) :=
  match todo with
  | O => ret (converged, centroids)
  | S todo' =>
      (centroid_i <-
         match clusters !! i with
         | None => lift (Throw TypeError)
         | Some [] => random_point random dataset
         | Some cluster => ret (Some (centroid cluster))
         end ;;
       converged' <-
         (if converged then lift (isArrayEqual centroid_i (get_value centroids i))
          else ret false) ;;
       update_centroids todo' (S i) random dataset clusters converged'
         (set_value centroids i centroid_i))%heap
  end.

(** One pass of the body of [while (true)]: the flag tells whether the loop
    breaks. *)
Definition kMeans_iteration (random : generator) (dataset : list array) (k : Z)
    (centroids : list value) : M (bool * list value) :=
  (clusters <- lift (empty_clusters k) ;;
   clusters <- lift (assign_points dataset centroids clusters) ;;
   update_centroids (Z.to_nat k) 0 random dataset clusters true centroids)%heap.

Fixpoint kMeans_while (fuel : nat) (random : generator) (dataset : list array)
    (k : Z) (centroids : list value) : M (list value) :=
  match fuel with
  | O => lift OutOfFuel
  | S fuel' =>
      (r <- kMeans_iteration random dataset k centroids ;;
       if fst r then ret (snd r)
       else kMeans_while fuel' random dataset k (snd r))%heap
  end.

(** [k] is [None] when the argument is omitted. *)
Definition kMeans (fuel : nat) (dataset : list array) (k : option Z) : M (list value) :=
  let k := match k with
           | None => Z.min 3 (Z.of_nat (length dataset))
           | Some k => k
           end in
  (random <- createSeededRandom 0 ;;
   centroids <- initial_centroids (Z.to_nat k) random dataset [] ;;
   kMeans_while fuel random dataset k centroids)%heap.

(** ** quantize (m-core.js, lines 186-230) *)

(** The raster [getImageData] returns once the [<img>] is drawn on the source
    canvas: RGBA bytes, [4 * width * height] of them. *)
Record image : Type := { width : Z; height : Z; data : list Z }.

Definition wf_image (img : image) : Prop :=
  0 < width img /\ 0 < height img /\
  Z.of_nat (length (data img)) = 4 * (width img * height img) /\
  Forall (fun b => 0 <= b <= 255) (data img).

(** The conversion applied by a store into a [Uint8ClampedArray]: NaN is 0,
    the value is clamped to [0, 255] and rounded to the nearest integer, a
    tie going to the even one. *)
Definition to_uint8_clamp (x : num) : Z :=
  match x with
  | NaN | NInf => 0
  | PInf => 255
  | Num q =>
      if Qle_bool q 0 then 0
      else if Qle_bool 255 q then 255
      else
        let f := Qfloor q in
        match Qcompare (q - inject_Z f) (1 # 2) with
        | Lt => f
        | Gt => f + 1
        | Eq => if Z.even f then f else f + 1
        end
  end.

(** [current_pixel[j] = flattened_source_data[i + j]] for [j < n_channels] *)
Definition read_pixel (flattened_source_data : list Z) (i : nat) (n_channels : nat) : array :=
  map (fun j => JsNum.of_Z (default 0 (flattened_source_data !! (i + j)%nat)))
      (seq 0 n_channels).

(** [flattened_quantized_data[i + j] = nearest_color[j]] for
    [j < nearest_color.length]; a store past the end of a typed array is
    dropped. *)
Fixpoint store_color (flattened_quantized_data : list Z) (i : nat)
    (nearest_color : array) : list Z :=
  match nearest_color with
  | [] => flattened_quantized_data
  | c :: rest =>
      store_color (<[i := to_uint8_clamp c]> flattened_quantized_data) (S i) rest
  end.

(** The loop over pixels.  [centroids] is what the free identifier
    [centroids] of line 214 resolves to: [None] when no binding is in scope. *)
Fixpoint quantize_loop (fuel : nat) (centroids : option (list value))
    (colors : list value) (flattened_source_data : list Z) (n_channels : nat)
    (i : nat) (flattened_quantized_data : list Z) : outcome (list Z) :=
  match fuel with
  | O => OutOfFuel
  | S fuel' =>
      if (i <? length flattened_source_data)%nat then
        (let current_pixel := read_pixel flattened_source_data i n_channels in
         nearest_color_index <- nearestNeighbor current_pixel colors ;;
         match centroids with
         | None => Throw ReferenceError
         | Some centroids' =>
             match js_get centroids' nearest_color_index with
             | Some (Some nearest_color) =>
                 quantize_loop fuel' centroids colors flattened_source_data
                   n_channels (i + n_channels)
                   (store_color flattened_quantized_data i nearest_color)
             | _ => Throw TypeError
             end
         end)%outcome
      else Return flattened_quantized_data
  end.

(** The result is the quantized raster; its encoding as a data URL is left
    to the host.  On the rasters [getImageData] produces the quotient
    [n_channels] is exact (and equal to 4). *)
Definition quantize (centroids : option (list value)) (img : image)
    (colors : list value) : outcome (list Z) :=
  let flattened_source_data := data img in
  let n_pixels := width img * height img in
  let n_channels := Z.to_nat (Z.of_nat (length flattened_source_data) / n_pixels) in
  let flattened_quantized_data := replicate (length flattened_source_data) 0 in
  quantize_loop (S (length flattened_source_data)) centroids colors
    flattened_source_data n_channels 0 flattened_quantized_data.

(** ** Binary64 numbers *)

Module Binary64.

(** An integer of magnitude below [2^63] as a float. *)
Definition of_Z (z : Z) : float :=
  match z with
  | Z0 => PrimFloat.zero
  | Zpos _ => PrimFloat.of_uint63 (Uint63.of_Z z)
  | Zneg p => PrimFloat.opp (PrimFloat.of_uint63 (Uint63.of_Z (Zpos p)))
  end.

(** [Math.floor]: zeros, infinities and NaN are returned as they are; a
    finite [m * 2^e] with [e < 0] is cut at the binary point. *)
Definition floor (x : float) : float :=
  match Prim2SF x with
  | S754_finite s m e =>
      if (0 <=? e)%Z then x
      else
        let q := Z.shiftr (Zpos m) (- e) in
        let exact := (Z.shiftl q (- e) =? Zpos m)%Z in
        if s then of_Z (if exact then - q else - (q + 1))
        else of_Z q
  | _ => x
  end.

(** The integer a float holds, when it holds one. *)
Definition to_Z (x : float) : option Z :=
  match Prim2SF x with
  | S754_zero _ => Some 0%Z
  | S754_finite s m e =>
      let magnitude :=
        if (0 <=? e)%Z then Some (Z.shiftl (Zpos m) e)
        else
          let q := Z.shiftr (Zpos m) (- e) in
          if (Z.shiftl q (- e) =? Zpos m)%Z then Some q else None in
      option_map (fun v => if s then (- v)%Z else v) magnitude
  | _ => None
  end.

(** nearestNeighbor (m-core.js, lines 90-105) as it runs on arrays of
    binary64 numbers: every sum, difference and product is rounded to the
    nearest number and overflows to an infinity.  [Math.pow(x, 2)] is the
    product [x * x], which is how the engines compute a power of exponent 2;
    a missing [neighbor[j]] is [undefined], hence NaN. *)
Fixpoint dist_loop (point neighbor : list float) (dist : float) : float :=
  match point with
  | [] => dist
  | pj :: point' =>
      let nj := match neighbor with [] => PrimFloat.nan | x :: _ => x end in
      dist_loop point' (tail neighbor) (dist + (pj - nj) * (pj - nj))%float
  end.

Fixpoint nearest_loop (point : list float) (neighbors : list (list float))
    (i : Z) (best_dist : float) (best_index : Z) : Z :=
  match neighbors with
  | [] => best_index
  | neighbor :: rest =>
      let dist := dist_loop point neighbor (of_Z 0) in
      if (dist <? best_dist)%float
      then nearest_loop point rest (i + 1) dist i
      else nearest_loop point rest (i + 1) best_dist best_index
  end.

Definition nearestNeighbor (point : list float) (neighbors : list (list float)) : Z :=
  nearest_loop point neighbors 0 PrimFloat.infinity (-1).

End Binary64.

(** ** rescaleDimensions (m-core.js, lines 35-41) *)

(** The function as it runs, on binary64 numbers. *)
Definition rescaleDimensions (w h pixels : float) : float * float :=
  let aspectRatio := (w / h)%float in
  let scalingFactor := PrimFloat.sqrt (pixels / aspectRatio)%float in
  let rescaledW := Binary64.floor (aspectRatio * scalingFactor)%float in
  let rescaledH := Binary64.floor scalingFactor in
  (rescaledW, rescaledH).

(** ** getPixelDataset (m-core.js, lines 54-79) *)

(** [flattenedDataset.slice(i, i + nChannels)] *)
Definition slice (flattenedDataset : list Z) (i nChannels : nat) : list Z :=
  take nChannels (drop i flattenedDataset).

(** The loop [for (let i = 0; i < flattenedDataset.length; i += nChannels)]. *)
Fixpoint dataset_loop (fuel : nat) (flattenedDataset : list Z) (nChannels i : nat)
    (dataset : list (list Z)) : outcome (list (list Z)) :=
  match fuel with
  | O => OutOfFuel
  | S fuel' =>
      if (i <? length flattenedDataset)%nat then
        dataset_loop fuel' flattenedDataset nChannels (i + nChannels)
          (dataset ++ [slice flattenedDataset i nChannels])
      else Return dataset
  end.

(** [canvasWidth] and [canvasHeight]: the image's own dimensions, or those
    [rescaleDimensions] gives when [resizedPixels > 0] and the image has more
    pixels.  [resizedPixels] is [None] when the argument is omitted.  The
    host's [getImageData] throws a TypeError for a dimension that is not a
    finite number. *)
Definition canvas_dimensions (img_width img_height : Z) (resizedPixels : option Z)
    : outcome (Z * Z) :=
  let resizedPixels := match resizedPixels with None => -1 | Some p => p end in
  let imgNPixels := img_width * img_height in
  if (0 <? resizedPixels) && (resizedPixels <? imgNPixels) then
    let rescaled := rescaleDimensions (Binary64.of_Z img_width)
                      (Binary64.of_Z img_height) (Binary64.of_Z resizedPixels) in
    match Binary64.to_Z (fst rescaled), Binary64.to_Z (snd rescaled) with
    | Some canvasWidth, Some canvasHeight => Return (canvasWidth, canvasHeight)
    | _, _ => Throw TypeError
    end
  else Return (img_width, img_height).

(** [getImageData w h] is what the host returns for the image drawn on a
    canvas of [w] by [h] pixels: its raster, or an exception.  As in
    [quantize] the quotient [nChannels] is exact on such a raster. *)
Definition getPixelDataset (getImageData : Z -> Z -> outcome (list Z))
    (img_width img_height : Z) (resizedPixels : option Z)
    : outcome (list (list Z)) :=
  (canvas <- canvas_dimensions img_width img_height resizedPixels ;;
   let canvasNPixels := fst canvas * snd canvas in
   flattenedDataset <- getImageData (fst canvas) (snd canvas) ;;
   let nChannels :=
     Z.to_nat (Z.of_nat (length flattenedDataset) / canvasNPixels) in
   dataset_loop (S (length flattenedDataset)) flattenedDataset nChannels 0 [])%outcome.

(** ** The callback of the Quantize button (m-core.js, lines 337-339) *)

Definition MAX_K_MEANS_PIXELS : Z := 50000.

(** The three calls that compute [data_url].  [var centroids] is local to
    the callback: the identifier [centroids] that [quantize] reads has no
    binding. *)
Definition quantize_callback (getImageData : Z -> Z -> outcome (list Z))
    (fuel : nat) (img : image) (k : Z) : M (list Z) :=
  (pixel_dataset <-
     lift (getPixelDataset getImageData (width img) (height img)
             (Some MAX_K_MEANS_PIXELS)) ;;
   centroids <- kMeans fuel (map (map JsNum.of_Z) pixel_dataset) (Some k) ;;
   lift (quantize None img centroids))%heap.

(** ** Notions used to state the properties *)

(** An array of integers, as a pixel read from a typed array. *)
Definition pixel (samples : list Z) : array := map JsNum.of_Z samples.

(** An array of finite numbers, as an element of a list of candidates. *)
Definition array_of (c : list Q) : value := Some (map Num c).

(** The sum of the squared per-channel differences. *)
Fixpoint squared_distance (p c : list Q) : Q :=
  match p, c with
  | x :: p', y :: c' => ((x - y) * (x - y) + squared_distance p' c')%Q
  | _, _ => 0%Q
  end.

(** The names of the errors the code can raise. *)
Definition error_name (e : js_error) : string :=
  match e with
  | TypeError => "TypeError"
  | RangeError => "RangeError"
  | ReferenceError => "ReferenceError"
  end.

Definition fails_with {A} (name : string) (o : outcome A) : Prop :=
  exists e, o = Throw e /\ error_name e = name.

(** [kMeans] never returns, however many passes it is given. *)
Definition diverges (dataset : list array) (k : option Z) (h : heap) : Prop :=
  forall fuel, fst (kMeans fuel dataset k h) = OutOfFuel.

(** The captured seed of [random] is a non-negative integer. *)
Definition seed_ok (random : generator) (h : heap) : Prop :=
  0 <= default 0 (h !! random).

(** Every centroid is an array of [C] numbers. *)
Definition channels_ok (C : nat) (centroids : list value) : Prop :=
  Forall (fun c : value => exists p, c = Some p /\ length p = C) centroids.

(** [n] passes of the loop body, none of which breaks out or throws. *)
Fixpoint passes (n : nat) (random : generator) (dataset : list array) (k : Z)
    (centroids : list value) (h : heap) : option (list value * heap) :=
  match n with
  | O => Some (centroids, h)
  | S n' =>
      match kMeans_iteration random dataset k centroids h with
      | (Return (false, centroids'), h') => passes n' random dataset k centroids' h'
      | _ => None
      end
  end.

(** Two heaps in which the generators [g1] and [g2] hold the same seed. *)
Definition same_seed (g1 : generator) (h1 : heap) (g2 : generator) (h2 : heap) : Prop :=
  (g1 < length h1)%nat /\ (g2 < length h2)%nat /\ h1 !! g1 = h2 !! g2.

(** Two computations that agree on such heaps: same outcome, and the two
    generators again hold the same seed. *)
Definition agree {A} (g1 g2 : generator) (m1 m2 : M A) : Prop :=
  forall h1 h2, same_seed g1 h1 g2 h2 ->
    fst (m1 h1) = fst (m2 h2) /\ same_seed g1 (snd (m1 h1)) g2 (snd (m2 h2)).

(** A computation that writes no cell of the heap but that of [g]. *)
Definition writes_only {A} (g : generator) (m : M A) : Prop :=
  forall h, (g < length h)%nat -> exists seed, snd (m h) = <[g := seed]> h.

(** A palette whose entries are arrays of integers, as [colors]. *)
Definition byte_palette (palette : list (list Z)) : list value :=
  map (fun c => Some (pixel c)) palette.

(** A colour of four channels, each an integer of the sample domain. *)
Definition byte_color (c : list Z) : Prop :=
  length c = 4%nat /\ Forall (fun b => 0 <= b <= 255) c.

(** The raster read back from a quantized image. *)
Definition requantized (img : image) (out : list Z) : image :=
  {| width := width img; height := height img; data := out |}.

(** The palette entry [nearestNeighbor] selects for a pixel. *)
Definition remap (palette : list (list Z)) (px : list Z) : list Z :=
  match nearestNeighbor (pixel px) (byte_palette palette) with
  | Return i => default [] (js_get palette i)
  | _ => []
  end.

(** The sum of channel [j] over a dataset of arrays of finite numbers. *)
Definition channel_sum (j : nat) (dataset : list (list Q)) : Q :=
  fold_right Qplus 0%Q (map (fun p : list Q => default 0%Q (p !! j)) dataset).

(** Two numbers that no operation of the code tells apart: the same
    rational, the same infinity, or two NaN. *)
Definition num_equiv (x y : num) : Prop :=
  match x, y with
  | Num a, Num b => (a == b)%Q
  | PInf, PInf | NInf, NInf | NaN, NaN => True
  | _, _ => False
  end.

(** The samples [quantize] writes for a pixel when the identifier
    [centroids] is bound to [colors]: the colour [nearestNeighbor] selects,
    each channel converted as a store into a [Uint8ClampedArray] does. *)
Definition quantized_pixel (colors : list value) (px : list Z) : list Z :=
  match nearestNeighbor (pixel px) colors with
  | Return i =>
      match js_get colors i with
      | Some (Some nearest_color) => map to_uint8_clamp nearest_color
      | _ => []
      end
  | _ => []
  end.

(** The sum of the squared per-channel differences of two arrays of
    integers. *)
Fixpoint squared_distance_Z (p c : list Z) : Z :=
  match p, c with
  | x :: p', y :: c' => (x - y) * (x - y) + squared_distance_Z p' c'
  | _, _ => 0
  end.

(** The centroids a pass of the loop body leaves in [centroids], whether or
    not the loop breaks after it. *)
Definition pass (random : generator) (dataset : list array) (k : Z)
    (centroids : list value) : M (list value) :=
  (r <- kMeans_iteration random dataset k centroids ;; ret (snd r))%heap.

(** Every centroid of [centroids'] is equal, under [isArrayEqual], to the one
    it replaces in [centroids]. *)
Definition unchanged (centroids' centroids : list value) : Prop :=
  forall j, (j < length centroids)%nat ->
    isArrayEqual (get_value centroids' j) (get_value centroids j) = Return true.

(** [n] passes in a row, each of which returns and changes some centroid,
    lead from [centroids] and [h] to [centroids_n] and [hn]. *)
Fixpoint changing_passes (n : nat) (random : generator) (dataset : list array)
    (k : Z) (centroids : list value) (h : heap)
    (centroids_n : list value) (hn : heap) : Prop :=
  match n with
  | O => centroids_n = centroids /\ hn = h
  | S n' =>
      exists centroids' h',
        pass random dataset k centroids h = (Return centroids', h') /\
        ~ unchanged centroids' centroids /\
        changing_passes n' random dataset k centroids' h' centroids_n hn
  end.



(** [2^e] as a real number. *)
Definition bpow (e : Z) : R := powerRZ 2 e.

(** [x] is a positive normal binary64 number and holds the real [X]. *)
Definition pos_normal (x : float) (X : R) : Prop :=
  exists m e,
    Prim2SF x = S754_finite false m e /\
    2 ^ 52 <= Z.pos m < 2 ^ 53 /\
    X = (IZR (Z.pos m) * bpow e)%R.

(** The zero, or the number of 53 digits, that holds the integer [n]. *)
Definition holds_integer (f : spec_float) (n : Z) : Prop :=
  match f with
  | S754_zero s => s = false /\ n = 0
  | S754_finite s m e =>
      2 ^ 52 <= Z.pos m < 2 ^ 53 /\ -52 <= e <= 0 /\
      cond_Zopp s (Z.pos m) = n * 2 ^ (- e)
  | _ => False
  end.

(** ** A cheaper pass, used to evaluate long runs *)

Definition finite_array (a : array) : bool :=
  forallb (fun x => match x with Num _ => true | _ => false end) a.

(** Every neighbor is an array of finite numbers, as long as the point. *)
Definition comparable (point : array) (neighbors : list value) : bool :=
  finite_array point &&
  forallb (fun v : value =>
             match v with
             | Some nb => (length nb =? length point)%nat && finite_array nb
             | None => false
             end) neighbors.

(** The first index, counted from [i], of a neighbor equal to the point. *)
Fixpoint first_equal (point : array) (neighbors : list value) (i : Z) : option Z :=
  match neighbors with
  | [] => None
  | neighbor :: rest =>
      match neighbor with
      | Some nb =>
          if elements_equal point nb then Some i
          else first_equal point rest (i + 1)
      | None => None
      end
  end.

Definition exact_match (point : array) (neighbors : list value) : option Z :=
  if comparable point neighbors then first_equal point neighbors 0 else None.

(** The assignment loop with [exact_match] in the place of
    [nearestNeighbor]; it gives up when a point has no exact match. *)
Fixpoint exact_assign (points : list array) (centroids : list value)
    (clusters : list (list array)) : option (list (list array)) :=
  match points with
  | [] => Some clusters
  | point :: rest =>
      match exact_match point centroids with
      | None => None
      | Some nearest_centroid =>
          match js_get clusters nearest_centroid with
          | None => None
          | Some cluster =>
              exact_assign rest centroids
                (<[Z.to_nat nearest_centroid := cluster ++ [point]]> clusters)
          end
      end
  end.

(** [n] passes, none of which breaks out, each assigning by exact match. *)
Fixpoint exact_passes (n : nat) (random : generator) (dataset : list array) (k : Z)
    (centroids : list value) (h : heap) : option (list value * heap) :=
  match n with
  | O => Some (centroids, h)
  | S n' =>
      match empty_clusters k with
      | Return clusters0 =>
          match exact_assign dataset centroids clusters0 with
          | Some clusters =>
              match update_centroids (Z.to_nat k) 0 random dataset clusters true
                      centroids h with
              | (Return (false, centroids'), h') =>
                  exact_passes n' random dataset k centroids' h'
              | _ => None
              end
          | None => None
          end
      | _ => None
      end
  end.

(** ** Inputs of the examples *)

(** The four pixels of the specification's scenario. *)
Definition dataset4 : list array :=
  [pixel [0; 0; 0; 255]; pixel [10; 10; 10; 255];
   pixel [250; 250; 250; 255]; pixel [255; 255; 255; 255]].

(** Eleven pixels of three colours. *)
Definition dataset11 : list array :=
  replicate 4 (pixel [0; 0; 0; 255]) ++ replicate 4 (pixel [1; 1; 1; 255])
    ++ replicate 3 (pixel [2; 2; 2; 255]).

(** A raster of one pixel. *)
Definition one_pixel : image :=
  {| width := 1; height := 1; data := [10; 10; 10; 255] |}.

(** A raster of one red pixel, and a palette of two colours with fractional
    channels, all dyadic. *)
Definition red_pixel : image :=
  {| width := 1; height := 1; data := [1; 0; 0; 255] |}.

Definition fractional_palette : list value :=
  [Some [Num (3 # 8); Num (3 # 8); Num 0; Num 255];
   Some [Num 0; Num (33 # 64); Num 0; Num 255]].

(** * Properties *)

(** ** Numbers *)

Lemma ltb_Num (a b : Q) : JsNum.ltb (Num a) (Num b) = true <-> (a < b)%Q.
Proof.
  simpl. rewrite negb_true_iff. split.
  - intros H. apply Qnot_le_lt. intros Hle.
    apply Qle_bool_iff in Hle. congruence.
  - intros H. destruct (Qle_bool b a) eqn:E; [|reflexivity].
    apply Qle_bool_iff in E. exfalso. exact (Qlt_not_le _ _ H E).
Qed.

Lemma ltb_Num_false (a b : Q) : JsNum.ltb (Num a) (Num b) = false <-> (b <= a)%Q.
Proof.
  simpl. rewrite negb_false_iff. apply Qle_bool_iff.
Qed.

Lemma Qsquare_nonneg (q : Q) : (0 <= q * q)%Q.
Proof. destruct q as [a b]. unfold Qle, Qmult. simpl. nia. Qed.

Lemma squared_distance_nonneg (p c : list Q) : (0 <= squared_distance p c)%Q.
Proof.
  revert c. induction p as [|x p IH]; intros [|y c]; simpl; try apply Qle_refl.
  replace 0%Q with (0 + 0)%Q by reflexivity.
  apply Qplus_le_compat; [apply Qsquare_nonneg | apply IH].
Qed.

(** ** Binary64 numbers: rounding *)

Lemma digits2_pos_bounds (p : positive) :
  2 ^ (Z.pos (digits2_pos p) - 1) <= Z.pos p < 2 ^ Z.pos (digits2_pos p).
Proof.
  induction p as [p IH|p IH|]; cbn [digits2_pos].
  - rewrite Pos2Z.inj_succ.
    replace (Z.succ (Z.pos (digits2_pos p)) - 1) with (Z.succ (Z.pos (digits2_pos p) - 1)) by lia.
    rewrite !Z.pow_succ_r by lia. lia.
  - rewrite Pos2Z.inj_succ.
    replace (Z.succ (Z.pos (digits2_pos p)) - 1) with (Z.succ (Z.pos (digits2_pos p) - 1)) by lia.
    rewrite !Z.pow_succ_r by lia. lia.
  - simpl. lia.
Qed.

Lemma shr_1_m (mrs : shr_record) :
  0 <= shr_m mrs -> shr_m (shr_1 mrs) = shr_m mrs / 2.
Proof.
  destruct mrs as [m r s]. cbn [shr_m]. intros Hm.
  destruct m as [|[p|p|]|p]; cbn [shr_1 shr_m]; try lia.
  - reflexivity.
  - rewrite Pos2Z.inj_xI. apply (Z.div_unique_pos _ _ _ 1); lia.
  - rewrite Pos2Z.inj_xO. apply (Z.div_unique_pos _ _ _ 0); lia.
  - reflexivity.
Qed.

Lemma shr_iter_m (p : positive) (mrs : shr_record) :
  0 <= shr_m mrs ->
  shr_m (SpecFloat.iter_pos shr_1 p mrs) = shr_m mrs / 2 ^ Z.pos p.
Proof.
  revert mrs. induction p as [p IH|p IH|]; intros mrs Hm; cbn [SpecFloat.iter_pos].
  - assert (H1 : 0 <= shr_m (shr_1 mrs)) by (rewrite shr_1_m by exact Hm; apply Z.div_pos; lia).
    assert (H2 : 0 <= shr_m (SpecFloat.iter_pos shr_1 p (shr_1 mrs)))
      by (rewrite IH by exact H1; apply Z.div_pos; [exact H1 | apply Z.pow_pos_nonneg; lia]).
    rewrite IH by exact H2. rewrite IH by exact H1. rewrite shr_1_m by exact Hm.
    rewrite !Z.div_div by (try apply Z.pow_pos_nonneg; lia).
    f_equal.
    assert (E : 2 ^ Z.pos p~1 = 2 * 2 ^ Z.pos p * 2 ^ Z.pos p).
    { assert (E0 : Z.pos p~1 = 1 + Z.pos p + Z.pos p) by lia.
      rewrite E0, !Z.pow_add_r by lia. reflexivity. }
    rewrite E. ring.
  - assert (H2 : 0 <= shr_m (SpecFloat.iter_pos shr_1 p mrs))
      by (rewrite IH by exact Hm; apply Z.div_pos; [exact Hm | apply Z.pow_pos_nonneg; lia]).
    rewrite IH by exact H2. rewrite IH by exact Hm.
    rewrite !Z.div_div by (try apply Z.pow_pos_nonneg; lia).
    f_equal.
    assert (E : 2 ^ Z.pos p~0 = 2 ^ Z.pos p * 2 ^ Z.pos p).
    { assert (E0 : Z.pos p~0 = Z.pos p + Z.pos p) by lia.
      rewrite E0, Z.pow_add_r by lia. reflexivity. }
    rewrite E. ring.
  - rewrite shr_1_m by exact Hm. reflexivity.
Qed.

Lemma round_nearest_even_range (m : Z) (l : location) :
  round_nearest_even m l = m \/ round_nearest_even m l = m + 1.
Proof.
  destruct l as [|[| |]]; cbn [round_nearest_even]; auto.
  destruct (Z.even m); auto.
Qed.

(* Rounding a mantissa of at least 53 digits in the normal range. *)
Lemma binary_round_aux_spec (sx : bool) (mx : positive) (ex : Z) (lx : location) :
  let d := Z.pos (digits2_pos mx) in
  let k := d - 53 in
  let t := Z.pos mx / 2 ^ k in
  53 <= d -> -1021 <= d + ex -> d + ex <= 1023 ->
  exists m e,
    binary_round_aux prec emax sx (Z.pos mx) ex lx = S754_finite sx m e /\
    2 ^ 52 <= t < 2 ^ 53 /\
    ((Z.pos m = t /\ e = ex + k) \/
     (Z.pos m = t + 1 /\ e = ex + k /\ t + 1 < 2 ^ 53) \/
     (Z.pos m = 2 ^ 52 /\ e = ex + k + 1 /\ t + 1 = 2 ^ 53)) /\
    (lx = loc_Exact -> k = 0 -> m = mx /\ e = ex).
Proof.
  intros d k t Hd Hlo Hhi.
  pose proof (digits2_pos_bounds mx) as Hdig. fold d in Hdig.
  assert (Hk : 0 <= k) by (unfold k; lia).
  assert (Hpk : 0 < 2 ^ k) by (apply Z.pow_pos_nonneg; lia).
  assert (Ht : 2 ^ 52 <= t < 2 ^ 53).
  { unfold t. split.
    - apply Z.div_le_lower_bound; [exact Hpk|].
      rewrite <- Z.pow_add_r by lia. replace (k + 52) with (d - 1) by (unfold k; lia). lia.
    - apply Z.div_lt_upper_bound; [exact Hpk|].
      rewrite <- Z.pow_add_r by lia. replace (k + 53) with d by (unfold k; lia). lia. }
  assert (Hfexp : fexp prec emax (d + ex) = ex + k).
  { unfold fexp, SpecFloat.emin, prec, emax, k. lia. }
  (* first shift *)
  assert (Hshr1 : exists mrs1,
            shr_fexp prec emax (Z.pos mx) ex lx = (mrs1, ex + k) /\ shr_m mrs1 = t /\
            (lx = loc_Exact -> k = 0 -> mrs1 = {| shr_m := Z.pos mx; shr_r := false; shr_s := false |})).
  { unfold shr_fexp. cbn [Zdigits2]. fold d. rewrite Hfexp.
    replace (ex + k - ex) with k by lia. unfold shr.
    destruct k as [|pk|pk] eqn:Ek; [| |lia].
    - exists (shr_record_of_loc (Z.pos mx) lx). split; [f_equal; lia|]. split.
      + unfold t. rewrite Z.pow_0_r, Z.div_1_r.
        destruct lx as [|[| |]]; reflexivity.
      + intros -> _. reflexivity.
    - exists (SpecFloat.iter_pos shr_1 pk (shr_record_of_loc (Z.pos mx) lx)). split; [reflexivity|]. split.
      + rewrite shr_iter_m.
        * unfold t. destruct lx as [|[| |]]; reflexivity.
        * destruct lx as [|[| |]]; cbn; lia.
      + intros _ H. discriminate. }
  destruct Hshr1 as (mrs1 & Hs1 & Hm1 & Hex1).
  unfold binary_round_aux. rewrite Hs1.
  set (m2 := round_nearest_even (shr_m mrs1) (loc_of_shr_record mrs1)).
  assert (Hm2 : m2 = t \/ m2 = t + 1).
  { unfold m2. rewrite <- Hm1. apply round_nearest_even_range. }
  assert (Hcase : (m2 < 2 ^ 53) \/ m2 = 2 ^ 53) by lia.
  destruct Hcase as [Hlt|Heq].
  - (* no carry: the second shift does nothing *)
    assert (Hm2pos : 0 < m2) by lia.
    destruct m2 as [|p2|p2] eqn:Ep2; try lia.
    assert (Hd2 : Z.pos (digits2_pos p2) = 53).
    { pose proof (digits2_pos_bounds p2) as H2.
      assert (Z.pos (digits2_pos p2) - 1 < 53).
      { apply (Z.pow_lt_mono_r_iff 2); lia. }
      assert (52 < Z.pos (digits2_pos p2)).
      { apply (Z.pow_lt_mono_r_iff 2); lia. }
      lia. }
    unfold shr_fexp at 1. cbn [Zdigits2]. rewrite Hd2.
    assert (Hf2 : fexp prec emax (53 + (ex + k)) = ex + k).
    { unfold fexp, SpecFloat.emin, prec, emax, k. lia. }
    rewrite Hf2. replace (ex + k - (ex + k)) with 0 by lia.
    cbn [shr shr_record_of_loc shr_m].
    assert (Hle : (ex + k <=? emax - prec) = true).
    { apply Z.leb_le. unfold emax, prec, k. lia. }
    rewrite Hle. exists p2, (ex + k). split; [reflexivity|]. split; [exact Ht|]. split.
    + destruct Hm2 as [H|H]; [left | right; left]; lia.
    + intros Hl Hk0. split; [|lia].
      specialize (Hex1 Hl Hk0). subst mrs1. cbn in Ep2. congruence.
  - (* carry to 2^53: one more shift *)
    assert (Ep : m2 = Z.pos (2 ^ 53)%positive) by (rewrite Heq; reflexivity).
    rewrite Ep.
    unfold shr_fexp at 1. cbn [Zdigits2].
    change (Z.pos (digits2_pos (2 ^ 53))) with 54.
    assert (Hf2 : fexp prec emax (54 + (ex + k)) = ex + k + 1).
    { unfold fexp, SpecFloat.emin, prec, emax, k. lia. }
    rewrite Hf2. replace (ex + k + 1 - (ex + k)) with 1 by lia.
    cbn [shr shr_record_of_loc SpecFloat.iter_pos shr_1 shr_m].
    assert (Hle : (ex + k + 1 <=? emax - prec) = true).
    { apply Z.leb_le. unfold emax, prec, k. lia. }
    rewrite Hle. eexists _, (ex + k + 1). split; [reflexivity|]. split; [exact Ht|]. split.
    + right; right. split; [reflexivity|]. split; [reflexivity|]. lia.
    + intros Hl Hk0. exfalso. specialize (Hex1 Hl Hk0). subst mrs1.
      unfold m2 in Heq. cbn in Heq. unfold t in Ht. rewrite Hk0 in Ht.
      rewrite Z.pow_0_r, Z.div_1_r in Ht. lia.
Qed.

Lemma bpow_pos (e : Z) : (0 < bpow e)%R.
Proof. apply powerRZ_lt. lra. Qed.

Lemma bpow_add (a b : Z) : bpow (a + b) = (bpow a * bpow b)%R.
Proof. apply powerRZ_add. lra. Qed.

Lemma bpow_IZR (n : Z) : 0 <= n -> bpow n = IZR (2 ^ n).
Proof.
  intros Hn. unfold bpow. rewrite <- (Z2Nat.id n) by exact Hn.
  rewrite <- pow_powerRZ, pow_IZR. reflexivity.
Qed.

Lemma bpow_ge_1 (n : Z) : 0 <= n -> (1 <= bpow n)%R.
Proof.
  intros Hn. rewrite bpow_IZR by exact Hn. apply IZR_le.
  assert (0 < 2 ^ n) by (apply Z.pow_pos_nonneg; lia). lia.
Qed.

Lemma bpow_gt_1 (n : Z) : 0 < n -> (1 < bpow n)%R.
Proof.
  intros Hn. rewrite bpow_IZR by lia. apply IZR_lt.
  apply Z.pow_gt_1; lia.
Qed.

Lemma bpow_le (a b : Z) : a <= b -> (bpow a <= bpow b)%R.
Proof.
  intros H. replace b with (a + (b - a)) by lia. rewrite bpow_add.
  pose proof (bpow_pos a). pose proof (bpow_ge_1 (b - a) ltac:(lia)). nra.
Qed.

Lemma bpow_lt (a b : Z) : a < b -> (bpow a < bpow b)%R.
Proof.
  intros H. replace b with (a + (b - a)) by lia. rewrite bpow_add.
  pose proof (bpow_pos a). pose proof (bpow_gt_1 (b - a) ltac:(lia)). nra.
Qed.

Lemma bpow_lt_inv (a b : Z) : (bpow a < bpow b)%R -> a < b.
Proof.
  intros H. destruct (Z_lt_le_dec a b) as [Hlt|Hge]; [exact Hlt|].
  pose proof (bpow_le b a Hge). lra.
Qed.

Lemma bpow_1 : bpow 1 = 2%R.
Proof. rewrite bpow_IZR by lia. reflexivity. Qed.

Lemma bpow_opp (a : Z) : (bpow a * bpow (- a) = 1)%R.
Proof. rewrite <- bpow_add. replace (a + - a) with 0 by lia. reflexivity. Qed.

(** The value of a mantissa of [d] digits. *)
Lemma digits_value (m : positive) (e : Z) :
  (bpow (Z.pos (digits2_pos m) + e - 1) <= IZR (Z.pos m) * bpow e
   < bpow (Z.pos (digits2_pos m) + e))%R.
Proof.
  pose proof (digits2_pos_bounds m) as [H1 H2].
  set (d := Z.pos (digits2_pos m)) in *.
  assert (Hd : 1 <= d) by (unfold d; lia).
  pose proof (bpow_pos e) as He.
  replace (d + e - 1) with ((d - 1) + e) by lia. rewrite !bpow_add.
  rewrite (bpow_IZR (d - 1)) by lia. rewrite (bpow_IZR d) by lia.
  apply IZR_le in H1. apply IZR_lt in H2. split; nra.
Qed.

(** Rounding, on values: the result is within [2^-52] of what is rounded,
    relatively. *)
Lemma binary_round_aux_value (sx : bool) (mx : positive) (ex : Z) (lx : location)
    (X : R) :
  53 <= Z.pos (digits2_pos mx) ->
  (IZR (Z.pos mx) * bpow ex <= X < (IZR (Z.pos mx) + 1) * bpow ex)%R ->
  (bpow (-1021) <= X <= bpow 1022)%R ->
  exists m e,
    binary_round_aux prec emax sx (Z.pos mx) ex lx = S754_finite sx m e /\
    2 ^ 52 <= Z.pos m < 2 ^ 53 /\
    (X * (1 - bpow (-52)) <= IZR (Z.pos m) * bpow e <= X * (1 + bpow (-52)))%R.
Proof.
  intros Hd [HX1 HX2] [Hr1 Hr2].
  pose proof (digits_value mx ex) as [Hv1 Hv2].
  set (d := Z.pos (digits2_pos mx)) in *.
  pose proof (bpow_pos ex) as Hpe.
  assert (Hmx1 : (1 <= IZR (Z.pos mx))%R) by (apply IZR_le; lia).
  assert (Hlo : -1021 <= d + ex).
  { assert (H : (bpow (-1021) < bpow (d + ex + 1))%R).
    { replace (d + ex + 1) with (1 + (d + ex)) by lia. rewrite bpow_add, bpow_1.
      pose proof (bpow_pos (d + ex)). nra. }
    apply bpow_lt_inv in H. lia. }
  assert (Hhi : d + ex <= 1023).
  { assert (H : (bpow (d + ex - 1) < bpow 1023)%R).
    { pose proof (bpow_lt 1022 1023 ltac:(lia)). lra. }
    apply bpow_lt_inv in H. lia. }
  destruct (binary_round_aux_spec sx mx ex lx Hd Hlo Hhi)
    as (m & e & Hrun & Ht & Hcases & _).
  fold d in Ht, Hcases.
  set (k := d - 53) in *. set (t := Z.pos mx / 2 ^ k) in *.
  assert (Hk : 0 <= k) by (unfold k; lia).
  assert (Hpk : 0 < 2 ^ k) by (apply Z.pow_pos_nonneg; lia).
  exists m, e. split; [exact Hrun|].
  assert (Hm : 2 ^ 52 <= Z.pos m < 2 ^ 53) by lia.
  split; [exact Hm|].
  (* the truncated mantissa brackets the value *)
  pose proof (Z.div_mod (Z.pos mx) (2 ^ k) ltac:(lia)) as Hdm.
  pose proof (Z.mod_pos_bound (Z.pos mx) (2 ^ k) Hpk) as Hmod.
  fold t in Hdm.
  assert (Hb1 : t * 2 ^ k <= Z.pos mx) by lia.
  assert (Hb2 : Z.pos mx + 1 <= (t + 1) * 2 ^ k) by lia.
  apply IZR_le in Hb1, Hb2. rewrite mult_IZR, <- bpow_IZR in Hb1 by exact Hk.
  rewrite plus_IZR, mult_IZR, plus_IZR, <- bpow_IZR in Hb2 by exact Hk.
  set (beta := bpow (ex + k)).
  assert (Hbeta : (0 < beta)%R) by apply bpow_pos.
  assert (Hbk : beta = (bpow k * bpow ex)%R).
  { unfold beta. rewrite <- bpow_add. f_equal. lia. }
  pose proof (bpow_pos k) as Hpkr.
  assert (HtX : (IZR t * beta <= X)%R) by (rewrite Hbk; nra).
  assert (HXt : (X < (IZR t + 1) * beta)%R) by (rewrite Hbk; nra).
  assert (Ht52 : (bpow 52 <= IZR t)%R).
  { rewrite bpow_IZR by lia. apply IZR_le. lia. }
  assert (Hu : (beta <= X * bpow (-52))%R).
  { assert (H : (bpow 52 * beta <= X)%R) by nra.
    assert (Ho : (bpow 52 * bpow (-52) = 1)%R) by exact (bpow_opp 52).
    pose proof (bpow_pos (-52)) as Hp52.
    apply (Rmult_le_compat_r (bpow (-52))) in H; [|lra].
    replace (bpow 52 * beta * bpow (-52))%R with (beta * (bpow 52 * bpow (-52)))%R in H by ring.
    rewrite Ho in H. lra. }
  assert (Hv : (IZR (Z.pos m) * bpow e = IZR t * beta
                \/ IZR (Z.pos m) * bpow e = (IZR t + 1) * beta)%R).
  { destruct Hcases as [[H1 H2]|[[H1 [H2 _]]|[H1 [H2 H3]]]].
    - left. rewrite H1, H2. reflexivity.
    - right. rewrite H1, H2, plus_IZR. reflexivity.
    - right. rewrite H1, H2.
      replace (ex + k + 1) with (1 + (ex + k)) by lia. rewrite bpow_add.
      rewrite bpow_1. fold beta.
      assert (E : (IZR t + 1 = IZR (2 ^ 53))%R) by (rewrite <- H3, plus_IZR; reflexivity).
      rewrite E. change (2 ^ 53) with (2 * 2 ^ 52). rewrite mult_IZR. ring. }
  destruct Hv as [-> | ->]; split; nra.
Qed.

Lemma digits_53 (m : positive) :
  2 ^ 52 <= Z.pos m < 2 ^ 53 -> Z.pos (digits2_pos m) = 53.
Proof.
  intros Hm. pose proof (digits2_pos_bounds m) as Hd.
  assert (Z.pos (digits2_pos m) - 1 < 53) by (apply (Z.pow_lt_mono_r_iff 2); lia).
  assert (52 < Z.pos (digits2_pos m)) by (apply (Z.pow_lt_mono_r_iff 2); lia).
  lia.
Qed.

(** The exponent of a valid number with a mantissa of 53 digits. *)
Lemma valid_exponent (x : float) (s : bool) (m : positive) (e : Z) :
  Prim2SF x = S754_finite s m e -> 2 ^ 52 <= Z.pos m < 2 ^ 53 ->
  -1074 <= e <= 971.
Proof.
  intros Hx Hm. pose proof (Prim2SF_valid x) as Hv. rewrite Hx in Hv.
  unfold SpecFloat.valid_binary, bounded, canonical_mantissa in Hv.
  apply andb_true_iff in Hv as [H1 H2].
  apply Z.eqb_eq in H1. apply Z.leb_le in H2.
  rewrite (digits_53 m Hm) in H1.
  unfold fexp, SpecFloat.emin, prec, emax in *. lia.
Qed.

Lemma Rdiv_bracket (a b X Y : R) :
  (0 < Y)%R -> (a * Y <= X)%R -> (X < b * Y)%R -> (a <= X / Y < b)%R.
Proof.
  intros HY H1 H2. assert (E : (X = X / Y * Y)%R) by (field; lra).
  set (q := (X / Y)%R) in *. split; nra.
Qed.

Lemma pos_normal_pos (x : float) (X : R) : pos_normal x X -> (0 < X)%R.
Proof.
  intros (m & e & _ & Hm & ->). pose proof (bpow_pos e).
  assert (0 < IZR (Z.pos m))%R by (apply IZR_lt; lia). nra.
Qed.

(** Multiplication. *)
Lemma mul_pos_normal (x y : float) (X Y : R) :
  pos_normal x X -> pos_normal y Y ->
  (bpow (-1021) <= X * Y <= bpow 1022)%R ->
  exists V, pos_normal (x * y) V /\
            (X * Y * (1 - bpow (-52)) <= V <= X * Y * (1 + bpow (-52)))%R.
Proof.
  intros (mx & ex & Hx & Hmx & ->) (my & ey & Hy & Hmy & ->) Hrange.
  assert (Hprod : (IZR (Z.pos mx) * bpow ex * (IZR (Z.pos my) * bpow ey)
                   = IZR (Z.pos (mx * my)) * bpow (ex + ey))%R).
  { rewrite Pos2Z.inj_mul, mult_IZR, bpow_add. ring. }
  rewrite Hprod in *.
  destruct (binary_round_aux_value false (mx * my) (ex + ey) loc_Exact
              (IZR (Z.pos (mx * my)) * bpow (ex + ey))%R)
    as (m & e & Hrun & Hm & Hv).
  - pose proof (digits2_pos_bounds (mx * my)) as Hd.
    assert (2 ^ 104 <= Z.pos (mx * my)).
    { rewrite Pos2Z.inj_mul. change (2 ^ 104) with (2 ^ 52 * 2 ^ 52). nia. }
    assert (104 < Z.pos (digits2_pos (mx * my))) by (apply (Z.pow_lt_mono_r_iff 2); lia).
    lia.
  - pose proof (bpow_pos (ex + ey)). split; nra.
  - exact Hrange.
  - exists (IZR (Z.pos m) * bpow e)%R. split; [|exact Hv].
    exists m, e. split; [|split; [exact Hm | reflexivity]].
    rewrite FloatAxioms.mul_spec, Hx, Hy. exact Hrun.
Qed.

(** Division. *)
Lemma div_pos_normal (x y : float) (X Y : R) :
  pos_normal x X -> pos_normal y Y ->
  (bpow (-1021) <= X / Y <= bpow 1022)%R ->
  exists V, pos_normal (x / y) V /\
            (X / Y * (1 - bpow (-52)) <= V <= X / Y * (1 + bpow (-52)))%R.
Proof.
  intros (mx & ex & Hx & Hmx & ->) (my & ey & Hy & Hmy & ->) Hrange.
  set (X := (IZR (Z.pos mx) * bpow ex)%R) in *.
  set (Y := (IZR (Z.pos my) * bpow ey)%R) in *.
  pose proof (bpow_pos ex) as Hpex. pose proof (bpow_pos ey) as Hpey.
  assert (Hmx' : (bpow 52 <= IZR (Z.pos mx) < bpow 53)%R).
  { rewrite !bpow_IZR by lia. split; [apply IZR_le | apply IZR_lt]; lia. }
  assert (Hmy' : (bpow 52 <= IZR (Z.pos my) < bpow 53)%R).
  { rewrite !bpow_IZR by lia. split; [apply IZR_le | apply IZR_lt]; lia. }
  pose proof (bpow_pos 52) as Hp52.
  assert (HYpos : (0 < Y)%R) by (unfold Y; nra).
  (* the exponents are far from the subnormal range *)
  assert (Hexp : -1021 <= ex - ey).
  { assert (H : (bpow (-1021) < bpow (ex - ey + 1))%R).
    { eapply Rle_lt_trans; [apply Hrange|].
      apply (Rdiv_bracket 0 (bpow (ex - ey + 1)) X Y HYpos); [unfold X; nra|].
      replace (ex - ey + 1) with (1 + ex + - ey) by lia.
      rewrite !bpow_add, bpow_1. unfold X, Y.
      pose proof (bpow_opp ey) as Ho. pose proof (bpow_pos (- ey)) as Hn.
      assert (E : (2 * bpow ex * bpow (- ey) * (IZR (Z.pos my) * bpow ey)
                   = 2 * IZR (Z.pos my) * bpow ex * (bpow ey * bpow (- ey)))%R) by ring.
      rewrite E, Ho. replace (bpow 53) with (2 * bpow 52)%R in Hmx'
        by (change 53 with (1 + 52); rewrite bpow_add, bpow_1; reflexivity).
      nra. }
    apply bpow_lt_inv in H. lia. }
  set (e' := ex - ey - 53).
  assert (Hcore : SFdiv_core_binary prec emax (Z.pos mx) ex (Z.pos my) ey
                  = (Z.pos mx * 2 ^ 53 / Z.pos my, e',
                     new_location (Z.pos my) (Z.pos mx * 2 ^ 53 mod Z.pos my))).
  { unfold SFdiv_core_binary. cbn [Zdigits2].
    rewrite (digits_53 mx Hmx), (digits_53 my Hmy).
    replace (53 + ex - (53 + ey)) with (ex - ey) by lia.
    assert (Hmin : Z.min (fexp prec emax (ex - ey)) (ex - ey) = e').
    { unfold fexp, SpecFloat.emin, prec, emax, e'. lia. }
    rewrite Hmin. replace (ex - ey - e') with 53 by (unfold e'; lia).
    rewrite Z.shiftl_mul_pow2 by lia.
    unfold Z.div, Z.modulo.
    destruct (Z.div_eucl (Z.pos mx * 2 ^ 53) (Z.pos my)) as [q r]. reflexivity. }
  set (q := Z.pos mx * 2 ^ 53 / Z.pos my) in *.
  assert (Hq : Z.pos my * q <= Z.pos mx * 2 ^ 53 < Z.pos my * (q + 1)).
  { pose proof (Z.div_mod (Z.pos mx * 2 ^ 53) (Z.pos my) ltac:(lia)) as Hdm.
    pose proof (Z.mod_pos_bound (Z.pos mx * 2 ^ 53) (Z.pos my) ltac:(lia)) as Hmod.
    fold q in Hdm. lia. }
  assert (Hq52 : 2 ^ 52 <= q).
  { unfold q. apply Z.div_le_lower_bound; [lia|].
    change (2 ^ 53) with (2 * 2 ^ 52). nia. }
  destruct q as [|qp|qp] eqn:Eq; try lia.
  assert (HXY : (IZR (Z.pos qp) * bpow e' <= X / Y < (IZR (Z.pos qp) + 1) * bpow e')%R).
  { destruct Hq as [Hq1 Hq2]. apply IZR_le in Hq1. apply IZR_lt in Hq2.
    rewrite !mult_IZR, <- bpow_IZR in Hq1, Hq2 by lia. rewrite plus_IZR in Hq2.
    assert (Eex : bpow ex = (bpow 53 * bpow e' * bpow ey)%R).
    { rewrite <- !bpow_add. f_equal. unfold e'. lia. }
    pose proof (bpow_pos e') as Hpe'.
    apply Rdiv_bracket; [exact HYpos | |]; unfold X, Y; rewrite Eex.
    - assert (E : (IZR (Z.pos qp) * bpow e' * (IZR (Z.pos my) * bpow ey)
                   = (IZR (Z.pos my) * IZR (Z.pos qp)) * (bpow e' * bpow ey))%R) by ring.
      assert (E2 : (IZR (Z.pos mx) * (bpow 53 * bpow e' * bpow ey)
                    = (IZR (Z.pos mx) * bpow 53) * (bpow e' * bpow ey))%R) by ring.
      rewrite E, E2. apply Rmult_le_compat_r; [nra | exact Hq1].
    - assert (E : ((IZR (Z.pos qp) + 1) * bpow e' * (IZR (Z.pos my) * bpow ey)
                   = (IZR (Z.pos my) * (IZR (Z.pos qp) + 1)) * (bpow e' * bpow ey))%R) by ring.
      assert (E2 : (IZR (Z.pos mx) * (bpow 53 * bpow e' * bpow ey)
                    = (IZR (Z.pos mx) * bpow 53) * (bpow e' * bpow ey))%R) by ring.
      rewrite E, E2. apply Rmult_lt_compat_r; [nra | exact Hq2]. }
  destruct (binary_round_aux_value false qp e'
              (new_location (Z.pos my) (Z.pos mx * 2 ^ 53 mod Z.pos my)) (X / Y)%R)
    as (m & e & Hrun & Hm & Hv).
  - pose proof (digits2_pos_bounds qp) as Hd.
    assert (52 < Z.pos (digits2_pos qp)) by (apply (Z.pow_lt_mono_r_iff 2); lia).
    lia.
  - exact HXY.
  - exact Hrange.
  - exists (IZR (Z.pos m) * bpow e)%R. split; [|exact Hv].
    exists m, e. split; [|split; [exact Hm | reflexivity]].
    rewrite FloatAxioms.div_spec, Hx, Hy. unfold SF64div, SFdiv. rewrite Hcore. exact Hrun.
Qed.

(** Square root. *)
Lemma sqrt_pos_normal (x : float) (X : R) :
  pos_normal x X ->
  exists V, pos_normal (PrimFloat.sqrt x) V /\
            (sqrt X * (1 - bpow (-52)) <= V <= sqrt X * (1 + bpow (-52)))%R.
Proof.
  intros (mx & ex & Hx & Hmx & ->).
  pose proof (valid_exponent x false mx ex Hx Hmx) as Hex.
  set (h := ex / 2).
  set (e' := h - 26).
  set (s := ex - 2 * e').
  assert (Hs : s = 52 \/ s = 53).
  { unfold s, e', h. pose proof (Z.div_mod ex 2 ltac:(lia)).
    pose proof (Z.mod_pos_bound ex 2 ltac:(lia)). lia. }
  assert (Hh : -537 <= h <= 485).
  { unfold h. pose proof (Z.div_mod ex 2 ltac:(lia)).
    pose proof (Z.mod_pos_bound ex 2 ltac:(lia)). lia. }
  set (m' := Z.pos mx * 2 ^ s).
  assert (Hcore : SFsqrt_core_binary prec emax (Z.pos mx) ex
                  = (Z.sqrt m', e',
                     if (m' - Z.sqrt m' * Z.sqrt m' =? 0) then loc_Exact
                     else loc_Inexact (if m' - Z.sqrt m' * Z.sqrt m' <=? Z.sqrt m'
                                       then Lt else Gt))).
  { unfold SFsqrt_core_binary. cbn [Zdigits2].
    rewrite (digits_53 mx Hmx), !Z.div2_div.
    replace ((53 + ex + 1) / 2) with (27 + h).
    2:{ unfold h. replace (53 + ex + 1) with (ex + 27 * 2) by lia.
        rewrite Z.div_add by lia. lia. }
    fold h.
    assert (Hmin : Z.min (fexp prec emax (27 + h)) h = e').
    { unfold fexp, SpecFloat.emin, prec, emax, e'. lia. }
    rewrite Hmin. fold s.
    assert (Hm' : match s with
                  | 0 => Z.pos mx
                  | Z.pos _ => Z.shiftl (Z.pos mx) s
                  | Z.neg _ => 0
                  end = m').
    { unfold m'. destruct Hs as [-> | ->]; rewrite Z.shiftl_mul_pow2 by lia; reflexivity. }
    rewrite Hm'.
    pose proof (Z.sqrtrem_spec m' ltac:(unfold m'; destruct Hs as [-> | ->]; lia)) as Hsr.
    pose proof (Z.sqrtrem_sqrt m') as Hsq.
    destruct (Z.sqrtrem m') as [q r]. cbn [fst] in Hsq. subst q.
    destruct Hsr as [Hsr _].
    replace (m' - Z.sqrt m' * Z.sqrt m') with r by lia. reflexivity. }
  set (q := Z.sqrt m') in *.
  assert (Hm'range : 2 ^ 104 <= m' < 2 ^ 106).
  { unfold m'. destruct Hs as [-> | ->].
    - change (2 ^ 104) with (2 ^ 52 * 2 ^ 52). change (2 ^ 106) with (2 ^ 54 * 2 ^ 52). nia.
    - change (2 ^ 104) with (2 ^ 51 * 2 ^ 53). change (2 ^ 106) with (2 ^ 53 * 2 ^ 53). nia. }
  pose proof (Z.sqrt_spec m' ltac:(lia)) as Hq. fold q in Hq. cbv zeta in Hq.
  assert (Hq0 : 0 <= q) by (apply Z.sqrt_nonneg).
  assert (Hqrange : 2 ^ 52 <= q < 2 ^ 53).
  { split.
    - assert (2 ^ 52 < Z.succ q); [|lia].
      apply Z.square_lt_simpl_nonneg; [lia|].
      change (2 ^ 52 * 2 ^ 52) with (2 ^ 104). lia.
    - apply Z.square_lt_simpl_nonneg; [lia|].
      change (2 ^ 53 * 2 ^ 53) with (2 ^ 106). lia. }
  destruct q as [|qp|qp] eqn:Eq; try lia.
  set (X := (IZR (Z.pos mx) * bpow ex)%R).
  pose proof (bpow_pos e') as Hpe'.
  assert (EX : X = (IZR m' * (bpow e' * bpow e'))%R).
  { unfold X, m'. rewrite mult_IZR, <- bpow_IZR by lia. rewrite <- !bpow_add.
    rewrite Rmult_assoc, <- bpow_add. f_equal. f_equal. unfold s. lia. }
  assert (HX0 : (0 <= X)%R).
  { unfold X. pose proof (bpow_pos ex). assert (0 < IZR (Z.pos mx))%R by (apply IZR_lt; lia).
    nra. }
  assert (Hbr : (IZR (Z.pos qp) * bpow e' <= sqrt X < (IZR (Z.pos qp) + 1) * bpow e')%R).
  { destruct Hq as [Hq1 Hq2]. apply IZR_le in Hq1. apply IZR_lt in Hq2.
    unfold Z.succ in Hq2. rewrite !mult_IZR in Hq1. rewrite !mult_IZR, !plus_IZR in Hq2.
    assert (Hqpos : (0 < IZR (Z.pos qp))%R) by (apply IZR_lt; lia).
    assert (Hcc : (0 < bpow e' * bpow e')%R) by (apply Rmult_lt_0_compat; exact Hpe').
    split.
    - rewrite <- (sqrt_square (IZR (Z.pos qp) * bpow e'))
        by (apply Rmult_le_pos; lra).
      apply sqrt_le_1_alt. rewrite EX.
      replace (IZR (Z.pos qp) * bpow e' * (IZR (Z.pos qp) * bpow e'))%R
        with (IZR (Z.pos qp) * IZR (Z.pos qp) * (bpow e' * bpow e'))%R by ring.
      apply Rmult_le_compat_r; [lra | exact Hq1].
    - rewrite <- (sqrt_square ((IZR (Z.pos qp) + 1) * bpow e'))
        by (apply Rmult_le_pos; lra).
      apply sqrt_lt_1_alt. split; [exact HX0|]. rewrite EX.
      replace ((IZR (Z.pos qp) + 1) * bpow e' * ((IZR (Z.pos qp) + 1) * bpow e'))%R
        with ((IZR (Z.pos qp) + 1) * (IZR (Z.pos qp) + 1) * (bpow e' * bpow e'))%R by ring.
      apply Rmult_lt_compat_r; [lra | exact Hq2]. }
  destruct (binary_round_aux_value false qp e'
              (if (m' - Z.pos qp * Z.pos qp =? 0) then loc_Exact
               else loc_Inexact (if m' - Z.pos qp * Z.pos qp <=? Z.pos qp then Lt else Gt))
              (sqrt X))
    as (m & e & Hrun & Hm & Hv).
  - rewrite (digits_53 qp Hqrange). lia.
  - exact Hbr.
  - assert (Hq52 : (bpow 52 <= IZR (Z.pos qp))%R).
    { rewrite bpow_IZR by lia. apply IZR_le. lia. }
    assert (Hq53 : (IZR (Z.pos qp) + 1 <= bpow 53)%R).
    { rewrite bpow_IZR by lia. rewrite <- plus_IZR. apply IZR_le. lia. }
    pose proof (bpow_le (-1021) (52 + e') ltac:(unfold e'; lia)) as H1.
    pose proof (bpow_le (53 + e') 1022 ltac:(unfold e'; lia)) as H2.
    rewrite bpow_add in H1, H2. destruct Hbr as [Hbr1 Hbr2]. split.
    + apply Rle_trans with (1 := H1). apply Rle_trans with (2 := Hbr1).
      apply Rmult_le_compat_r; lra.
    + apply Rle_trans with (2 := H2). apply Rlt_le.
      apply Rlt_le_trans with (1 := Hbr2). apply Rmult_le_compat_r; lra.
  - exists (IZR (Z.pos m) * bpow e)%R. split; [|exact Hv].
    exists m, e. split; [|split; [exact Hm | reflexivity]].
    rewrite FloatAxioms.sqrt_spec, Hx. unfold SF64sqrt, SFsqrt. rewrite Hcore. exact Hrun.
Qed.

Lemma iter_xO_value (p n : positive) :
  Z.pos (Pos.iter xO p n) = Z.pos p * 2 ^ Z.pos n.
Proof.
  induction n as [|n IH] using Pos.peano_ind.
  - cbn [Pos.iter]. rewrite Pos2Z.inj_xO. change (2 ^ 1) with 2. lia.
  - rewrite Pos.iter_succ, Pos2Z.inj_xO, IH, Pos2Z.inj_succ, Z.pow_succ_r by lia. ring.
Qed.

(** An integer below [2^53] is held exactly, with a mantissa of 53 digits. *)
Lemma of_Z_repr (z : Z) :
  0 < z < 2 ^ 53 ->
  exists m e,
    Prim2SF (Binary64.of_Z z) = S754_finite false m e /\
    2 ^ 52 <= Z.pos m < 2 ^ 53 /\ -52 <= e <= 0 /\ Z.pos m = z * 2 ^ (- e).
Proof.
  intros Hz. destruct z as [|p|p]; try lia.
  cbn [Binary64.of_Z]. rewrite of_uint63_spec, Uint63.of_Z_spec.
  rewrite Z.mod_small by (change wB with (2 ^ 63); split; [lia|];
                          apply Z.lt_trans with (2 ^ 53); [lia | reflexivity]).
  cbn [binary_normalize]. unfold binary_round.
  pose proof (digits2_pos_bounds p) as Hd.
  set (d := Z.pos (digits2_pos p)) in *.
  assert (Hd1 : 1 <= d) by (unfold d; lia).
  assert (Hd53 : d <= 53).
  { assert (d - 1 < 53) by (apply (Z.pow_lt_mono_r_iff 2); lia). lia. }
  assert (Hfexp : fexp prec emax (d + 0) = d - 53).
  { unfold fexp, SpecFloat.emin, prec, emax. lia. }
  rewrite Hfexp. unfold shl_align. replace (d - 53 - 0) with (d - 53) by lia.
  destruct (d - 53) as [|dd|dd] eqn:Edd; try lia.
  - (* 53 digits already *)
    assert (Hp : 2 ^ 52 <= Z.pos p < 2 ^ 53).
    { replace (d - 1) with 52 in Hd by lia. lia. }
    destruct (binary_round_aux_spec false p 0 loc_Exact) as (m & e & Hrun & _ & _ & Hex).
    + fold d. lia.
    + fold d. lia.
    + fold d. lia.
    + destruct (Hex eq_refl) as [-> ->]; [fold d; lia|].
      exists p, 0. split; [exact Hrun|]. split; [exact Hp|]. split; [lia|].
      change (2 ^ (- 0)) with 1. lia.
  - (* shifted left to 53 digits *)
    set (mz := Pos.iter xO p dd).
    assert (Hmz : Z.pos mz = Z.pos p * 2 ^ Z.pos dd) by apply iter_xO_value.
    assert (Hdd : Z.pos dd = 53 - d) by lia.
    assert (Hmzr : 2 ^ 52 <= Z.pos mz < 2 ^ 53).
    { rewrite Hmz, Hdd. split.
      - replace 52 with ((d - 1) + (53 - d)) by lia. rewrite Z.pow_add_r by lia.
        apply Z.mul_le_mono_nonneg_r; [apply Z.pow_nonneg; lia | lia].
      - replace 53 with (d + (53 - d)) at 2 by lia. rewrite Z.pow_add_r by lia.
        apply Z.mul_lt_mono_pos_r; [apply Z.pow_pos_nonneg; lia | lia]. }
    pose proof (digits_53 mz Hmzr) as Hdz.
    destruct (binary_round_aux_spec false mz (Z.neg dd) loc_Exact) as (m & e & Hrun & _ & _ & Hex).
    + lia.
    + lia.
    + lia.
    + destruct (Hex eq_refl) as [-> ->]; [lia|].
      exists mz, (Z.neg dd). split; [exact Hrun|]. split; [exact Hmzr|]. split; [lia|].
      rewrite Hmz. reflexivity.
Qed.

Lemma of_Z_pos_normal (z : Z) :
  0 < z < 2 ^ 53 -> pos_normal (Binary64.of_Z z) (IZR z).
Proof.
  intros Hz. destruct (of_Z_repr z Hz) as (m & e & Hx & Hm & He & Hv).
  exists m, e. split; [exact Hx|]. split; [exact Hm|].
  rewrite Hv, mult_IZR, <- bpow_IZR by lia.
  rewrite Rmult_assoc, (Rmult_comm (bpow (- e))), bpow_opp. ring.
Qed.

Lemma to_Z_repr (x : float) (m : positive) (e z : Z) :
  Prim2SF x = S754_finite false m e -> e <= 0 -> Z.pos m = z * 2 ^ (- e) ->
  Binary64.to_Z x = Some z.
Proof.
  intros Hx He Hv. unfold Binary64.to_Z. rewrite Hx.
  destruct (0 <=? e) eqn:E.
  - apply Z.leb_le in E. assert (e = 0) by lia. subst e.
    cbn [option_map]. rewrite Z.shiftl_0_r. f_equal.
    change (2 ^ (- 0)) with 1 in Hv. lia.
  - assert (Hp : 0 < 2 ^ (- e)) by (apply Z.pow_pos_nonneg; lia).
    rewrite Z.shiftr_div_pow2 by lia. rewrite Hv, Z.div_mul by lia.
    rewrite Z.shiftl_mul_pow2 by lia. rewrite Z.eqb_refl. reflexivity.
Qed.

(** [Math.floor] of a positive normal number. *)
Lemma floor_pos_normal (x : float) (X : R) :
  pos_normal x X ->
  exists n, Binary64.to_Z (Binary64.floor x) = Some n /\ 0 <= n /\
            (IZR n <= X < IZR n + 1)%R.
Proof.
  intros (m & e & Hx & Hm & ->). unfold Binary64.floor. rewrite Hx.
  destruct (0 <=? e) eqn:E.
  - apply Z.leb_le in E. exists (Z.pos m * 2 ^ e). split; [|split].
    + unfold Binary64.to_Z. rewrite Hx. apply Z.leb_le in E. rewrite E.
      apply Z.leb_le in E. cbn [option_map]. rewrite Z.shiftl_mul_pow2 by lia. reflexivity.
    + assert (0 < 2 ^ e) by (apply Z.pow_pos_nonneg; lia). lia.
    + rewrite mult_IZR, <- bpow_IZR by lia. lra.
  - apply Z.leb_gt in E.
    assert (Hp : 0 < 2 ^ (- e)) by (apply Z.pow_pos_nonneg; lia).
    rewrite Z.shiftr_div_pow2 by lia.
    set (q := Z.pos m / 2 ^ (- e)).
    pose proof (Z.div_mod (Z.pos m) (2 ^ (- e)) ltac:(lia)) as Hdm.
    pose proof (Z.mod_pos_bound (Z.pos m) (2 ^ (- e)) Hp) as Hmod.
    fold q in Hdm.
    assert (Hq0 : 0 <= q) by (apply Z.div_pos; lia).
    assert (Hq53 : q < 2 ^ 53).
    { apply Z.le_lt_trans with (Z.pos m); [|lia]. unfold q.
      apply Z.div_le_upper_bound; [lia|]. nia. }
    assert (Hb1 : q * 2 ^ (- e) <= Z.pos m) by lia.
    assert (Hb2 : Z.pos m + 1 <= (q + 1) * 2 ^ (- e)) by lia.
    apply IZR_le in Hb1, Hb2.
    rewrite mult_IZR, <- bpow_IZR in Hb1 by lia.
    rewrite plus_IZR, mult_IZR, plus_IZR, <- bpow_IZR in Hb2 by lia.
    pose proof (bpow_pos e) as Hpe. pose proof (bpow_opp e) as Ho.
    assert (Hval : (IZR q <= IZR (Z.pos m) * bpow e < IZR q + 1)%R).
    { split.
      - apply (Rmult_le_compat_r (bpow e)) in Hb1; [|lra].
        rewrite Rmult_assoc, (Rmult_comm (bpow (- e))), Ho in Hb1. lra.
      - apply (Rmult_le_compat_r (bpow e)) in Hb2; [|lra].
        rewrite (Rmult_assoc (IZR q + 1)), (Rmult_comm (bpow (- e))), Ho in Hb2. lra. }
    exists q. split; [|split; [exact Hq0 | exact Hval]].
    assert (Hfl : (if Z.shiftl q (- e) =? Z.pos m then Binary64.of_Z q else Binary64.of_Z q)
                  = Binary64.of_Z q) by (destruct (_ =? _); reflexivity).
    destruct (Z.eq_dec q 0) as [Hq|Hq].
    + rewrite Hq. reflexivity.
    + destruct (of_Z_repr q ltac:(lia)) as (mq & eq & Hxq & _ & Heq & Hvq).
      apply (to_Z_repr _ mq eq q Hxq); [lia | exact Hvq].
Qed.

(** ** Operations whose result is an integer below [2^53] are exact *)

Lemma shr_1_exact (q : Z) :
  0 <= q ->
  shr_1 {| shr_m := 2 * q; shr_r := false; shr_s := false |}
    = {| shr_m := q; shr_r := false; shr_s := false |}.
Proof. intros Hq. destruct q as [|p|p]; try lia; reflexivity. Qed.

Lemma shr_iter_exact (p : positive) (q : Z) :
  0 <= q ->
  SpecFloat.iter_pos shr_1 p {| shr_m := q * 2 ^ Z.pos p; shr_r := false; shr_s := false |}
    = {| shr_m := q; shr_r := false; shr_s := false |}.
Proof.
  revert q. induction p as [p IH|p IH|]; intros q Hq; cbn [SpecFloat.iter_pos].
  - assert (Hp : 0 < 2 ^ Z.pos p) by (apply Z.pow_pos_nonneg; lia).
    assert (E : q * 2 ^ Z.pos p~1 = 2 * (q * 2 ^ Z.pos p * 2 ^ Z.pos p)).
    { assert (E0 : Z.pos p~1 = 1 + Z.pos p + Z.pos p) by lia.
      rewrite E0, !Z.pow_add_r by lia. change (2 ^ 1) with 2. ring. }
    rewrite E, shr_1_exact by nia. rewrite IH by nia. apply IH. exact Hq.
  - assert (Hp : 0 < 2 ^ Z.pos p) by (apply Z.pow_pos_nonneg; lia).
    assert (E : q * 2 ^ Z.pos p~0 = q * 2 ^ Z.pos p * 2 ^ Z.pos p).
    { assert (E0 : Z.pos p~0 = Z.pos p + Z.pos p) by lia.
      rewrite E0, !Z.pow_add_r by lia. ring. }
    rewrite E, IH by nia. apply IH. exact Hq.
  - change (2 ^ 1) with 2. rewrite Z.mul_comm. apply shr_1_exact. exact Hq.
Qed.

Lemma digits2_unique (p : positive) (n : Z) :
  2 ^ (n - 1) <= Z.pos p < 2 ^ n -> Z.pos (digits2_pos p) = n.
Proof.
  intros Hp. pose proof (digits2_pos_bounds p) as Hd.
  assert (Hn : 0 <= n).
  { destruct (Z.lt_ge_cases n 0) as [H|H]; [|exact H].
    rewrite (Z.pow_neg_r 2 n) in Hp by exact H. lia. }
  assert (Z.pos (digits2_pos p) - 1 < n) by (apply (Z.pow_lt_mono_r_iff 2); lia).
  assert (n - 1 < Z.pos (digits2_pos p)) by (apply (Z.pow_lt_mono_r_iff 2); lia).
  lia.
Qed.

(** A mantissa [t * 2^k] with [t] of 53 digits is rounded to [t], exactly. *)
Lemma binary_round_aux_exact (sx : bool) (t : positive) (k ex : Z) :
  2 ^ 52 <= Z.pos t < 2 ^ 53 -> 0 <= k -> -1074 <= ex + k <= 971 ->
  binary_round_aux prec emax sx (Z.pos t * 2 ^ k) ex loc_Exact
    = S754_finite sx t (ex + k).
Proof.
  intros Ht Hk He.
  assert (Hpk : 0 < 2 ^ k) by (apply Z.pow_pos_nonneg; lia).
  destruct (Z.pos t * 2 ^ k) as [|mx|mx] eqn:Emx; try lia.
  assert (Hd : Z.pos (digits2_pos mx) = 53 + k).
  { apply digits2_unique. rewrite <- Emx.
    replace (53 + k - 1) with (52 + k) by lia. rewrite !Z.pow_add_r by lia. nia. }
  assert (Hfexp : fexp prec emax (53 + k + ex) = ex + k).
  { unfold fexp, SpecFloat.emin, prec, emax. lia. }
  unfold binary_round_aux.
  assert (Hs1 : shr_fexp prec emax (Z.pos mx) ex loc_Exact
                = ({| shr_m := Z.pos t; shr_r := false; shr_s := false |}, ex + k)).
  { unfold shr_fexp. cbn [Zdigits2]. rewrite Hd, Hfexp.
    replace (ex + k - ex) with k by lia. unfold shr. cbn [shr_record_of_loc].
    destruct k as [|pk|pk]; [| |lia].
    - rewrite Z.pow_0_r, Z.mul_1_r in Emx. rewrite <- Emx. f_equal. lia.
    - rewrite <- Emx. rewrite shr_iter_exact by lia. reflexivity. }
  rewrite Hs1. cbn [shr_m loc_of_shr_record round_nearest_even].
  unfold shr_fexp. cbn [Zdigits2]. rewrite (digits_53 t Ht).
  assert (Hf2 : fexp prec emax (53 + (ex + k)) = ex + k).
  { unfold fexp, SpecFloat.emin, prec, emax. lia. }
  rewrite Hf2. replace (ex + k - (ex + k)) with 0 by lia.
  cbn [shr shr_record_of_loc shr_m].
  assert (Hle : (ex + k <=? emax - prec) = true).
  { apply Z.leb_le. unfold emax, prec. lia. }
  rewrite Hle. reflexivity.
Qed.

Lemma shl_align_value (mx : positive) (ex ez : Z) :
  ez <= ex ->
  Z.pos (fst (shl_align mx ex ez)) = Z.pos mx * 2 ^ (ex - ez) /\
  snd (shl_align mx ex ez) = ez.
Proof.
  intros Hle. unfold shl_align.
  destruct (ez - ex) as [|d|d] eqn:Ed; try lia.
  - assert (ex = ez) by lia. subst. cbn [fst snd]. rewrite Z.sub_diag. split; lia.
  - cbn [fst snd]. rewrite iter_xO_value. split; [|reflexivity].
    replace (ex - ez) with (Z.pos d) by lia. reflexivity.
Qed.

(** Rounding [a * 2^(-e)] with exponent [e], for an integer [a] below
    [2^53], gives the number of 53 digits that holds [a]. *)
Lemma binary_round_exact (sx : bool) (m : positive) (e a : Z) :
  -104 <= e <= 0 -> Z.pos m = a * 2 ^ (- e) -> 0 < a < 2 ^ 53 ->
  exists t er,
    binary_round prec emax sx m e = S754_finite sx t er /\
    2 ^ 52 <= Z.pos t < 2 ^ 53 /\ -52 <= er <= 0 /\ Z.pos t = a * 2 ^ (- er).
Proof.
  intros He Hm Ha.
  assert (Hpe : 0 < 2 ^ (- e)) by (apply Z.pow_pos_nonneg; lia).
  pose proof (digits2_pos_bounds m) as Hd.
  set (d := Z.pos (digits2_pos m)) in *.
  assert (Hd1 : 1 <= d) by (unfold d; lia).
  (* the number of digits of [a] *)
  assert (Hde : - e < d <= 53 - e).
  { split.
    - apply (Z.pow_lt_mono_r_iff 2); [lia | lia|].
      apply Z.le_lt_trans with (Z.pos m); [|lia]. rewrite Hm. nia.
    - assert (d - 1 < 53 - e); [|lia].
      apply (Z.pow_lt_mono_r_iff 2); [lia | lia|].
      apply Z.le_lt_trans with (Z.pos m); [lia|].
      replace (53 - e) with (53 + - e) by lia. rewrite Hm, Z.pow_add_r by lia.
      apply Z.mul_lt_mono_pos_r; lia. }
  set (er := d + e - 53).
  assert (Her : -52 <= er <= 0) by (unfold er; lia).
  assert (Hfexp : fexp prec emax (d + e) = er).
  { unfold fexp, SpecFloat.emin, prec, emax, er. lia. }
  assert (Hper : 0 < 2 ^ (- er)) by (apply Z.pow_pos_nonneg; lia).
  assert (Hrange : 2 ^ 52 <= a * 2 ^ (- er) < 2 ^ 53).
  { destruct (Z.le_gt_cases e er) as [Hc|Hc].
    - (* er - e >= 0: a * 2^(-er) * 2^(er - e) = m *)
      assert (E : Z.pos m = a * 2 ^ (- er) * 2 ^ (er - e)).
      { rewrite Hm, <- Z.mul_assoc, <- Z.pow_add_r by lia. do 2 f_equal. lia. }
      assert (Hp2 : 0 < 2 ^ (er - e)) by (apply Z.pow_pos_nonneg; lia).
      assert (E1 : 2 ^ (d - 1) = 2 ^ 52 * 2 ^ (er - e)).
      { rewrite <- Z.pow_add_r by lia. f_equal. unfold er. lia. }
      assert (E2 : 2 ^ d = 2 ^ 53 * 2 ^ (er - e)).
      { rewrite <- Z.pow_add_r by lia. f_equal. unfold er. lia. }
      rewrite E, E1, E2 in Hd. split; nia.
    - (* e > er: a * 2^(-er) = m * 2^(e - er) *)
      assert (E : a * 2 ^ (- er) = Z.pos m * 2 ^ (e - er)).
      { rewrite Hm, <- Z.mul_assoc, <- Z.pow_add_r by lia. do 2 f_equal. lia. }
      assert (Hp2 : 0 < 2 ^ (e - er)) by (apply Z.pow_pos_nonneg; lia).
      assert (E1 : 2 ^ 52 = 2 ^ (d - 1) * 2 ^ (e - er)).
      { rewrite <- Z.pow_add_r by lia. f_equal. unfold er. lia. }
      assert (E2 : 2 ^ 53 = 2 ^ d * 2 ^ (e - er)).
      { rewrite <- Z.pow_add_r by lia. f_equal. unfold er. lia. }
      rewrite E, E1, E2. split; nia. }
  destruct (a * 2 ^ (- er)) as [|t|t] eqn:Et; try lia.
  exists t, er. split; [|split; [exact Hrange | split; [exact Her | symmetry; exact Et]]].
  unfold binary_round. fold d. rewrite Hfexp.
  destruct (shl_align m e er) as [mz ez] eqn:Esh.
  destruct (Z.le_gt_cases e er) as [Hc|Hc].
  - (* no shift to the left; [er - e] digits are cut *)
    assert (Hsh : (mz, ez) = (m, e)).
    { rewrite <- Esh. unfold shl_align. destruct (er - e) eqn:E; try lia; reflexivity. }
    injection Hsh as -> ->.
    assert (E : Z.pos m = Z.pos t * 2 ^ (er - e)).
    { rewrite <- Et, Hm, <- Z.mul_assoc, <- Z.pow_add_r by lia. do 2 f_equal. lia. }
    rewrite E.
    rewrite (binary_round_aux_exact sx t (er - e) e Hrange) by lia.
    f_equal. lia.
  - (* shifted to the left by [e - er] *)
    pose proof (shl_align_value m e er ltac:(lia)) as [Hv He'].
    rewrite Esh in Hv, He'. cbn [fst snd] in Hv, He'. subst ez.
    assert (E : Z.pos mz = Z.pos t * 2 ^ 0).
    { rewrite Hv, Z.pow_0_r, Z.mul_1_r, <- Et, Hm, <- Z.mul_assoc, <- Z.pow_add_r by lia.
      do 2 f_equal. lia. }
    rewrite E.
    rewrite (binary_round_aux_exact sx t 0 er Hrange) by lia.
    f_equal. lia.
Qed.

Lemma holds_integer_of_Z (n : Z) :
  - 2 ^ 53 < n < 2 ^ 53 -> holds_integer (Prim2SF (Binary64.of_Z n)) n.
Proof.
  intros Hn. destruct n as [|p|p].
  - cbn. split; reflexivity.
  - destruct (of_Z_repr (Z.pos p) ltac:(lia)) as (m & e & -> & Hm & He & Hv).
    cbn [holds_integer cond_Zopp]. auto.
  - change (Binary64.of_Z (Z.neg p)) with (PrimFloat.opp (Binary64.of_Z (Z.pos p))).
    rewrite FloatAxioms.opp_spec.
    destruct (of_Z_repr (Z.pos p) ltac:(lia)) as (m & e & -> & Hm & He & Hv).
    cbn [SFopp negb holds_integer cond_Zopp]. split; [exact Hm|]. split; [exact He|].
    rewrite Hv. change (Z.neg p) with (- Z.pos p). ring.
Qed.

Lemma pow2_window (a i j : Z) :
  0 < a -> 0 <= i -> 0 <= j ->
  2 ^ 52 <= a * 2 ^ i < 2 ^ 53 -> 2 ^ 52 <= a * 2 ^ j < 2 ^ 53 -> i = j.
Proof.
  intros Ha Hi Hj H1 H2.
  destruct (Z.lt_trichotomy i j) as [Hlt|[Heq|Hgt]]; [|exact Heq|]; exfalso.
  - assert (E : 2 ^ j = 2 ^ i * 2 ^ (j - i)).
    { rewrite <- Z.pow_add_r by lia. f_equal. lia. }
    assert (Hp : 2 ^ 1 <= 2 ^ (j - i)) by (apply Z.pow_le_mono_r; lia).
    change (2 ^ 1) with 2 in Hp. rewrite E in H2. nia.
  - assert (E : 2 ^ i = 2 ^ j * 2 ^ (i - j)).
    { rewrite <- Z.pow_add_r by lia. f_equal. lia. }
    assert (Hp : 2 ^ 1 <= 2 ^ (i - j)) by (apply Z.pow_le_mono_r; lia).
    change (2 ^ 1) with 2 in Hp. rewrite E in H1. nia.
Qed.

Lemma holds_integer_unique (f g : spec_float) (n : Z) : holds_integer f n -> holds_integer g n -> f = g.
Proof.
  destruct f as [sf| | |sf mf ef], g as [sg| | |sg mg eg]; cbn [holds_integer]; try tauto.
  - intros [-> _] [-> _]. reflexivity.
  - intros [_ ->] (_ & He & Hv). exfalso. destruct sg; cbn in Hv; lia.
  - intros (_ & He & Hv) [_ ->]. exfalso. destruct sf; cbn in Hv; lia.
  - intros (Hmf & Hef & Hvf) (Hmg & Heg & Hvg).
    assert (Hpf : 0 < 2 ^ (- ef)) by (apply Z.pow_pos_nonneg; lia).
    assert (Hpg : 0 < 2 ^ (- eg)) by (apply Z.pow_pos_nonneg; lia).
    assert (Hs : sf = sg).
    { destruct sf, sg; cbn [cond_Zopp] in *; try reflexivity; exfalso; nia. }
    subst sg.
    assert (He : - ef = - eg).
    { apply (pow2_window (Z.abs n)); try lia.
      - destruct sf; cbn [cond_Zopp] in *; nia.
      - destruct sf; cbn [cond_Zopp] in *; nia.
      - destruct sf; cbn [cond_Zopp] in *; nia. }
    assert (ef = eg) by lia. subst eg.
    assert (Z.pos mf = Z.pos mg) by (destruct sf; cbn [cond_Zopp] in *; lia).
    congruence.
Qed.

Lemma holds_integer_bound (f : spec_float) (n : Z) : holds_integer f n -> - 2 ^ 53 < n < 2 ^ 53.
Proof.
  destruct f as [s| | |s m e]; cbn [holds_integer]; try tauto.
  - intros [_ ->]. lia.
  - intros (Hm & He & Hv).
    assert (Hp : 0 < 2 ^ (- e)) by (apply Z.pow_pos_nonneg; lia).
    destruct s; cbn [cond_Zopp] in Hv; nia.
Qed.

Lemma holds_integer_eq (x : float) (n : Z) : holds_integer (Prim2SF x) n -> x = Binary64.of_Z n.
Proof.
  intros H. apply Prim2SF_inj. apply (holds_integer_unique _ _ n H).
  apply holds_integer_of_Z. exact (holds_integer_bound _ _ H).
Qed.

Lemma binary_normalize_exact (M e n : Z) :
  -104 <= e <= 0 -> M = n * 2 ^ (- e) -> - 2 ^ 53 < n < 2 ^ 53 ->
  holds_integer (binary_normalize prec emax M e false) n.
Proof.
  intros He HM Hn.
  assert (Hp : 0 < 2 ^ (- e)) by (apply Z.pow_pos_nonneg; lia).
  destruct M as [|m|m]; cbn [binary_normalize].
  - cbn [holds_integer]. split; [reflexivity | nia].
  - destruct (binary_round_exact false m e n He HM) as (t & er & -> & Ht & Her & Hv);
      [nia|]. cbn [holds_integer cond_Zopp]. auto.
  - destruct (binary_round_exact true m e (- n) He) as (t & er & -> & Ht & Her & Hv);
      [lia | nia |]. cbn [holds_integer cond_Zopp]. split; [exact Ht|]. split; [exact Her|].
    rewrite Hv. ring.
Qed.

Lemma aligned_value (s : bool) (m : positive) (e ez n : Z) :
  ez <= e -> e <= 0 -> cond_Zopp s (Z.pos m) = n * 2 ^ (- e) ->
  cond_Zopp s (Z.pos (fst (shl_align m e ez))) = n * 2 ^ (- ez).
Proof.
  intros H1 H2 Hv. destruct (shl_align_value m e ez H1) as [-> _].
  replace (- ez) with (- e + (e - ez)) by lia. rewrite Z.pow_add_r by lia.
  destruct s; cbn [cond_Zopp] in *; rewrite Z.mul_assoc, <- Hv; ring.
Qed.

(** The difference of two integers, itself below [2^53], is exact. *)
Lemma sub_exact (a b : Z) :
  - 2 ^ 53 < a < 2 ^ 53 -> - 2 ^ 53 < b < 2 ^ 53 -> - 2 ^ 53 < a - b < 2 ^ 53 ->
  (Binary64.of_Z a - Binary64.of_Z b)%float = Binary64.of_Z (a - b).
Proof.
  intros Ha Hb Hab. apply holds_integer_eq. rewrite FloatAxioms.sub_spec.
  pose proof (holds_integer_of_Z a Ha) as Hxa. pose proof (holds_integer_of_Z b Hb) as Hxb.
  destruct (Prim2SF (Binary64.of_Z a)) as [sa| | |sa ma ea],
           (Prim2SF (Binary64.of_Z b)) as [sb| | |sb mb eb];
    cbn [holds_integer] in Hxa, Hxb; try tauto.
  - destruct Hxa as [-> ->], Hxb as [-> ->]. cbn. split; reflexivity.
  - destruct Hxa as [-> ->], Hxb as (Hm & He & Hv).
    cbn [SF64sub SFsub holds_integer]. split; [exact Hm|]. split; [exact He|].
    destruct sb; cbn [negb cond_Zopp] in *; lia.
  - destruct Hxb as [-> ->], Hxa as (Hm & He & Hv).
    cbn [SF64sub SFsub holds_integer]. split; [exact Hm|]. split; [exact He|].
    rewrite Z.sub_0_r. exact Hv.
  - destruct Hxa as (Hma & Hea & Hva), Hxb as (Hmb & Heb & Hvb).
    cbn [SF64sub SFsub]. apply binary_normalize_exact; [lia | | exact Hab].
    rewrite (aligned_value sa ma ea _ a) by first [lia | assumption].
    rewrite (aligned_value sb mb eb _ b) by first [lia | assumption].
    ring.
Qed.

(** The sum of two integers, itself below [2^53], is exact. *)
Lemma add_exact (a b : Z) :
  - 2 ^ 53 < a < 2 ^ 53 -> - 2 ^ 53 < b < 2 ^ 53 -> - 2 ^ 53 < a + b < 2 ^ 53 ->
  (Binary64.of_Z a + Binary64.of_Z b)%float = Binary64.of_Z (a + b).
Proof.
  intros Ha Hb Hab. apply holds_integer_eq. rewrite FloatAxioms.add_spec.
  pose proof (holds_integer_of_Z a Ha) as Hxa. pose proof (holds_integer_of_Z b Hb) as Hxb.
  destruct (Prim2SF (Binary64.of_Z a)) as [sa| | |sa ma ea],
           (Prim2SF (Binary64.of_Z b)) as [sb| | |sb mb eb];
    cbn [holds_integer] in Hxa, Hxb; try tauto.
  - destruct Hxa as [-> ->], Hxb as [-> ->]. cbn. split; reflexivity.
  - destruct Hxa as [-> ->], Hxb as (Hm & He & Hv).
    cbn [SF64add SFadd holds_integer]. auto.
  - destruct Hxb as [-> ->], Hxa as (Hm & He & Hv).
    cbn [SF64add SFadd holds_integer]. split; [exact Hm|]. split; [exact He|].
    rewrite Z.add_0_r. exact Hv.
  - destruct Hxa as (Hma & Hea & Hva), Hxb as (Hmb & Heb & Hvb).
    cbn [SF64add SFadd]. apply binary_normalize_exact; [lia | | exact Hab].
    rewrite (aligned_value sa ma ea _ a) by first [lia | assumption].
    rewrite (aligned_value sb mb eb _ b) by first [lia | assumption].
    ring.
Qed.

(** The square of an integer, itself below [2^53], is exact. *)
Lemma square_exact (a : Z) :
  a * a < 2 ^ 53 ->
  (Binary64.of_Z a * Binary64.of_Z a)%float = Binary64.of_Z (a * a).
Proof.
  intros Haa.
  assert (Ha : - 2 ^ 53 < a < 2 ^ 53) by nia.
  apply holds_integer_eq. rewrite FloatAxioms.mul_spec.
  pose proof (holds_integer_of_Z a Ha) as Hxa.
  destruct (Prim2SF (Binary64.of_Z a)) as [sa| | |sa ma ea];
    cbn [holds_integer] in Hxa; try tauto.
  - destruct Hxa as [-> ->]. cbn. split; reflexivity.
  - destruct Hxa as (Hm & He & Hv).
    cbn [SF64mul SFmul]. rewrite xorb_nilpotent.
    assert (Hp : 0 < 2 ^ (- ea)) by (apply Z.pow_pos_nonneg; lia).
    assert (Hsq : Z.pos (ma * ma) = (a * a) * 2 ^ (- (ea + ea))).
    { rewrite Pos2Z.inj_mul.
      replace (- (ea + ea)) with (- ea + - ea) by lia. rewrite Z.pow_add_r by lia.
      destruct sa; cbn [cond_Zopp] in Hv; nia. }
    assert (Ha0 : 0 < a * a) by nia.
    (* the product has 105 or 106 digits *)
    set (P := Z.pos (ma * ma)) in *.
    assert (HP : 2 ^ 104 <= P < 2 ^ 106).
    { unfold P. rewrite Pos2Z.inj_mul.
      change (2 ^ 104) with (2 ^ 52 * 2 ^ 52). change (2 ^ 106) with (2 ^ 53 * 2 ^ 53).
      nia. }
    destruct (Z.lt_ge_cases P (2 ^ 105)) as [Hlo|Hhi].
    + (* 105 digits: 52 are cut *)
      set (er := ea + ea + 52).
      assert (Her : er <= 0).
      { destruct (Z.lt_ge_cases 0 er) as [Hc|Hc]; [|exact Hc]. exfalso.
        assert (Hle : 2 ^ (- (ea + ea)) <= 2 ^ 51) by (apply Z.pow_le_mono_r; unfold er in Hc; lia).
        assert (P < 2 ^ 53 * 2 ^ 51) by nia.
        change (2 ^ 53 * 2 ^ 51) with (2 ^ 104) in *. lia. }
      assert (E : P = (a * a * 2 ^ (- er)) * 2 ^ 52).
      { rewrite Hsq. replace (- (ea + ea)) with (- er + 52) by (unfold er; lia).
        rewrite Z.pow_add_r by lia. ring. }
      assert (Ht : 2 ^ 52 <= a * a * 2 ^ (- er) < 2 ^ 53).
      { change (2 ^ 104) with (2 ^ 52 * 2 ^ 52) in HP.
        change (2 ^ 105) with (2 ^ 53 * 2 ^ 52) in Hlo. lia. }
      destruct (a * a * 2 ^ (- er)) as [|t|t] eqn:Et; try lia.
      rewrite E, (binary_round_aux_exact false t 52 (ea + ea) Ht) by (unfold er in *; lia).
      cbn [holds_integer cond_Zopp]. split; [exact Ht|].
      assert (Hlow : -52 <= ea + ea + 52).
      { destruct (Z.lt_ge_cases (ea + ea + 52) (-52)) as [Hc|Hc]; [|exact Hc]. exfalso.
        assert (Hle : 2 ^ 53 <= 2 ^ (- er)) by (apply Z.pow_le_mono_r; unfold er; lia).
        nia. }
      split; [fold er; lia|]. fold er. symmetry. exact Et.
    + (* 106 digits: 53 are cut *)
      set (er := ea + ea + 53).
      assert (Her : er <= 0).
      { destruct (Z.lt_ge_cases 0 er) as [Hc|Hc]; [|exact Hc]. exfalso.
        assert (Hle : 2 ^ (- (ea + ea)) <= 2 ^ 52) by (apply Z.pow_le_mono_r; unfold er in Hc; lia).
        assert (P < 2 ^ 53 * 2 ^ 52) by nia.
        change (2 ^ 53 * 2 ^ 52) with (2 ^ 105) in *. lia. }
      assert (E : P = (a * a * 2 ^ (- er)) * 2 ^ 53).
      { rewrite Hsq. replace (- (ea + ea)) with (- er + 53) by (unfold er; lia).
        rewrite Z.pow_add_r by lia. ring. }
      assert (Ht : 2 ^ 52 <= a * a * 2 ^ (- er) < 2 ^ 53).
      { change (2 ^ 105) with (2 ^ 52 * 2 ^ 53) in Hhi.
        change (2 ^ 106) with (2 ^ 53 * 2 ^ 53) in HP. lia. }
      destruct (a * a * 2 ^ (- er)) as [|t|t] eqn:Et; try lia.
      rewrite E, (binary_round_aux_exact false t 53 (ea + ea) Ht) by (unfold er in *; lia).
      cbn [holds_integer cond_Zopp]. split; [exact Ht|].
      assert (Hlow : -52 <= ea + ea + 53).
      { destruct (Z.lt_ge_cases (ea + ea + 53) (-52)) as [Hc|Hc]; [|exact Hc]. exfalso.
        assert (Hle : 2 ^ 53 <= 2 ^ (- er)) by (apply Z.pow_le_mono_r; unfold er; lia).
        nia. }
      split; [fold er; lia|]. fold er. symmetry. exact Et.
Qed.

(** ** nearestNeighbor *)

Lemma dist_loop_finite (p c : list Q) (acc : Q) :
  length c = length p ->
  exists q, dist_loop (map Num p) (map Num c) (Num acc) = Num q /\
            (q == acc + squared_distance p c)%Q.
Proof.
  revert c acc. induction p as [|x p IH]; intros c acc Hlen.
  - destruct c; [|discriminate]. exists acc. split; [reflexivity|]. simpl. ring.
  - destruct c as [|y c]; [discriminate|]. simpl in Hlen.
    injection Hlen as Hlen. simpl.
    destruct (IH c (acc + (x + - y) * (x + - y))%Q Hlen) as (q & Hq & Heq).
    exists q. split; [exact Hq|]. rewrite Heq. ring.
Qed.

Lemma neighbor_dist_finite (p c : list Q) :
  length c = length p ->
  exists q, neighbor_dist (map Num p) (Some (map Num c)) = Return (Num q) /\
            (q == squared_distance p c)%Q.
Proof.
  intros Hlen. destruct (dist_loop_finite p c 0 Hlen) as (q & Hq & Heq).
  exists q. split.
  - unfold neighbor_dist. change (JsNum.of_Z 0) with (Num 0). rewrite Hq. reflexivity.
  - rewrite Heq. ring.
Qed.

(** The scan after a non-empty prefix [seen]: [b] is the distance of the
    candidate at [bi], no candidate seen is nearer, and every earlier one is
    strictly farther. *)
Lemma nearest_loop_scan (point : list Q) (rest seen : list (list Q))
    (bi : nat) (b : Q) (cb : list Q) :
  Forall (fun c => length c = length point) rest ->
  seen !! bi = Some cb ->
  (b == squared_distance point cb)%Q ->
  (forall j cj, seen !! j = Some cj -> (b <= squared_distance point cj)%Q) ->
  (forall j cj, (j < bi)%nat -> seen !! j = Some cj ->
                (b < squared_distance point cj)%Q) ->
  exists r cr,
    nearest_loop (map Num point) (map array_of rest) (Z.of_nat (length seen))
      (Num b) (Z.of_nat bi) = Return (Z.of_nat r) /\
    (seen ++ rest) !! r = Some cr /\
    (forall j cj, (seen ++ rest) !! j = Some cj ->
                  (squared_distance point cr <= squared_distance point cj)%Q) /\
    (forall j cj, (j < r)%nat -> (seen ++ rest) !! j = Some cj ->
                  (squared_distance point cr < squared_distance point cj)%Q).
Proof.
  revert seen bi b cb.
  induction rest as [|c rest IH]; intros seen bi b cb Hlen Hbi Hb Hmin Hfirst.
  - exists bi, cb. rewrite app_nil_r. simpl. repeat split; [exact Hbi| |].
    + intros j cj Hj. rewrite <- Hb. eauto.
    + intros j cj Hlt Hj. rewrite <- Hb. eauto.
  - inversion Hlen as [|? ? Hc Hrest]; subst.
    destruct (neighbor_dist_finite point c Hc) as (q & Hq & Hqd).
    cbn [map nearest_loop]. unfold array_of at 1. rewrite Hq. cbn [obind].
    assert (Hnext : (Z.of_nat (length seen) + 1 = Z.of_nat (length (seen ++ [c])))%Z).
    { rewrite length_app. simpl. lia. }
    rewrite Hnext.
    assert (Happ : (seen ++ [c]) ++ rest = seen ++ c :: rest).
    { rewrite <- app_assoc. reflexivity. }
    destruct (JsNum.ltb (Num q) (Num b)) eqn:Hcmp.
    + apply ltb_Num in Hcmp.
      destruct (IH (seen ++ [c]) (length seen) q c Hrest) as (r & cr & H1 & H2 & H3 & H4).
      * rewrite lookup_app_r by lia. rewrite Nat.sub_diag. reflexivity.
      * exact Hqd.
      * intros j cj Hj. apply lookup_app_Some in Hj as [Hj|[Hge Hj]].
        -- apply Qlt_le_weak. eapply Qlt_le_trans; [exact Hcmp|]. eauto.
        -- destruct (j - length seen)%nat; [|destruct n; discriminate].
           injection Hj as <-. rewrite Hqd. apply Qle_refl.
      * intros j cj Hlt Hj. rewrite lookup_app_l in Hj by exact Hlt.
        eapply Qlt_le_trans; [exact Hcmp|]. eauto.
      * exists r, cr. rewrite <- Happ. auto.
    + apply ltb_Num_false in Hcmp.
      destruct (IH (seen ++ [c]) bi b cb Hrest) as (r & cr & H1 & H2 & H3 & H4).
      * apply lookup_app_l_Some. exact Hbi.
      * exact Hb.
      * intros j cj Hj. apply lookup_app_Some in Hj as [Hj|[Hge Hj]]; [eauto|].
        destruct (j - length seen)%nat; [|destruct n; discriminate].
        injection Hj as <-. rewrite <- Hqd. exact Hcmp.
      * intros j cj Hlt Hj.
        assert (bi < length seen)%nat by (eapply lookup_lt_Some; exact Hbi).
        rewrite lookup_app_l in Hj by lia. eauto.
      * exists r, cr. rewrite <- Happ. auto.
Qed.

(** The scan of a non-empty list of candidates of finite numbers. *)
Lemma nearest_first_minimum (point : list Q) (candidates : list (list Q)) :
  candidates <> [] ->
  Forall (fun c => length c = length point) candidates ->
  exists i ci,
    nearestNeighbor (map Num point) (map array_of candidates) = Return (Z.of_nat i) /\
    candidates !! i = Some ci /\
    (forall j cj, candidates !! j = Some cj ->
                  (squared_distance point ci <= squared_distance point cj)%Q) /\
    (forall j cj, (j < i)%nat -> candidates !! j = Some cj ->
                  (squared_distance point ci < squared_distance point cj)%Q).
Proof.
  intros Hne Hlen. destruct candidates as [|c0 rest]; [congruence|].
  inversion Hlen as [|? ? Hc Hrest]; subst.
  destruct (neighbor_dist_finite point c0 Hc) as (q & Hq & Hqd).
  unfold nearestNeighbor. cbn [map nearest_loop]. unfold array_of at 1. rewrite Hq. cbn [obind].
  change (JsNum.ltb (Num q) PInf) with true. cbv iota.
  destruct (nearest_loop_scan point rest [c0] 0 q c0 Hrest) as (r & cr & H1 & H2 & H3 & H4).
  - reflexivity.
  - exact Hqd.
  - intros [|j] cj Hj; [|destruct j; discriminate].
    injection Hj as <-. rewrite Hqd. apply Qle_refl.
  - intros j cj Hlt. lia.
  - exists r, cr. auto.
Qed.

(** Two integers below [2^53] compare as the numbers that hold them. *)
Lemma ltb_exact (a b : Z) :
  0 <= a < 2 ^ 53 -> 0 <= b < 2 ^ 53 ->
  (Binary64.of_Z a <? Binary64.of_Z b)%float = (a <? b).
Proof.
  intros Ha Hb. rewrite FloatAxioms.ltb_spec.
  pose proof (holds_integer_of_Z a ltac:(lia)) as Hxa.
  pose proof (holds_integer_of_Z b ltac:(lia)) as Hxb.
  destruct (Prim2SF (Binary64.of_Z a)) as [sa| | |sa ma ea],
           (Prim2SF (Binary64.of_Z b)) as [sb| | |sb mb eb];
    cbn [holds_integer] in Hxa, Hxb; try tauto.
  - destruct Hxa as [-> ->], Hxb as [-> ->]. reflexivity.
  - destruct Hxa as [-> ->], Hxb as (Hm & He & Hv).
    assert (Hp : 0 < 2 ^ (- eb)) by (apply Z.pow_pos_nonneg; lia).
    destruct sb; cbn [cond_Zopp] in Hv; [exfalso; nia|].
    cbn. symmetry. apply Z.ltb_lt. nia.
  - destruct Hxb as [-> ->], Hxa as (Hm & He & Hv).
    assert (Hp : 0 < 2 ^ (- ea)) by (apply Z.pow_pos_nonneg; lia).
    destruct sa; cbn [cond_Zopp] in Hv; [exfalso; nia|].
    cbn. symmetry. apply Z.ltb_ge. lia.
  - destruct Hxa as (Hma & Hea & Hva), Hxb as (Hmb & Heb & Hvb).
    assert (Hpa : 0 < 2 ^ (- ea)) by (apply Z.pow_pos_nonneg; lia).
    assert (Hpb : 0 < 2 ^ (- eb)) by (apply Z.pow_pos_nonneg; lia).
    destruct sa; cbn [cond_Zopp] in Hva; [exfalso; nia|].
    destruct sb; cbn [cond_Zopp] in Hvb; [exfalso; nia|].
    unfold SFltb, SFcompare.
    destruct (Z.compare_spec ea eb) as [Heq|Hlt|Hgt].
    + subst eb. change (Pos.compare_cont Eq ma mb) with (Pos.compare ma mb).
      destruct (Pos.compare_spec ma mb) as [E|E|E]; symmetry.
      * apply Z.ltb_ge. subst mb. nia.
      * apply Z.ltb_lt. assert (Z.pos ma < Z.pos mb) by lia. nia.
      * apply Z.ltb_ge. assert (Z.pos mb < Z.pos ma) by lia. nia.
    + symmetry. apply Z.ltb_lt.
      assert (E : 2 ^ (- ea) = 2 ^ (- eb) * 2 ^ (eb - ea)).
      { rewrite <- Z.pow_add_r by lia. f_equal. lia. }
      assert (Hp : 2 ^ 1 <= 2 ^ (eb - ea)) by (apply Z.pow_le_mono_r; lia).
      change (2 ^ 1) with 2 in Hp. rewrite E in Hva. nia.
    + symmetry. apply Z.ltb_ge.
      assert (E : 2 ^ (- eb) = 2 ^ (- ea) * 2 ^ (ea - eb)).
      { rewrite <- Z.pow_add_r by lia. f_equal. lia. }
      assert (Hp : 2 ^ 1 <= 2 ^ (ea - eb)) by (apply Z.pow_le_mono_r; lia).
      change (2 ^ 1) with 2 in Hp. rewrite E in Hvb. nia.
Qed.

Lemma ltb_infinity (a : Z) :
  0 <= a < 2 ^ 53 -> (Binary64.of_Z a <? PrimFloat.infinity)%float = true.
Proof.
  intros Ha. rewrite FloatAxioms.ltb_spec.
  pose proof (holds_integer_of_Z a ltac:(lia)) as Hxa.
  change (Prim2SF PrimFloat.infinity) with (S754_infinity false).
  destruct (Prim2SF (Binary64.of_Z a)) as [sa| | |sa ma ea];
    cbn [holds_integer] in Hxa; try tauto; reflexivity.
Qed.

Lemma square_diff_bound (B x y : Z) :
  - B <= x <= B -> - B <= y <= B -> 0 <= (x - y) * (x - y) <= 4 * B * B.
Proof.
  intros Hx Hy.
  assert (H : 0 <= (2 * B - (x - y)) * (2 * B + (x - y)))
    by (apply Z.mul_nonneg_nonneg; lia).
  assert (E : (x - y) * (x - y)
              = 4 * B * B - (2 * B - (x - y)) * (2 * B + (x - y))) by ring.
  pose proof (Z.square_nonneg (x - y)). lia.
Qed.

Lemma squared_distance_Z_bounds (B : Z) (p c : list Z) :
  Forall (fun x => - B <= x <= B) p -> Forall (fun x => - B <= x <= B) c ->
  0 <= squared_distance_Z p c <= Z.of_nat (length p) * (4 * B * B).
Proof.
  intros Hp. revert c. induction Hp as [|x p Hx Hp IH]; intros c Hc.
  - cbn. lia.
  - destruct Hc as [|y c Hy Hc]; [cbn [squared_distance_Z]; nia|].
    cbn [squared_distance_Z length]. specialize (IH c Hc).
    pose proof (square_diff_bound B x y Hx Hy).
    rewrite Nat2Z.inj_succ. nia.
Qed.

(** On integers of magnitude at most [B], the sum of the squared differences
    is computed exactly as long as it stays below [2^53]. *)
Lemma dist_loop_exact (B : Z) (p c : list Z) (acc : Z) :
  length c = length p ->
  Forall (fun x => - B <= x <= B) p -> Forall (fun x => - B <= x <= B) c ->
  0 <= acc -> acc + Z.of_nat (length p) * (4 * B * B) < 2 ^ 53 ->
  Binary64.dist_loop (map Binary64.of_Z p) (map Binary64.of_Z c) (Binary64.of_Z acc)
    = Binary64.of_Z (acc + squared_distance_Z p c).
Proof.
  intros Hlen Hp. revert c acc Hlen.
  induction Hp as [|x p Hx Hp IH]; intros c acc Hlen Hc Hacc Hsum.
  - destruct c; [|discriminate]. cbn. rewrite Z.add_0_r. reflexivity.
  - destruct c as [|y c]; [discriminate|]. injection Hlen as Hlen.
    inversion Hc as [|? ? Hy Hc']; subst.
    cbn [map Binary64.dist_loop tail squared_distance_Z].
    cbn [length] in Hsum. rewrite Nat2Z.inj_succ in Hsum.
    assert (Hn : 0 <= Z.of_nat (length p)) by lia.
    assert (HB : 0 <= B) by lia.
    pose proof (square_diff_bound B x y Hx Hy) as Hd.
    assert (H4 : 4 * B * B < 2 ^ 53) by nia.
    assert (HB53 : 2 * B < 2 ^ 53).
    { destruct (Z.eq_dec B 0) as [->|HB0]; [reflexivity|].
      apply Z.le_lt_trans with (4 * B * B); [nia | exact H4]. }
    rewrite sub_exact by lia.
    rewrite square_exact by lia.
    rewrite add_exact by nia.
    rewrite IH; [f_equal; ring | exact Hlen | exact Hc' | nia | nia].
Qed.

(** The scan after a non-empty prefix [seen]: [b] is the distance of the
    candidate at [bi], no candidate seen is nearer, and every earlier one is
    strictly farther. *)
Lemma binary64_nearest_loop_scan (B : Z) (point : list Z) (rest seen : list (list Z))
    (bi : nat) (cb : list Z) :
  Z.of_nat (length point) * (4 * B * B) < 2 ^ 53 ->
  Forall (fun x => - B <= x <= B) point ->
  Forall (fun c => length c = length point /\ Forall (fun x => - B <= x <= B) c) rest ->
  Forall (fun x => - B <= x <= B) cb ->
  seen !! bi = Some cb ->
  (forall j cj, seen !! j = Some cj ->
                squared_distance_Z point cb <= squared_distance_Z point cj) ->
  (forall j cj, (j < bi)%nat -> seen !! j = Some cj ->
                squared_distance_Z point cb < squared_distance_Z point cj) ->
  exists r cr,
    Binary64.nearest_loop (map Binary64.of_Z point) (map (map Binary64.of_Z) rest)
      (Z.of_nat (length seen)) (Binary64.of_Z (squared_distance_Z point cb))
      (Z.of_nat bi) = Z.of_nat r /\
    (seen ++ rest) !! r = Some cr /\
    (forall j cj, (seen ++ rest) !! j = Some cj ->
                  squared_distance_Z point cr <= squared_distance_Z point cj) /\
    (forall j cj, (j < r)%nat -> (seen ++ rest) !! j = Some cj ->
                  squared_distance_Z point cr < squared_distance_Z point cj).
Proof.
  intros Hsum Hpoint. revert seen bi cb.
  induction rest as [|c rest IH]; intros seen bi cb Hall Hcb Hbi Hmin Hfirst.
  - exists bi, cb. rewrite app_nil_r. cbn. auto.
  - inversion Hall as [|? ? [Hlen Hc] Hrest]; subst.
    cbn [map Binary64.nearest_loop].
    rewrite (dist_loop_exact B point c 0 Hlen Hpoint Hc) by lia.
    rewrite Z.add_0_l.
    pose proof (squared_distance_Z_bounds B point c Hpoint Hc) as Hdc.
    pose proof (squared_distance_Z_bounds B point cb Hpoint Hcb) as Hdb.
    rewrite ltb_exact by lia.
    assert (Hnext : Z.of_nat (length seen) + 1 = Z.of_nat (length (seen ++ [c]))).
    { rewrite length_app. simpl. lia. }
    rewrite Hnext.
    assert (Happ : (seen ++ [c]) ++ rest = seen ++ c :: rest).
    { rewrite <- app_assoc. reflexivity. }
    destruct (squared_distance_Z point c <? squared_distance_Z point cb) eqn:Hcmp.
    + apply Z.ltb_lt in Hcmp.
      destruct (IH (seen ++ [c]) (length seen) c Hrest Hc) as (r & cr & H1 & H2 & H3 & H4).
      * rewrite lookup_app_r by lia. rewrite Nat.sub_diag. reflexivity.
      * intros j cj Hj. apply lookup_app_Some in Hj as [Hj|[Hge Hj]].
        -- specialize (Hmin j cj Hj). lia.
        -- destruct (j - length seen)%nat; [|destruct n; discriminate].
           injection Hj as <-. lia.
      * intros j cj Hlt Hj. rewrite lookup_app_l in Hj by exact Hlt.
        specialize (Hmin j cj Hj). lia.
      * exists r, cr. rewrite <- Happ. auto.
    + apply Z.ltb_ge in Hcmp.
      destruct (IH (seen ++ [c]) bi cb Hrest Hcb) as (r & cr & H1 & H2 & H3 & H4).
      * apply lookup_app_l_Some. exact Hbi.
      * intros j cj Hj. apply lookup_app_Some in Hj as [Hj|[Hge Hj]]; [eauto|].
        destruct (j - length seen)%nat; [|destruct n; discriminate].
        injection Hj as <-. exact Hcmp.
      * intros j cj Hlt Hj.
        assert (bi < length seen)%nat by (eapply lookup_lt_Some; exact Hbi).
        rewrite lookup_app_l in Hj by lia. eauto.
      * exists r, cr. rewrite <- Happ. auto.
Qed.

Lemma binary64_nearest_first_minimum (B : Z) (point : list Z) (candidates : list (list Z)) :
  candidates <> [] ->
  Z.of_nat (length point) * (4 * B * B) < 2 ^ 53 ->
  Forall (fun x => - B <= x <= B) point ->
  Forall (fun c => length c = length point /\ Forall (fun x => - B <= x <= B) c)
    candidates ->
  exists i ci,
    Binary64.nearestNeighbor (map Binary64.of_Z point)
      (map (map Binary64.of_Z) candidates) = Z.of_nat i /\
    candidates !! i = Some ci /\
    (forall j cj, candidates !! j = Some cj ->
                  squared_distance_Z point ci <= squared_distance_Z point cj) /\
    (forall j cj, (j < i)%nat -> candidates !! j = Some cj ->
                  squared_distance_Z point ci < squared_distance_Z point cj).
Proof.
  intros Hne Hsum Hpoint Hall. destruct candidates as [|c0 rest]; [congruence|].
  inversion Hall as [|? ? [Hlen Hc] Hrest]; subst.
  unfold Binary64.nearestNeighbor. cbn [map Binary64.nearest_loop].
  rewrite (dist_loop_exact B point c0 0 Hlen Hpoint Hc) by lia.
  rewrite Z.add_0_l.
  pose proof (squared_distance_Z_bounds B point c0 Hpoint Hc) as Hd0.
  rewrite ltb_infinity by lia.
  destruct (binary64_nearest_loop_scan B point rest [c0] 0 c0 Hsum Hpoint Hrest Hc)
    as (r & cr & H1 & H2 & H3 & H4).
  - reflexivity.
  - intros [|j] cj Hj; [|destruct j; discriminate]. injection Hj as <-. lia.
  - intros j cj Hlt. lia.
  - exists r, cr. auto.
Qed.




(** A NaN sample makes every distance NaN, no comparison succeeds and the
    sentinel is returned: the finiteness of the samples is needed above. *)
Example nearestNeighbor_NaN :
  nearestNeighbor [NaN] [Some [Num 0]; Some [Num 1]] = Return (-1).
Proof. reflexivity. Qed.

(** Of the two candidates at distance 1 the one at index 1 is returned. *)
Example nearestNeighbor_tie :
  nearestNeighbor (map Num [5; 5]%Q)
    (map array_of [[9; 5]; [5; 6]; [5; 4]; [1; 5]]%Q) = Return 1.
Proof. reflexivity. Qed.

(** C10. With no candidates [nearestNeighbor] returns the sentinel -1, not an
    index and not an error; indexing an array with it reads [undefined], and
    [kMeans] called with [k = 0] on a non-empty dataset does so: its
    [clusters[-1].push(point)] throws a TypeError. *)
Theorem nearestNeighbor_no_candidates :
  (forall point : array, nearestNeighbor point [] = Return (-1)) /\
  (forall clusters : list (list array), js_get clusters (-1) = None) /\
  (forall fuel point rest h,
     fst (kMeans (S fuel) (point :: rest) (Some 0) h) = Throw TypeError).
Proof.
  split; [|split].
  - intros point. reflexivity.
  - intros clusters. reflexivity.
  - intros fuel point rest h. reflexivity.
Qed.

(** ** The heap monad *)

Lemma bind_returns {A B} (m : M A) (f : A -> M B) (h h2 : heap) (b : B) :
  bind m f h = (Return b, h2) ->
  exists a h1, m h = (Return a, h1) /\ f a h1 = (Return b, h2).
Proof.
  unfold bind. destruct (m h) as [[a|e|] h1]; intros H; try discriminate.
  exists a, h1. split; [reflexivity | exact H].
Qed.

Lemma bind_step {A B} (m : M A) (f : A -> M B) (h h1 : heap) (a : A) :
  m h = (Return a, h1) -> bind m f h = f a h1.
Proof. intros H. unfold bind. rewrite H. reflexivity. Qed.

Lemma lift_returns {A} (o : outcome A) (h h1 : heap) (a : A) :
  lift o h = (Return a, h1) -> o = Return a /\ h1 = h.
Proof. unfold lift. intros H. injection H as -> ->. split; reflexivity. Qed.

(** ** The generator *)

Lemma next_seed_range (seed : Z) : 0 <= seed -> 0 <= next_seed seed < 233280.
Proof.
  intros H. unfold next_seed. apply Z.rem_bound_pos; lia.
Qed.

Lemma random_point_spec (random : generator) (dataset : list array) (h : heap) :
  random_point random dataset h =
    (Return (js_get dataset
               (Qfloor (inject_Z (next_seed (default 0 (h !! random))) / 233280
                        * inject_Z (Z.of_nat (length dataset))))),
     <[random := next_seed (default 0 (h !! random))]> h).
Proof. reflexivity. Qed.

(** [Math.floor(random() * dataset.length)] is an index of the dataset. *)
Lemma draw_index_range (seed n : Z) :
  0 <= seed < 233280 -> 0 < n ->
  0 <= Qfloor (inject_Z seed / 233280 * inject_Z n) < n.
Proof.
  intros Hs Hn.
  assert (Hq : (inject_Z seed / 233280 * inject_Z n == (seed * n) # 233280)%Q).
  { unfold Qeq, Qdiv, Qmult, Qinv, inject_Z. simpl. lia. }
  rewrite (Qfloor_comp _ _ Hq). unfold Qfloor.
  split.
  - apply Z.div_pos; nia.
  - apply Z.div_lt_upper_bound; nia.
Qed.

Lemma seed_ok_insert (random : generator) (h : heap) (seed : Z) :
  0 <= seed -> seed_ok random h -> seed_ok random (<[random := seed]> h).
Proof.
  unfold seed_ok. intros Hs Hh.
  destruct (decide (random < length h)%nat) as [Hlt|Hge].
  - rewrite list_lookup_insert_eq by exact Hlt. exact Hs.
  - rewrite list_insert_ge by lia. exact Hh.
Qed.

Lemma random_point_in_dataset (random : generator) (dataset : list array) (h : heap) :
  dataset <> [] -> seed_ok random h ->
  exists p h', random_point random dataset h = (Return (Some p), h') /\
               p ∈ dataset /\ seed_ok random h'.
Proof.
  intros Hne Hok. rewrite random_point_spec.
  pose proof (next_seed_range _ Hok) as Hr.
  set (seed := next_seed (default 0 (h !! random))) in *.
  assert (Hn : 0 < Z.of_nat (length dataset)) by (destruct dataset; [congruence | simpl; lia]).
  pose proof (draw_index_range seed _ Hr Hn) as Hi.
  set (idx := Qfloor _) in *.
  unfold js_get. destruct (idx <? 0) eqn:E; [apply Z.ltb_lt in E; lia|].
  destruct (dataset !! Z.to_nat idx) as [p|] eqn:Hp.
  - exists p, (<[random := seed]> h). split; [reflexivity|]. split.
    + eapply list_elem_of_lookup_2. exact Hp.
    + apply seed_ok_insert; [lia | exact Hok].
  - apply lookup_ge_None in Hp. lia.
Qed.

(** ** kMeans: the number of centroids *)

Lemma initial_centroids_returns (todo : nat) (random : generator)
    (dataset : list array) (centroids : list value) (h : heap) :
  exists centroids' h',
    initial_centroids todo random dataset centroids h = (Return centroids', h') /\
    length centroids' = (length centroids + todo)%nat.
Proof.
  revert centroids h. induction todo as [|todo IH]; intros centroids h.
  - exists centroids, h. split; [reflexivity | simpl; lia].
  - cbn [initial_centroids].
    rewrite (bind_step _ _ _ _ _ (random_point_spec random dataset h)).
    destruct (IH (centroids ++ [js_get dataset
        (Qfloor (inject_Z (next_seed (default 0 (h !! random))) / 233280
                 * inject_Z (Z.of_nat (length dataset))))])
      (<[random := next_seed (default 0 (h !! random))]> h)) as (cs & h' & Hrun & Hlen).
    exists cs, h'. split; [exact Hrun|].
    rewrite Hlen, length_app. simpl. lia.
Qed.

Lemma set_value_length (l : list value) (i : nat) (v : value) :
  (i < length l)%nat -> length (set_value l i v) = length l.
Proof.
  intros H. unfold set_value.
  destruct (i <? length l)%nat eqn:E; [apply length_insert|].
  apply Nat.ltb_ge in E. lia.
Qed.

Lemma update_centroids_length (todo i : nat) (random : generator)
    (dataset : list array) (clusters : list (list array)) (converged : bool)
    (centroids : list value) (h h' : heap) (r : bool * list value) :
  update_centroids todo i random dataset clusters converged centroids h = (Return r, h') ->
  (i + todo <= length centroids)%nat ->
  length (snd r) = length centroids.
Proof.
  revert i converged centroids h.
  induction todo as [|todo IH]; intros i converged centroids h Hrun Hbound.
  - cbn in Hrun. injection Hrun as <- _. reflexivity.
  - cbn [update_centroids] in Hrun.
    apply bind_returns in Hrun as (centroid_i & h1 & _ & Hrun).
    apply bind_returns in Hrun as (converged' & h2 & _ & Hrun).
    apply IH in Hrun; [|rewrite set_value_length; lia].
    rewrite Hrun. apply set_value_length. lia.
Qed.

Lemma empty_clusters_returns (k : Z) (clusters : list (list array)) :
  empty_clusters k = Return clusters ->
  0 <= k <= 4294967295 /\ clusters = replicate (Z.to_nat k) [].
Proof.
  unfold empty_clusters.
  destruct ((k <? 0) || (4294967295 <? k)) eqn:E; [discriminate|].
  intros H. injection H as <-. apply orb_false_iff in E as [E1 E2].
  apply Z.ltb_ge in E1, E2. split; [lia | reflexivity].
Qed.

Lemma kMeans_iteration_length (random : generator) (dataset : list array) (k : Z)
    (centroids : list value) (h h' : heap) (r : bool * list value) :
  kMeans_iteration random dataset k centroids h = (Return r, h') ->
  length centroids = Z.to_nat k ->
  0 <= k /\ length (snd r) = Z.to_nat k.
Proof.
  unfold kMeans_iteration. intros Hrun Hlen.
  apply bind_returns in Hrun as (clusters & h1 & Hc & Hrun).
  apply lift_returns in Hc as [Hc ->].
  apply empty_clusters_returns in Hc as [Hk ->].
  apply bind_returns in Hrun as (clusters & h1 & _ & Hrun).
  apply update_centroids_length in Hrun; [|lia].
  split; [lia | congruence].
Qed.

Lemma kMeans_while_length (fuel : nat) (random : generator) (dataset : list array)
    (k : Z) (centroids palette : list value) (h h' : heap) :
  kMeans_while fuel random dataset k centroids h = (Return palette, h') ->
  length centroids = Z.to_nat k ->
  0 <= k /\ length palette = Z.to_nat k.
Proof.
  revert centroids h. induction fuel as [|fuel IH]; intros centroids h Hrun Hlen.
  - discriminate.
  - cbn [kMeans_while] in Hrun.
    apply bind_returns in Hrun as (r & h1 & Hit & Hrun).
    apply kMeans_iteration_length in Hit as [Hk Hr]; [|exact Hlen].
    destruct (fst r).
    + injection Hrun as <- _. auto.
    + eapply IH; eauto.
Qed.

(** Whenever [kMeans] returns, it returns exactly [k] centroids. *)
Lemma kMeans_returns_k_centroids (fuel : nat) (dataset : list array) (k : Z)
    (h : heap) (palette : list value) :
  fst (kMeans fuel dataset (Some k) h) = Return palette ->
  Z.of_nat (length palette) = k.
Proof.
  unfold kMeans. intros Hrun.
  rewrite (bind_step _ _ h (h ++ [0]) (length h)) in Hrun by reflexivity.
  destruct (initial_centroids_returns (Z.to_nat k) (length h) dataset [] (h ++ [0]))
    as (cs & h1 & Hinit & Hlen).
  rewrite (bind_step _ _ _ _ _ Hinit) in Hrun.
  destruct (kMeans_while fuel (length h) dataset k cs h1) as [o h2] eqn:Hw.
  simpl in Hrun. subst o.
  apply kMeans_while_length in Hw as [Hk Hp]; [lia | exact Hlen].
Qed.

(** ** kMeans: the channel count of the centroids *)

Lemma fold_point_length (runningCentroid point : array) (divisor : positive) :
  length point = length runningCentroid ->
  length (fold_point runningCentroid point divisor) = length runningCentroid.
Proof.
  revert runningCentroid. induction point as [|pj point IH]; intros [|r rc] H;
    simpl in *; try discriminate; try reflexivity.
  f_equal. apply IH. lia.
Qed.

Lemma centroid_loop_length (dataset : list array) (divisor : positive)
    (runningCentroid : array) :
  Forall (fun p : array => length p = length runningCentroid) dataset ->
  length (centroid_loop dataset divisor runningCentroid) = length runningCentroid.
Proof.
  revert divisor runningCentroid.
  induction dataset as [|point rest IH]; intros divisor rc H; [reflexivity|].
  inversion H as [|? ? Hp Hrest]; subst. simpl.
  rewrite IH; rewrite fold_point_length by exact Hp; [reflexivity | exact Hrest].
Qed.

Lemma centroid_length (C : nat) (cluster : list array) :
  cluster <> [] -> Forall (fun p : array => length p = C) cluster ->
  length (centroid cluster) = C.
Proof.
  intros Hne H. destruct cluster as [|first rest]; [congruence|].
  unfold centroid. inversion H as [|? ? Hf Hrest]; subst.
  rewrite centroid_loop_length; rewrite length_replicate; [reflexivity|].
  eapply Forall_impl; [exact H|]. simpl. intros p Hp. congruence.
Qed.

Lemma assign_points_members (P : array -> Prop) (points : list array)
    (centroids : list value) (clusters clusters' : list (list array)) :
  assign_points points centroids clusters = Return clusters' ->
  Forall P points -> Forall (Forall P) clusters ->
  Forall (Forall P) clusters' /\ length clusters' = length clusters.
Proof.
  revert clusters. induction points as [|point rest IH]; intros clusters Hrun Hp Hc.
  - injection Hrun as <-. auto.
  - inversion Hp as [|? ? Hpoint Hrest]; subst. cbn [assign_points] in Hrun.
    destruct (nearestNeighbor point centroids) as [nearest| |]; try discriminate.
    cbn [obind] in Hrun.
    destruct (js_get clusters nearest) as [cluster|] eqn:Hget; [|discriminate].
    apply IH in Hrun as [H1 H2]; [| exact Hrest |].
    + rewrite length_insert in H2. auto.
    + apply Forall_insert; [exact Hc|].
      apply Forall_app. split; [|repeat constructor; exact Hpoint].
      unfold js_get in Hget. destruct (nearest <? 0); [discriminate|].
      eapply Forall_lookup_1 in Hget; [exact Hget | exact Hc].
Qed.

Lemma set_value_channels (C : nat) (centroids : list value) (i : nat) (p : array) :
  (i < length centroids)%nat -> length p = C ->
  channels_ok C centroids -> channels_ok C (set_value centroids i (Some p)).
Proof.
  intros Hi Hp H. unfold set_value.
  destruct (i <? length centroids)%nat eqn:E; [|apply Nat.ltb_ge in E; lia].
  apply Forall_insert; [exact H|]. exists p. auto.
Qed.

Lemma update_centroids_channels (C : nat) (todo i : nat) (random : generator)
    (dataset : list array) (clusters : list (list array)) (converged : bool)
    (centroids : list value) (h h' : heap) (r : bool * list value) :
  update_centroids todo i random dataset clusters converged centroids h = (Return r, h') ->
  dataset <> [] -> Forall (fun p : array => length p = C) dataset ->
  Forall (Forall (fun p : array => length p = C)) clusters ->
  (i + todo <= length centroids)%nat ->
  channels_ok C centroids -> seed_ok random h ->
  channels_ok C (snd r) /\ seed_ok random h'.
Proof.
  intros Hrun Hne Hd Hc. revert i converged centroids h Hrun.
  induction todo as [|todo IH]; intros i converged centroids h Hrun Hbound Hok Hseed.
  - cbn in Hrun. injection Hrun as <- <-. auto.
  - cbn [update_centroids] in Hrun.
    apply bind_returns in Hrun as (centroid_i & h1 & Hci & Hrun).
    apply bind_returns in Hrun as (converged' & h2 & Hconv & Hrun).
    assert (Hh2 : h2 = h1).
    { destruct converged; [apply lift_returns in Hconv as [_ ->]; reflexivity|].
      injection Hconv as _ ->. reflexivity. }
    subst h2.
    assert (Hnew : (exists p, centroid_i = Some p /\ length p = C) /\ seed_ok random h1).
    { destruct (clusters !! i) as [[|point cluster]|] eqn:Hcl.
      - destruct (random_point_in_dataset random dataset h Hne Hseed)
          as (p & h1' & Hrp & Hin & Hs).
        rewrite Hrp in Hci. injection Hci as <- <-. split; [|exact Hs].
        exists p. split; [reflexivity|].
        rewrite Forall_forall in Hd. apply Hd. exact Hin.
      - injection Hci as <- <-. split; [|exact Hseed].
        exists (centroid (point :: cluster)). split; [reflexivity|].
        apply centroid_length; [discriminate|].
        eapply Forall_lookup_1 in Hcl; [exact Hcl | exact Hc].
      - apply lift_returns in Hci as [Hci _]. discriminate. }
    destruct Hnew as [(p & -> & Hp) Hs].
    eapply IH in Hrun; [exact Hrun | | | exact Hs].
    + rewrite set_value_length; lia.
    + apply set_value_channels; [lia | exact Hp | exact Hok].
Qed.

Lemma initial_centroids_channels (C : nat) (todo : nat) (random : generator)
    (dataset : list array) (centroids : list value) (h : heap) :
  dataset <> [] -> Forall (fun p : array => length p = C) dataset ->
  channels_ok C centroids -> seed_ok random h ->
  exists centroids' h',
    initial_centroids todo random dataset centroids h = (Return centroids', h') /\
    length centroids' = (length centroids + todo)%nat /\
    channels_ok C centroids' /\ seed_ok random h'.
Proof.
  intros Hne Hd. revert centroids h.
  induction todo as [|todo IH]; intros centroids h Hok Hseed.
  - exists centroids, h. repeat split; [simpl; lia | exact Hok | exact Hseed].
  - cbn [initial_centroids].
    destruct (random_point_in_dataset random dataset h Hne Hseed)
      as (p & h1 & Hrp & Hin & Hs).
    rewrite (bind_step _ _ _ _ _ Hrp).
    destruct (IH (centroids ++ [Some p]) h1) as (cs & h' & Hrun & Hlen & Hcs & Hs').
    + apply Forall_app. split; [exact Hok|]. repeat constructor.
      exists p. split; [reflexivity|]. rewrite Forall_forall in Hd. apply Hd. exact Hin.
    + exact Hs.
    + exists cs, h'. repeat split; try assumption.
      rewrite Hlen, length_app. simpl. lia.
Qed.

Lemma kMeans_while_channels (C : nat) (fuel : nat) (random : generator)
    (dataset : list array) (k : Z) (centroids palette : list value) (h h' : heap) :
  kMeans_while fuel random dataset k centroids h = (Return palette, h') ->
  dataset <> [] -> Forall (fun p : array => length p = C) dataset ->
  length centroids = Z.to_nat k ->
  channels_ok C centroids -> seed_ok random h ->
  channels_ok C palette.
Proof.
  intros Hrun Hne Hd. revert centroids h Hrun.
  induction fuel as [|fuel IH]; intros centroids h Hrun Hlen Hok Hseed; [discriminate|].
  cbn [kMeans_while] in Hrun.
  apply bind_returns in Hrun as (r & h1 & Hit & Hrun).
  pose proof (kMeans_iteration_length _ _ _ _ _ _ _ Hit Hlen) as [Hk Hr].
  unfold kMeans_iteration in Hit.
  apply bind_returns in Hit as (clusters0 & h0 & Hc & Hit).
  apply lift_returns in Hc as [Hc ->].
  apply empty_clusters_returns in Hc as [_ ->].
  apply bind_returns in Hit as (clusters & h0 & Ha & Hit).
  apply lift_returns in Ha as [Ha ->].
  apply (assign_points_members (fun p : array => length p = C)) in Ha as [Hcl _];
    [| exact Hd | apply Forall_replicate; constructor].
  apply (update_centroids_channels C) in Hit as [Hch Hs]; try assumption; [|lia].
  destruct (fst r).
  - injection Hrun as <- _. exact Hch.
  - eapply IH; eauto.
Qed.

(** ** kMeans: independence from the other generators *)

Section Agreement.
Variables g1 g2 : generator.

Lemma agree_ret {A} (a : A) : agree g1 g2 (ret a) (ret a).
Proof. intros h1 h2 H. split; [reflexivity | exact H]. Qed.

Lemma agree_lift {A} (o : outcome A) : agree g1 g2 (lift o) (lift o).
Proof. intros h1 h2 H. split; [reflexivity | exact H]. Qed.

Lemma agree_bind {A B} (m1 m2 : M A) (f1 f2 : A -> M B) :
  agree g1 g2 m1 m2 -> (forall a, agree g1 g2 (f1 a) (f2 a)) ->
  agree g1 g2 (bind m1 f1) (bind m2 f2).
Proof.
  intros Hm Hf h1 h2 H. destruct (Hm h1 h2 H) as [Ho Hs]. unfold bind.
  destruct (m1 h1) as [o1 h1'], (m2 h2) as [o2 h2']. simpl in Ho, Hs. subst o2.
  destruct o1 as [a|e|]; [apply Hf; exact Hs | split; [reflexivity | exact Hs]..].
Qed.

Lemma agree_call_random : agree g1 g2 (call_random g1) (call_random g2).
Proof.
  intros h1 h2 (Hl1 & Hl2 & Heq). unfold call_random. cbn [fst snd]. rewrite Heq.
  split; [reflexivity|]. unfold same_seed. rewrite !length_insert.
  split; [exact Hl1|]. split; [exact Hl2|].
  rewrite !list_lookup_insert_eq by assumption. reflexivity.
Qed.

Lemma agree_random_point (dataset : list array) :
  agree g1 g2 (random_point g1 dataset) (random_point g2 dataset).
Proof.
  unfold random_point. apply agree_bind; [apply agree_call_random|].
  intros r. apply agree_ret.
Qed.

Lemma agree_initial_centroids (todo : nat) (dataset : list array)
    (centroids : list value) :
  agree g1 g2 (initial_centroids todo g1 dataset centroids)
              (initial_centroids todo g2 dataset centroids).
Proof.
  revert centroids. induction todo as [|todo IH]; intros centroids.
  - apply agree_ret.
  - cbn [initial_centroids]. apply agree_bind; [apply agree_random_point|].
    intros c. apply IH.
Qed.

Lemma agree_update_centroids (todo i : nat) (dataset : list array)
    (clusters : list (list array)) (converged : bool) (centroids : list value) :
  agree g1 g2 (update_centroids todo i g1 dataset clusters converged centroids)
              (update_centroids todo i g2 dataset clusters converged centroids).
Proof.
  revert i converged centroids.
  induction todo as [|todo IH]; intros i converged centroids.
  - apply agree_ret.
  - cbn [update_centroids]. apply agree_bind.
    + destruct (clusters !! i) as [[|point cluster]|].
      * apply agree_random_point.
      * apply agree_ret.
      * apply agree_lift.
    + intros centroid_i. apply agree_bind.
      * destruct converged; [apply agree_lift | apply agree_ret].
      * intros converged'. apply IH.
Qed.

Lemma agree_kMeans_iteration (dataset : list array) (k : Z) (centroids : list value) :
  agree g1 g2 (kMeans_iteration g1 dataset k centroids)
              (kMeans_iteration g2 dataset k centroids).
Proof.
  unfold kMeans_iteration. apply agree_bind; [apply agree_lift|].
  intros clusters0. apply agree_bind; [apply agree_lift|].
  intros clusters. apply agree_update_centroids.
Qed.

Lemma agree_kMeans_while (fuel : nat) (dataset : list array) (k : Z)
    (centroids : list value) :
  agree g1 g2 (kMeans_while fuel g1 dataset k centroids)
              (kMeans_while fuel g2 dataset k centroids).
Proof.
  revert centroids. induction fuel as [|fuel IH]; intros centroids.
  - apply agree_lift.
  - cbn [kMeans_while]. apply agree_bind; [apply agree_kMeans_iteration|].
    intros r. destruct (fst r); [apply agree_ret | apply IH].
Qed.

End Agreement.



Section Frame.
Variable g : generator.

Lemma writes_only_ret {A} (a : A) : writes_only g (ret a).
Proof.
  intros h Hg. destruct (lookup_lt_is_Some_2 h g Hg) as [seed Hs].
  exists seed. simpl. symmetry. apply list_insert_id. exact Hs.
Qed.

Lemma writes_only_lift {A} (o : outcome A) : writes_only g (lift o).
Proof.
  intros h Hg. destruct (lookup_lt_is_Some_2 h g Hg) as [seed Hs].
  exists seed. simpl. symmetry. apply list_insert_id. exact Hs.
Qed.

Lemma writes_only_bind {A B} (m : M A) (f : A -> M B) :
  writes_only g m -> (forall a, writes_only g (f a)) -> writes_only g (bind m f).
Proof.
  intros Hm Hf h Hg. destruct (Hm h Hg) as [s1 H1]. unfold bind.
  destruct (m h) as [[a|e|] h1]; simpl in H1; subst h1;
    [|exists s1; reflexivity..].
  destruct (Hf a (<[g := s1]> h)) as [s2 H2]; [rewrite length_insert; exact Hg|].
  exists s2. rewrite H2. apply list_insert_insert_eq.
Qed.

Lemma writes_only_random_point (dataset : list array) :
  writes_only g (random_point g dataset).
Proof. intros h Hg. rewrite random_point_spec. eexists. reflexivity. Qed.

Lemma writes_only_initial_centroids (todo : nat) (dataset : list array)
    (centroids : list value) :
  writes_only g (initial_centroids todo g dataset centroids).
Proof.
  revert centroids. induction todo as [|todo IH]; intros centroids.
  - apply writes_only_ret.
  - cbn [initial_centroids]. apply writes_only_bind; [apply writes_only_random_point|].
    intros c. apply IH.
Qed.

Lemma writes_only_update_centroids (todo i : nat) (dataset : list array)
    (clusters : list (list array)) (converged : bool) (centroids : list value) :
  writes_only g (update_centroids todo i g dataset clusters converged centroids).
Proof.
  revert i converged centroids.
  induction todo as [|todo IH]; intros i converged centroids.
  - apply writes_only_ret.
  - cbn [update_centroids]. apply writes_only_bind.
    + destruct (clusters !! i) as [[|point cluster]|].
      * apply writes_only_random_point.
      * apply writes_only_ret.
      * apply writes_only_lift.
    + intros centroid_i. apply writes_only_bind.
      * destruct converged; [apply writes_only_lift | apply writes_only_ret].
      * intros converged'. apply IH.
Qed.

Lemma writes_only_kMeans_while (fuel : nat) (dataset : list array) (k : Z)
    (centroids : list value) :
  writes_only g (kMeans_while fuel g dataset k centroids).
Proof.
  revert centroids. induction fuel as [|fuel IH]; intros centroids.
  - apply writes_only_lift.
  - cbn [kMeans_while]. apply writes_only_bind.
    + unfold kMeans_iteration. apply writes_only_bind; [apply writes_only_lift|].
      intros clusters0. apply writes_only_bind; [apply writes_only_lift|].
      intros clusters. apply writes_only_update_centroids.
    + intros r. destruct (fst r); [apply writes_only_ret | apply IH].
Qed.

End Frame.

(** A call leaves every generator that existed before it as it was: the
    heap only grows by the seed of the call's own generator. *)
Lemma kMeans_heap (fuel : nat) (dataset : list array) (k : option Z) (h : heap) :
  exists seed, snd (kMeans fuel dataset k h) = h ++ [seed].
Proof.
  unfold kMeans. set (k' := match k with Some z => z | None => _ end).
  rewrite (bind_step _ _ h (h ++ [0]) (length h)) by reflexivity.
  destruct (writes_only_bind (length h)
              (initial_centroids (Z.to_nat k') (length h) dataset [])
              (fun centroids => kMeans_while fuel (length h) dataset k' centroids)
              (writes_only_initial_centroids _ _ _ _)
              (fun centroids => writes_only_kMeans_while _ _ _ _ _)
              (h ++ [0])) as [seed Hs].
  - rewrite length_app. simpl. lia.
  - exists seed. rewrite Hs.
    replace (length h) with (length h + 0)%nat at 1 by lia.
    rewrite insert_app_r. reflexivity.
Qed.

(** The outcome of a call does not depend on the heap it is made in. *)
Lemma kMeans_any_heap (fuel : nat) (dataset : list array) (k : option Z)
    (h1 h2 : heap) :
  fst (kMeans fuel dataset k h1) = fst (kMeans fuel dataset k h2).
Proof.
  unfold kMeans. set (k' := match k with Some z => z | None => _ end).
  rewrite (bind_step _ _ h1 (h1 ++ [0]) (length h1)) by reflexivity.
  rewrite (bind_step _ _ h2 (h2 ++ [0]) (length h2)) by reflexivity.
  apply (agree_bind (length h1) (length h2)
           (initial_centroids (Z.to_nat k') (length h1) dataset [])
           (initial_centroids (Z.to_nat k') (length h2) dataset [])
           (fun centroids => kMeans_while fuel (length h1) dataset k' centroids)
           (fun centroids => kMeans_while fuel (length h2) dataset k' centroids)).
  - apply agree_initial_centroids.
  - intros centroids. apply agree_kMeans_while.
  - unfold same_seed. rewrite !length_app. simpl.
    split; [lia|]. split; [lia|].
    rewrite !lookup_app_r by lia. rewrite !Nat.sub_diag. reflexivity.
Qed.

(** C9. Clustering is deterministic: the outcome of [kMeans] is the same
    from any two heaps, that is whatever generators exist and however far
    they have been advanced, because the call draws only from a generator it
    creates with seed 0.  In particular a second call, made in the heap the
    first one leaves, has the very same outcome; and the first call leaves
    every generator that existed before it untouched. *)
Theorem kMeans_deterministic (fuel : nat) (dataset : list array) (k : option Z)
    (h1 h2 : heap) :
  fst (kMeans fuel dataset k h1) = fst (kMeans fuel dataset k h2) /\
  fst (kMeans fuel dataset k (snd (kMeans fuel dataset k h1)))
    = fst (kMeans fuel dataset k h1) /\
  exists seed, snd (kMeans fuel dataset k h1) = h1 ++ [seed].
Proof.
  split; [apply kMeans_any_heap|]. split; [apply kMeans_any_heap|]. apply kMeans_heap.
Qed.


(** ** kMeans: passes of the loop *)

Lemma passes_add (a b : nat) (random : generator) (dataset : list array) (k : Z)
    (centroids : list value) (h : heap) :
  passes (a + b) random dataset k centroids h =
    match passes a random dataset k centroids h with
    | Some (centroids', h') => passes b random dataset k centroids' h'
    | None => None
    end.
Proof.
  revert centroids h. induction a as [|a IH]; intros centroids h; [reflexivity|].
  cbn [Nat.add passes].
  destruct (kMeans_iteration random dataset k centroids h) as [[[[|] cs]| |] h1];
    try reflexivity.
  apply IH.
Qed.

Lemma passes_prefix (a b : nat) (random : generator) (dataset : list array) (k : Z)
    (centroids : list value) (h : heap) :
  is_Some (passes (a + b) random dataset k centroids h) ->
  is_Some (passes a random dataset k centroids h).
Proof.
  rewrite passes_add.
  destruct (passes a random dataset k centroids h); [eauto|].
  intros [? H]. discriminate.
Qed.

(** A state that recurs after [p > 0] passes is never left. *)
Lemma passes_cycle (p : nat) (random : generator) (dataset : list array) (k : Z)
    (centroids : list value) (h : heap) :
  (0 < p)%nat ->
  passes p random dataset k centroids h = Some (centroids, h) ->
  forall n, is_Some (passes n random dataset k centroids h).
Proof.
  intros Hp Hcycle n. induction (lt_wf n) as [n _ IH].
  destruct (le_lt_dec n p) as [Hle|Hgt].
  - apply (passes_prefix n (p - n)).
    replace (n + (p - n))%nat with p by lia. rewrite Hcycle. eauto.
  - replace n with (p + (n - p))%nat by lia.
    rewrite passes_add, Hcycle. apply IH. lia.
Qed.

Lemma kMeans_while_passes (fuel : nat) (random : generator) (dataset : list array)
    (k : Z) (centroids : list value) (h : heap) :
  is_Some (passes fuel random dataset k centroids h) ->
  fst (kMeans_while fuel random dataset k centroids h) = OutOfFuel.
Proof.
  revert centroids h. induction fuel as [|fuel IH]; intros centroids h Hp; [reflexivity|].
  cbn [passes] in Hp. cbn [kMeans_while]. unfold bind.
  destruct (kMeans_iteration random dataset k centroids h) as [[[[|] cs]| |] h1];
    try (destruct Hp as [? Hp]; discriminate).
  cbn [fst snd]. apply IH. exact Hp.
Qed.

Lemma kMeans_while_returns_iff (fuel : nat) (random : generator)
    (dataset : list array) (k : Z) (centroids palette : list value) (h : heap) :
  fst (kMeans_while fuel random dataset k centroids h) = Return palette <->
  exists n centroids' hn h',
    (n < fuel)%nat /\
    passes n random dataset k centroids h = Some (centroids', hn) /\
    kMeans_iteration random dataset k centroids' hn = (Return (true, palette), h').
Proof.
  revert centroids h. induction fuel as [|fuel IH]; intros centroids h.
  - split; [discriminate|]. intros (n & ? & ? & ? & Hn & _). lia.
  - cbn [kMeans_while]. unfold bind.
    destruct (kMeans_iteration random dataset k centroids h)
      as [[[[|] cs1]| |] h1] eqn:Hit; cbn [fst snd].
    + split.
      * intros H. injection H as <-.
        exists 0%nat, centroids, h, h1. split; [lia|]. split; [reflexivity | exact Hit].
      * intros (n & cs' & hn & h' & _ & Hp & Hlast). destruct n as [|n].
        -- injection Hp as <- <-. rewrite Hit in Hlast. injection Hlast as <- _.
           reflexivity.
        -- cbn [passes] in Hp. rewrite Hit in Hp. discriminate.
    + rewrite IH. split.
      * intros (n & cs' & hn & h' & Hn & Hp & Hlast).
        exists (S n), cs', hn, h'. split; [lia|]. split; [|exact Hlast].
        cbn [passes]. rewrite Hit. exact Hp.
      * intros (n & cs' & hn & h' & Hn & Hp & Hlast). destruct n as [|n].
        -- injection Hp as <- <-. rewrite Hit in Hlast. discriminate.
        -- cbn [passes] in Hp. rewrite Hit in Hp.
           exists n, cs', hn, h'. split; [lia|]. auto.
    + split; [discriminate|].
      intros (n & cs' & hn & h' & _ & Hp & Hlast). destruct n as [|n].
      * injection Hp as <- <-. rewrite Hit in Hlast. discriminate.
      * cbn [passes] in Hp. rewrite Hit in Hp. discriminate.
    + split; [discriminate|].
      intros (n & cs' & hn & h' & _ & Hp & Hlast). destruct n as [|n].
      * injection Hp as <- <-. rewrite Hit in Hlast. discriminate.
      * cbn [passes] in Hp. rewrite Hit in Hp. discriminate.
Qed.

(** [kMeans] is its loop run from the [k] initial draws of a new generator. *)
Lemma kMeans_unfold (fuel : nat) (dataset : list array) (k : Z) (h : heap) :
  exists centroids0 h0,
    initial_centroids (Z.to_nat k) (length h) dataset [] (h ++ [0])
      = (Return centroids0, h0) /\
    length centroids0 = Z.to_nat k /\
    kMeans fuel dataset (Some k) h
      = kMeans_while fuel (length h) dataset k centroids0 h0.
Proof.
  destruct (initial_centroids_returns (Z.to_nat k) (length h) dataset [] (h ++ [0]))
    as (cs & h0 & Hinit & Hlen).
  exists cs, h0. split; [exact Hinit|]. split; [exact Hlen|].
  unfold kMeans.
  rewrite (bind_step _ _ h (h ++ [0]) (length h)) by reflexivity.
  rewrite (bind_step _ _ _ _ _ Hinit). reflexivity.
Qed.

(** A pass whose flag is still true at the end found every new centroid
    equal to the one it replaces. *)
Lemma update_centroids_converged (todo i : nat) (random : generator)
    (dataset : list array) (clusters : list (list array)) (converged : bool)
    (centroids centroids' : list value) (h h' : heap) :
  update_centroids todo i random dataset clusters converged centroids h
    = (Return (true, centroids'), h') ->
  (i + todo <= length centroids)%nat ->
  converged = true /\
  (forall j, (j < i)%nat -> get_value centroids' j = get_value centroids j) /\
  (forall j, (i <= j < i + todo)%nat ->
     isArrayEqual (get_value centroids' j) (get_value centroids j) = Return true).
Proof.
  revert i converged centroids h.
  induction todo as [|todo IH]; intros i converged centroids h Hrun Hbound.
  - cbn in Hrun. injection Hrun as -> -> _. split; [reflexivity|].
    split; [reflexivity | lia].
  - cbn [update_centroids] in Hrun.
    apply bind_returns in Hrun as (centroid_i & h1 & _ & Hrun).
    apply bind_returns in Hrun as (converged' & h2 & Hconv & Hrun).
    apply IH in Hrun as (-> & Hbelow & Hrest); [|rewrite set_value_length; lia].
    assert (Hget : forall j, j <> i ->
              get_value (set_value centroids i centroid_i) j = get_value centroids j).
    { intros j Hj. unfold get_value, set_value.
      destruct (i <? length centroids)%nat eqn:E; [|apply Nat.ltb_ge in E; lia].
      rewrite list_lookup_insert_ne by lia. reflexivity. }
    assert (Hself : get_value (set_value centroids i centroid_i) i = centroid_i).
    { unfold get_value, set_value.
      destruct (i <? length centroids)%nat eqn:E; [|apply Nat.ltb_ge in E; lia].
      apply Nat.ltb_lt in E. rewrite list_lookup_insert_eq by exact E. reflexivity. }
    destruct converged; [|discriminate].
    apply lift_returns in Hconv as [Hconv _].
    split; [reflexivity|]. split.
    + intros j Hj. rewrite Hbelow by lia. apply Hget. lia.
    + intros j Hj. destruct (decide (j = i)) as [->|Hne].
      * rewrite Hbelow by lia. rewrite Hself. exact Hconv.
      * rewrite <- (Hget j Hne). apply Hrest. lia.
Qed.

Lemma kMeans_iteration_converged (random : generator) (dataset : list array)
    (k : Z) (centroids palette : list value) (h h' : heap) :
  kMeans_iteration random dataset k centroids h = (Return (true, palette), h') ->
  length centroids = Z.to_nat k ->
  forall j, (j < length centroids)%nat ->
    isArrayEqual (get_value palette j) (get_value centroids j) = Return true.
Proof.
  unfold kMeans_iteration. intros Hrun Hlen j Hj.
  apply bind_returns in Hrun as (clusters0 & h0 & _ & Hrun).
  apply bind_returns in Hrun as (clusters & h1 & _ & Hrun).
  apply update_centroids_converged in Hrun as (_ & _ & Hall); [|lia].
  apply Hall. lia.
Qed.

Lemma passes_length (n : nat) (random : generator) (dataset : list array) (k : Z)
    (centroids centroids' : list value) (h h' : heap) :
  passes n random dataset k centroids h = Some (centroids', h') ->
  length centroids = Z.to_nat k -> length centroids' = Z.to_nat k.
Proof.
  revert centroids h. induction n as [|n IH]; intros centroids h Hp Hlen.
  - injection Hp as <- _. exact Hlen.
  - cbn [passes] in Hp.
    destruct (kMeans_iteration random dataset k centroids h)
      as [[[[|] cs1]| |] h1] eqn:Hit; try discriminate.
    apply kMeans_iteration_length in Hit as [_ Hcs]; [|exact Hlen].
    eapply IH; eauto.
Qed.

(** ** Assignment by exact match *)

Lemma finite_array_Num (a : array) :
  finite_array a = true -> exists qs, a = map Num qs.
Proof.
  induction a as [|x a IH]; intros H; [exists []; reflexivity|].
  simpl in H. apply andb_true_iff in H as [Hx Ha].
  destruct x as [q| | |]; try discriminate.
  destruct (IH Ha) as [qs ->]. exists (q :: qs). reflexivity.
Qed.

Lemma comparable_finite (point : array) (neighbors : list value) :
  comparable point neighbors = true ->
  exists pq qss,
    point = map Num pq /\ neighbors = map array_of qss /\
    Forall (fun c => length c = length pq) qss.
Proof.
  unfold comparable. intros H. apply andb_true_iff in H as [Hp Hn].
  destruct (finite_array_Num point Hp) as [pq ->]. exists pq.
  induction neighbors as [|v neighbors IH].
  - exists []. auto.
  - simpl in Hn. apply andb_true_iff in Hn as [Hv Hn].
    destruct v as [nb|]; [|discriminate].
    apply andb_true_iff in Hv as [Hlen Hnb]. apply Nat.eqb_eq in Hlen.
    destruct (finite_array_Num nb Hnb) as [c ->].
    destruct (IH Hn) as (qss & _ & -> & Hall).
    exists (c :: qss). split; [reflexivity|]. split; [reflexivity|].
    constructor; [|exact Hall]. rewrite !length_map in Hlen. exact Hlen.
Qed.

Lemma elements_equal_Qeq (p c : list Q) :
  length c = length p ->
  elements_equal (map Num p) (map Num c) = true <-> Forall2 Qeq p c.
Proof.
  revert c. induction p as [|x p IH]; intros [|y c] Hlen; try discriminate.
  - split; [constructor | reflexivity].
  - simpl in Hlen. injection Hlen as Hlen. cbn [map elements_equal JsNum.strict_eqb].
    destruct (Qeq_bool x y) eqn:E.
    + apply Qeq_bool_iff in E. rewrite (IH c Hlen). split.
      * intros H. constructor; assumption.
      * intros H. inversion H; subst. assumption.
    + split; [discriminate|]. intros H. inversion H as [|? ? ? ? Hxy _]; subst.
      apply Qeq_bool_iff in Hxy. congruence.
Qed.

Lemma squared_distance_Qeq (p c : list Q) :
  Forall2 Qeq p c -> (squared_distance p c == 0)%Q.
Proof.
  induction 1 as [|x y p c Hxy _ IH]; simpl; [reflexivity|].
  rewrite IH, Hxy. ring.
Qed.

Lemma Qsquare_zero (q : Q) : (q * q <= 0)%Q -> (q == 0)%Q.
Proof.
  destruct q as [a b]. unfold Qle, Qeq, Qmult. simpl. nia.
Qed.

Lemma squared_distance_le_0 (p c : list Q) :
  length c = length p -> (squared_distance p c <= 0)%Q -> Forall2 Qeq p c.
Proof.
  revert c. induction p as [|x p IH]; intros [|y c] Hlen Hd; try discriminate;
    [constructor|].
  simpl in Hlen, Hd. injection Hlen as Hlen.
  pose proof (squared_distance_nonneg p c) as Hrest.
  pose proof (Qsquare_nonneg (x - y)) as Hsq.
  constructor.
  - assert (Hx : ((x - y) * (x - y) <= 0)%Q).
    { apply Qle_trans with (2 := Hd).
      rewrite <- (Qplus_0_r ((x - y) * (x - y))) at 1.
      apply Qplus_le_r. exact Hrest. }
    apply Qsquare_zero in Hx.
    rewrite <- (Qplus_inj_r _ _ (- y)). rewrite Qplus_opp_r. exact Hx.
  - apply IH; [exact Hlen|].
    apply Qle_trans with (2 := Hd).
    rewrite <- (Qplus_0_l (squared_distance p c)) at 1.
    apply Qplus_le_l. exact Hsq.
Qed.

(** What [first_equal] finds: the first candidate equal to the point. *)
Lemma first_equal_spec (p : list Q) (qss : list (list Q)) (i0 i : Z) :
  Forall (fun c => length c = length p) qss ->
  first_equal (map Num p) (map array_of qss) i0 = Some i ->
  exists j cj,
    i = i0 + Z.of_nat j /\ qss !! j = Some cj /\ Forall2 Qeq p cj /\
    (forall j' c', (j' < j)%nat -> qss !! j' = Some c' -> ~ Forall2 Qeq p c').
Proof.
  intros Hall. revert i0. induction Hall as [|c qss Hc Hall IH]; intros i0 H.
  - discriminate.
  - cbn [map first_equal] in H. unfold array_of at 1 in H.
    destruct (elements_equal (map Num p) (map Num c)) eqn:E.
    + injection H as <-. apply elements_equal_Qeq in E; [|exact Hc].
      exists 0%nat, c. split; [lia|]. split; [reflexivity|]. split; [exact E|].
      intros j' c' Hlt. lia.
    + destruct (IH _ H) as (j & cj & -> & Hj & Heq & Hfirst).
      exists (S j), cj. split; [lia|]. split; [exact Hj|]. split; [exact Heq|].
      intros [|j'] c' Hlt Hj'.
      * injection Hj' as <-. intros Hq.
        apply elements_equal_Qeq in Hq; [congruence | exact Hc].
      * apply (Hfirst j' c'); [lia | exact Hj'].
Qed.

(** A point that has an exact match is assigned to the first one. *)
Lemma exact_match_nearest (point : array) (neighbors : list value) (i : Z) :
  exact_match point neighbors = Some i ->
  nearestNeighbor point neighbors = Return i.
Proof.
  unfold exact_match. destruct (comparable point neighbors) eqn:Hc; [|discriminate].
  destruct (comparable_finite _ _ Hc) as (p & qss & -> & -> & Hall).
  intros Hfirst.
  destruct (first_equal_spec p qss 0 i Hall Hfirst) as (j & cj & -> & Hj & Heq & Hmin).
  assert (Hne : qss <> []) by (intros ->; discriminate).
  destruct (nearest_first_minimum p qss Hne Hall) as (i' & ci & Hnn & Hi' & Hle & Hlt).
  rewrite Hnn. f_equal.
  assert (Hzero : (squared_distance p ci <= 0)%Q).
  { rewrite <- (squared_distance_Qeq p cj Heq). apply (Hle j cj Hj). }
  assert (Hci : Forall2 Qeq p ci).
  { apply squared_distance_le_0; [|exact Hzero].
    eapply Forall_lookup_1 in Hi'; [exact Hi' | exact Hall]. }
  destruct (lt_eq_lt_dec i' j) as [[Hlt'|Heq']|Hgt].
  - exfalso. exact (Hmin i' ci Hlt' Hi' Hci).
  - subst. simpl. reflexivity.
  - exfalso. specialize (Hlt j cj Hgt Hj).
    rewrite (squared_distance_Qeq p cj Heq) in Hlt.
    exact (Qlt_not_le _ _ Hlt (squared_distance_nonneg p ci)).
Qed.

Lemma exact_assign_assign (points : list array) (centroids : list value)
    (clusters clusters' : list (list array)) :
  exact_assign points centroids clusters = Some clusters' ->
  assign_points points centroids clusters = Return clusters'.
Proof.
  revert clusters. induction points as [|point rest IH]; intros clusters H.
  - injection H as <-. reflexivity.
  - cbn [exact_assign] in H. cbn [assign_points].
    destruct (exact_match point centroids) as [i|] eqn:Hm; [|discriminate].
    rewrite (exact_match_nearest _ _ _ Hm). cbn [obind].
    destruct (js_get clusters i); [|discriminate].
    apply IH. exact H.
Qed.

Lemma exact_passes_passes (n : nat) (random : generator) (dataset : list array)
    (k : Z) (centroids : list value) (h : heap) (state : list value * heap) :
  exact_passes n random dataset k centroids h = Some state ->
  passes n random dataset k centroids h = Some state.
Proof.
  revert centroids h. induction n as [|n IH]; intros centroids h H; [exact H|].
  cbn [exact_passes] in H. cbn [passes]. unfold kMeans_iteration.
  destruct (empty_clusters k) as [clusters0| |]; try discriminate.
  destruct (exact_assign dataset centroids clusters0) as [clusters|] eqn:Ha;
    [|discriminate].
  unfold bind at 1. unfold lift at 1. unfold bind at 1. unfold lift at 1.
  rewrite (exact_assign_assign _ _ _ _ Ha).
  destruct (update_centroids (Z.to_nat k) 0 random dataset clusters true centroids h)
    as [[[[|] cs]| |] h1]; try discriminate.
  apply IH. exact H.
Qed.

(** With [k = 11] the state reached after four passes recurs 29160 passes
    later, no pass in between having broken out of the loop. *)
Lemma dataset11_recurs :
  exists centroids0 h0 centroids4 h4,
    initial_centroids 11 0 dataset11 [] [0] = (Return centroids0, h0) /\
    passes 4 0 dataset11 11 centroids0 h0 = Some (centroids4, h4) /\
    passes (Z.to_nat 29160) 0 dataset11 11 centroids4 h4 = Some (centroids4, h4).
Proof.
  do 4 eexists. split; [vm_compute; reflexivity|].
  split; [vm_compute; reflexivity|].
  apply exact_passes_passes.
  match goal with |- _ = ?state => vm_cast_no_check (@eq_refl _ state) end.
Qed.

Lemma dataset11_diverges : diverges dataset11 (Some 11) [].
Proof.
  intros fuel.
  destruct dataset11_recurs as (cs0 & h0 & cs4 & h4 & Hinit & H4 & Hcycle).
  destruct (kMeans_unfold fuel dataset11 11 []) as (cs & h & Hinit' & _ & ->).
  change (Z.to_nat 11) with 11%nat in Hinit'. change (length (@nil Z)) with 0%nat in *.
  change (@nil Z ++ [0]) with [0] in Hinit'.
  rewrite Hinit in Hinit'. injection Hinit' as <- <-.
  apply kMeans_while_passes. apply (passes_prefix fuel 4).
  rewrite Nat.add_comm, passes_add, H4.
  apply passes_cycle with (p := Z.to_nat 29160); [lia | exact Hcycle].
Qed.

Lemma dataset11_diverges_any_heap (h : heap) : diverges dataset11 (Some 11) h.
Proof.
  intros fuel. rewrite (kMeans_any_heap fuel dataset11 (Some 11) h []).
  apply dataset11_diverges.
Qed.

Lemma get_set_value_ne (centroids : list value) (i j : nat) (v : value) :
  (i < length centroids)%nat -> j <> i ->
  get_value (set_value centroids i v) j = get_value centroids j.
Proof.
  intros Hi Hj. unfold get_value, set_value.
  destruct (i <? length centroids)%nat eqn:E; [|apply Nat.ltb_ge in E; lia].
  rewrite list_lookup_insert_ne by lia. reflexivity.
Qed.

Lemma get_set_value_eq (centroids : list value) (i : nat) (v : value) :
  (i < length centroids)%nat ->
  get_value (set_value centroids i v) i = v.
Proof.
  intros Hi. unfold get_value, set_value.
  destruct (i <? length centroids)%nat eqn:E; [|apply Nat.ltb_ge in E; lia].
  rewrite list_lookup_insert_eq by exact Hi. reflexivity.
Qed.

(** The update loop run from index [i] leaves the centroids below [i] as
    they are. *)
Lemma update_centroids_below (todo i : nat) (random : generator)
    (dataset : list array) (clusters : list (list array)) (converged : bool)
    (centroids : list value) (h h' : heap) (r : bool * list value) :
  update_centroids todo i random dataset clusters converged centroids h
    = (Return r, h') ->
  (i + todo <= length centroids)%nat ->
  forall j, (j < i)%nat -> get_value (snd r) j = get_value centroids j.
Proof.
  revert i converged centroids h.
  induction todo as [|todo IH]; intros i converged centroids h Hrun Hbound j Hj.
  - cbn in Hrun. injection Hrun as <- _. reflexivity.
  - cbn [update_centroids] in Hrun.
    apply bind_returns in Hrun as (centroid_i & h1 & _ & Hrun).
    apply bind_returns in Hrun as (converged' & h2 & _ & Hrun).
    rewrite (IH _ _ _ _ Hrun) by (rewrite ?set_value_length; lia).
    apply get_set_value_ne; lia.
Qed.

(** A pass whose flag is false at the end either began with it false or
    stored, at some index, a centroid that [isArrayEqual] told apart from the
    one it replaces. *)
Lemma update_centroids_changed (todo i : nat) (random : generator)
    (dataset : list array) (clusters : list (list array)) (converged : bool)
    (centroids centroids' : list value) (h h' : heap) :
  update_centroids todo i random dataset clusters converged centroids h
    = (Return (false, centroids'), h') ->
  (i + todo <= length centroids)%nat ->
  converged = false \/
  exists j, (i <= j < i + todo)%nat /\
    isArrayEqual (get_value centroids' j) (get_value centroids j) = Return false.
Proof.
  revert i converged centroids h.
  induction todo as [|todo IH]; intros i converged centroids h Hrun Hbound.
  - cbn in Hrun. injection Hrun as -> _ _. left. reflexivity.
  - cbn [update_centroids] in Hrun.
    apply bind_returns in Hrun as (centroid_i & h1 & _ & Hrun).
    apply bind_returns in Hrun as (converged' & h2 & Hconv & Hrun).
    pose proof (update_centroids_below _ _ _ _ _ _ _ _ _ _ Hrun) as Hbelow.
    cbn [snd] in Hbelow.
    apply IH in Hrun as [->|(j & Hj & Hne)]; [| |rewrite set_value_length; lia].
    + destruct converged; [|left; reflexivity]. right.
      apply lift_returns in Hconv as [Hconv _].
      exists i. split; [lia|].
      rewrite Hbelow by (rewrite ?set_value_length; lia).
      rewrite get_set_value_eq by lia. exact Hconv.
    + right. exists j. split; [lia|].
      rewrite get_set_value_ne in Hne by lia. exact Hne.
Qed.

(** The flag of a pass that returns is true exactly when the pass left every
    centroid unchanged. *)
Lemma kMeans_iteration_flag (random : generator) (dataset : list array)
    (k : Z) (centroids centroids' : list value) (converged : bool) (h h' : heap) :
  kMeans_iteration random dataset k centroids h = (Return (converged, centroids'), h') ->
  length centroids = Z.to_nat k ->
  converged = true <-> unchanged centroids' centroids.
Proof.
  intros Hrun Hlen. split.
  - intros ->. exact (kMeans_iteration_converged _ _ _ _ _ _ _ Hrun Hlen).
  - intros Hsame. destruct converged; [reflexivity|]. exfalso.
    unfold kMeans_iteration in Hrun.
    apply bind_returns in Hrun as (clusters0 & h0 & _ & Hrun).
    apply bind_returns in Hrun as (clusters & h1 & _ & Hrun).
    apply update_centroids_changed in Hrun as [?|(j & Hj & Hne)];
      [discriminate | | lia].
    rewrite (Hsame j) in Hne by lia. discriminate.
Qed.

Lemma passes_changing (n : nat) (random : generator) (dataset : list array)
    (k : Z) (centroids centroids_n : list value) (h hn : heap) :
  length centroids = Z.to_nat k ->
  passes n random dataset k centroids h = Some (centroids_n, hn) <->
  changing_passes n random dataset k centroids h centroids_n hn.
Proof.
  revert centroids h. induction n as [|n IH]; intros centroids h Hlen.
  - cbn. split.
    + intros H. injection H as <- <-. split; reflexivity.
    + intros [-> ->]. reflexivity.
  - cbn [passes changing_passes]. unfold pass, bind, ret.
    destruct (kMeans_iteration random dataset k centroids h)
      as [[[b cs1]| |] h1] eqn:Hit; cbn [snd].
    + pose proof (kMeans_iteration_flag _ _ _ _ _ _ _ _ Hit Hlen) as Hflag.
      apply kMeans_iteration_length in Hit as [_ Hcs]; [|exact Hlen].
      cbn [snd] in Hcs. destruct b.
      * split; [discriminate|].
        intros (cs' & h2 & Heq & Hch & _). injection Heq as <- <-.
        exfalso. apply Hch. apply Hflag. reflexivity.
      * rewrite (IH cs1 h1 Hcs). split.
        -- intros Hp. exists cs1, h1. split; [reflexivity|]. split; [|exact Hp].
           intros Hsame. apply Hflag in Hsame. discriminate.
        -- intros (cs' & h2 & Heq & _ & Hp). injection Heq as <- <-. exact Hp.
    + split; [discriminate|]. intros (cs' & h2 & Heq & _). discriminate.
    + split; [discriminate|]. intros (cs' & h2 & Heq & _). discriminate.
Qed.

(** C2 (as amended). [kMeans] has no bound on the number of passes: it
    returns exactly when, after passes that each changed some centroid, a
    pass leaves every centroid unchanged under [isArrayEqual], and what it
    returns is the centroids of that pass. *)
Theorem kMeans_returns_iff_converged (fuel : nat) (dataset : list array) (k : Z)
    (h : heap) (palette : list value) :
  fst (kMeans fuel dataset (Some k) h) = Return palette <->
  exists centroids0 h0 n centroids hn h',
    initial_centroids (Z.to_nat k) (length h) dataset [] (h ++ [0])
      = (Return centroids0, h0) /\
    (n < fuel)%nat /\
    changing_passes n (length h) dataset k centroids0 h0 centroids hn /\
    pass (length h) dataset k centroids hn = (Return palette, h') /\
    unchanged palette centroids.
Proof.
  destruct (kMeans_unfold fuel dataset k h) as (cs0 & h0 & Hinit & Hlen & ->).
  rewrite kMeans_while_returns_iff. split.
  - intros (n & cs & hn & h' & Hn & Hp & Hlast).
    exists cs0, h0, n, cs, hn, h'.
    split; [exact Hinit|]. split; [exact Hn|].
    split; [apply passes_changing; assumption|].
    split; [unfold pass, bind; rewrite Hlast; reflexivity|].
    refine (kMeans_iteration_converged _ _ _ _ _ _ _ Hlast _).
    eapply passes_length; eauto.
  - intros (cs0' & h0' & n & cs & hn & h' & Hinit' & Hn & Hp & Hlast & Hsame).
    rewrite Hinit in Hinit'. injection Hinit' as <- <-.
    apply passes_changing in Hp; [|exact Hlen].
    exists n, cs, hn, h'. split; [exact Hn|]. split; [exact Hp|].
    unfold pass, bind, ret in Hlast.
    destruct (kMeans_iteration (length h) dataset k cs hn)
      as [[[b cs1]| |] h1] eqn:Hit; try discriminate.
    cbn [snd] in Hlast. injection Hlast as -> ->.
    assert (Hb : b = true).
    { apply (kMeans_iteration_flag _ _ _ _ _ _ _ _ Hit); [|exact Hsame].
      eapply passes_length; eauto. }
    rewrite Hb. reflexivity.
Qed.

(** C2, refuted as stated: on [dataset11] with [k = 11] no amount of fuel
    lets [kMeans] finish, in whatever heap it is called. *)
Lemma kMeans_terminates_counterexample :
  dataset11 <> [] /\ 1 <= 11 /\
  ~ (exists fuel h, fst (kMeans fuel dataset11 (Some 11) h) <> OutOfFuel).
Proof.
  split; [discriminate|]. split; [lia|].
  intros (fuel & h & H). apply H. apply dataset11_diverges_any_heap.
Qed.

(** C3 (as amended). [kMeans] does not clamp [k]: for a non-empty dataset
    and [k] above its size, a palette it returns has exactly [k] centroids. *)
Theorem kMeans_does_not_clamp (fuel : nat) (dataset : list array) (k : Z)
    (h : heap) (palette : list value) :
  dataset <> [] ->
  Z.of_nat (length dataset) < k ->
  fst (kMeans fuel dataset (Some k) h) = Return palette ->
  Z.of_nat (length palette) = k.
Proof.
  intros _ _. apply kMeans_returns_k_centroids.
Qed.

Lemma kMeans_does_not_clamp_witness :
  Z.of_nat (length [Some (pixel [7; 7; 7; 255]); Some (pixel [7; 7; 7; 255])]) = 2.
Proof.
  apply (kMeans_does_not_clamp 1 [pixel [7; 7; 7; 255]] 2 []).
  - discriminate.
  - simpl. lia.
  - vm_compute. reflexivity.
Defined.

(** C3, refuted as stated: a dataset of one pixel and [k = 2] give a palette
    of two centroids, not one. *)
Lemma kMeans_clamp_counterexample :
  exists palette,
    fst (kMeans 1 [pixel [7; 7; 7; 255]] (Some 2) []) = Return palette /\
    length palette <> length [pixel [7; 7; 7; 255]].
Proof.
  eexists. split; [vm_compute; reflexivity|]. simpl. lia.
Qed.

(** C5 (as amended). For a dataset whose pixels all have [C] channels and
    [1 <= k <= |dataset|], a palette [kMeans] returns has exactly [k]
    centroids, each an array of exactly [C] numbers. *)
Theorem kMeans_palette_shape (fuel : nat) (dataset : list array) (k : Z) (C : nat)
    (h : heap) (palette : list value) :
  Forall (fun p : array => length p = C) dataset ->
  1 <= k <= Z.of_nat (length dataset) ->
  fst (kMeans fuel dataset (Some k) h) = Return palette ->
  Z.of_nat (length palette) = k /\
  Forall (fun c : value => exists p, c = Some p /\ length p = C) palette.
Proof.
  intros Hd Hk Hrun. split; [eapply kMeans_returns_k_centroids; exact Hrun|].
  assert (Hne : dataset <> []) by (intros ->; simpl in Hk; lia).
  unfold kMeans in Hrun.
  rewrite (bind_step _ _ h (h ++ [0]) (length h)) in Hrun by reflexivity.
  destruct (initial_centroids_channels C (Z.to_nat k) (length h) dataset [] (h ++ [0]))
    as (cs & h0 & Hinit & Hlen & Hch & Hs); try assumption.
  - constructor.
  - unfold seed_ok. rewrite lookup_app_r by lia. rewrite Nat.sub_diag. simpl. lia.
  - rewrite (bind_step _ _ _ _ _ Hinit) in Hrun.
    destruct (kMeans_while fuel (length h) dataset k cs h0) as [o h1] eqn:Hw.
    simpl in Hrun. subst o.
    eapply kMeans_while_channels; eauto.
Qed.

Lemma kMeans_palette_shape_witness :
  Z.of_nat (length [Some [Num (10 # 2); Num (10 # 2); Num (10 # 2); Num (510 # 2)];
                    Some [Num (505 # 2); Num (505 # 2); Num (505 # 2); Num (510 # 2)]]) = 2 /\
  Forall (fun c : value => exists p, c = Some p /\ length p = 4%nat)
    [Some [Num (10 # 2); Num (10 # 2); Num (10 # 2); Num (510 # 2)];
     Some [Num (505 # 2); Num (505 # 2); Num (505 # 2); Num (510 # 2)]].
Proof.
  apply (kMeans_palette_shape 3
           [pixel [0; 0; 0; 255]; pixel [10; 10; 10; 255];
            pixel [250; 250; 250; 255]; pixel [255; 255; 255; 255]] 2 4 []).
  - repeat constructor.
  - simpl. lia.
  - vm_compute. reflexivity.
Defined.

(** C5, refuted as stated: [dataset11] has eleven pixels of four channels
    and [k = 11] is within its size, yet [kMeans] returns no palette. *)
Lemma kMeans_palette_counterexample :
  Forall (fun p : array => length p = 4%nat) dataset11 /\
  1 <= 11 <= Z.of_nat (length dataset11) /\
  ~ (exists fuel h palette,
        fst (kMeans fuel dataset11 (Some 11) h) = Return palette).
Proof.
  split; [repeat constructor|]. split; [simpl; lia|].
  intros (fuel & h & palette & H). rewrite dataset11_diverges_any_heap in H.
  discriminate.
Qed.


(** ** kMeans on the inputs the specification calls invalid *)

Lemma js_get_nil {A} (i : Z) : js_get (@nil A) i = None.
Proof. unfold js_get. destruct (i <? 0); reflexivity. Qed.

Lemma initial_centroids_empty_dataset (todo : nat) (random : generator)
    (centroids : list value) (h : heap) :
  exists h',
    initial_centroids todo random [] centroids h
      = (Return (centroids ++ replicate todo None), h').
Proof.
  revert centroids h. induction todo as [|todo IH]; intros centroids h.
  - exists h. simpl. rewrite app_nil_r. reflexivity.
  - cbn [initial_centroids].
    rewrite (bind_step _ _ _ _ _ (random_point_spec random [] h)). cbv beta.
    rewrite js_get_nil.
    destruct (IH (centroids ++ [None]) (<[random := next_seed (default 0 (h !! random))]> h))
      as [h' Hrun].
    exists h'. rewrite Hrun. rewrite <- app_assoc. reflexivity.
Qed.

Lemma never_InvalidInput {A} (o : outcome A) : ~ fails_with "InvalidInput" o.
Proof. intros (e & _ & He). destruct e; discriminate. Qed.

(** C4 (as amended). [kMeans] validates nothing and raises no InvalidInput.
    On an empty dataset it returns the empty palette when [k] is 0 or
    omitted and throws a TypeError when [1 <= k <= 2^32 - 1]; on a non-empty
    dataset with [k = 0] it throws a TypeError; with [k < 0] it throws a
    RangeError whatever the dataset. *)
Theorem kMeans_invalid_input (fuel : nat) (dataset : list array) (k : option Z)
    (h : heap) :
  dataset = [] \/ (exists z, k = Some z /\ z < 1) ->
  (forall z, k = Some z -> z <= 4294967295) ->
  fst (kMeans (S fuel) dataset k h) =
    match k with
    | None => Return []
    | Some z =>
        if z <? 0 then Throw RangeError
        else if z =? 0 then
          match dataset with
          | [] => Return []
          | _ :: _ => Throw TypeError
          end
        else Throw TypeError
    end /\
  ~ fails_with "InvalidInput" (fst (kMeans (S fuel) dataset k h)).
Proof.
  intros Hinvalid Hmax. split; [|apply never_InvalidInput]. destruct k as [z|].
  - specialize (Hmax z eq_refl). destruct z as [|p|p].
    + destruct dataset; reflexivity.
    + destruct Hinvalid as [->|(z & Hz & Hlt)]; [|injection Hz as <-; lia].
      change (Z.pos p <? 0) with false. change (Z.pos p =? 0) with false. cbv iota.
      unfold kMeans.
      rewrite (bind_step _ _ h (h ++ [0]) (length h)) by reflexivity.
      destruct (initial_centroids_empty_dataset (Z.to_nat (Z.pos p)) (length h) [] (h ++ [0]))
        as [h0 Hinit].
      rewrite (bind_step _ _ _ _ _ Hinit). cbn [app kMeans_while].
      unfold bind, kMeans_iteration, bind, lift, empty_clusters.
      destruct ((Z.pos p <? 0) || (4294967295 <? Z.pos p)) eqn:E.
      { apply orb_true_iff in E as [E|E]; [discriminate|]. apply Z.ltb_lt in E. lia. }
      cbn [assign_points].
      destruct (Z.to_nat (Z.pos p)) as [|n] eqn:En; [lia|].
      cbn [update_centroids replicate lookup list_lookup]. unfold bind.
      rewrite random_point_spec, js_get_nil. reflexivity.
    + reflexivity.
  - destruct Hinvalid as [->|(z & Hz & _)]; [reflexivity | discriminate].
Qed.

Lemma kMeans_invalid_input_witness :
  fst (kMeans 1 [] (Some 3) []) = Throw TypeError /\
  ~ fails_with "InvalidInput" (fst (kMeans 1 [] (Some 3) [])).
Proof.
  apply (kMeans_invalid_input 0 [] (Some 3) []).
  - left. reflexivity.
  - intros z Hz. injection Hz as <-. lia.
Defined.

(** C4, refuted as stated: on the empty dataset with [k = 0] a palette is
    returned and nothing is thrown; on a non-empty dataset with [k = 0] what
    is thrown is a TypeError; neither call fails with InvalidInput. *)
Lemma kMeans_invalid_input_counterexample :
  fst (kMeans 1 [] (Some 0) []) = Return [] /\
  ~ fails_with "InvalidInput" (fst (kMeans 1 [] (Some 0) [])) /\
  fst (kMeans 1 [pixel [1; 2; 3; 255]] (Some 0) []) = Throw TypeError /\
  ~ fails_with "InvalidInput" (fst (kMeans 1 [pixel [1; 2; 3; 255]] (Some 0) [])).
Proof.
  split; [reflexivity|]. split; [apply never_InvalidInput|].
  split; [reflexivity | apply never_InvalidInput].
Qed.


(** ** quantize and the identifier [centroids] *)

(** C1, as the code behaves. The colour written for a pixel is read from
    whatever the free identifier [centroids] is bound to, at the index
    [nearestNeighbor] computed in [colors].  With no such binding, as in
    [m-core.js], the call throws a ReferenceError; with another palette
    bound, that palette's entry is written and not the entry of [colors]. *)
Theorem quantize_reads_outer_centroids :
  quantize None one_pixel [Some (pixel [0; 0; 0; 255])] = Throw ReferenceError /\
  quantize (Some [Some (pixel [200; 200; 200; 255])]) one_pixel
    [Some (pixel [0; 0; 0; 255])] = Return [200; 200; 200; 255] /\
  quantize (Some [Some (pixel [0; 0; 0; 255])]) one_pixel
    [Some (pixel [0; 0; 0; 255])] = Return [0; 0; 0; 255].
Proof. repeat split; vm_compute; reflexivity. Qed.

(** ** rescaleDimensions *)

(** C7, refuted as stated: for a square image of side [2^27] and a budget of
    [(2^26 + 1)^2 - 1] pixels, binary64 rounds the square root up to
    [2^26 + 1], and the rescaled area exceeds the budget by one pixel. *)
Lemma rescaleDimensions_budget_counterexample :
  exists w' h',
    rescaleDimensions (Binary64.of_Z 134217728) (Binary64.of_Z 134217728)
      (Binary64.of_Z 4503599761588224) = (w', h') /\
    Binary64.to_Z w' = Some 67108865 /\
    Binary64.to_Z h' = Some 67108865 /\
    Binary64.to_Z (Binary64.of_Z 4503599761588224) = Some 4503599761588224 /\
    4503599761588224 < 67108865 * 67108865.
Proof.
  do 2 eexists. split; [vm_compute; reflexivity|].
  repeat split; vm_compute; reflexivity.
Qed.

Lemma bpow_m52_small : (0 < bpow (-52) <= / 1024)%R.
Proof.
  split; [apply bpow_pos|].
  assert (Ho : (bpow 52 * bpow (-52) = 1)%R) by exact (bpow_opp 52).
  assert (Hb : (1024 <= bpow 52)%R).
  { rewrite bpow_IZR by lia. apply IZR_le. lia. }
  pose proof (bpow_pos (-52)). nra.
Qed.

Lemma bpow_half : bpow (-1) = (/ 2)%R.
Proof.
  assert (Ho : (bpow 1 * bpow (-1) = 1)%R) by exact (bpow_opp 1).
  rewrite bpow_1 in Ho. lra.
Qed.

Lemma rel_bounds (u x v lo hi : R) :
  (0 < u <= / 1024)%R -> (x * (1 - u) <= v <= x * (1 + u))%R ->
  (lo <= x <= hi)%R -> (0 < lo)%R -> (/ 2 * lo <= v <= 2 * hi)%R.
Proof. intros Hu Hv Hx Hlo. split; nra. Qed.

(** The four rounded operations of [rescaleDimensions] on positive integers:
    each result is a positive normal number within [2^-52], relatively, of
    the exact result on the values of its operands. *)
Lemma rescale_values (w h pixels : Z) :
  0 < w < 2 ^ 53 -> 0 < h < 2 ^ 53 -> 0 < pixels < 2 ^ 53 ->
  exists A Q S M : R,
    pos_normal (Binary64.of_Z w / Binary64.of_Z h)%float A /\
    pos_normal (Binary64.of_Z pixels / (Binary64.of_Z w / Binary64.of_Z h))%float Q /\
    pos_normal (PrimFloat.sqrt
                  (Binary64.of_Z pixels / (Binary64.of_Z w / Binary64.of_Z h)))%float S /\
    pos_normal ((Binary64.of_Z w / Binary64.of_Z h) *
                PrimFloat.sqrt
                  (Binary64.of_Z pixels / (Binary64.of_Z w / Binary64.of_Z h)))%float M /\
    (IZR w / IZR h * (1 - bpow (-52)) <= A <= IZR w / IZR h * (1 + bpow (-52)))%R /\
    (IZR pixels / A * (1 - bpow (-52)) <= Q <= IZR pixels / A * (1 + bpow (-52)))%R /\
    (sqrt Q * (1 - bpow (-52)) <= S <= sqrt Q * (1 + bpow (-52)))%R /\
    (A * S * (1 - bpow (-52)) <= M <= A * S * (1 + bpow (-52)))%R.
Proof.
  intros Hw Hh Hp.
  set (W := IZR w). set (H := IZR h). set (P := IZR pixels).
  pose proof bpow_m52_small as Hu.
  pose proof (of_Z_pos_normal w Hw) as Nw.
  pose proof (of_Z_pos_normal h Hh) as Nh.
  pose proof (of_Z_pos_normal pixels Hp) as Np.
  fold W in Nw. fold H in Nh. fold P in Np.
  assert (HW : (1 <= W <= bpow 53)%R).
  { unfold W. rewrite bpow_IZR by lia. split; apply IZR_le; lia. }
  assert (HH : (1 <= H <= bpow 53)%R).
  { unfold H. rewrite bpow_IZR by lia. split; apply IZR_le; lia. }
  assert (HP : (1 <= P <= bpow 53)%R).
  { unfold P. rewrite bpow_IZR by lia. split; apply IZR_le; lia. }
  pose proof (bpow_pos 53) as Hp53.
  assert (Hinv53 : (bpow (-53) * bpow 53 = 1)%R).
  { rewrite Rmult_comm. exact (bpow_opp 53). }
  pose proof (bpow_pos (-53)) as Hpm53.
  (* a = w / h *)
  assert (HWH : (bpow (-53) <= W / H <= bpow 53)%R).
  { assert (E : (W = W / H * H)%R) by (field; lra).
    assert (0 < W / H)%R by (apply Rdiv_lt_0_compat; lra).
    set (r := (W / H)%R) in *. split.
    - apply Rmult_le_reg_r with (bpow 53); [lra|]. rewrite Hinv53. nra.
    - nra. }
  destruct (div_pos_normal _ _ W H Nw Nh) as (A & NA & HA).
  { pose proof (bpow_le (-1021) (-53) ltac:(lia)). pose proof (bpow_le 53 1022 ltac:(lia)).
    lra. }
  assert (HArange : (bpow (-54) <= A <= bpow 54)%R).
  { pose proof (bpow_add (-1) (-53)) as E1. pose proof (bpow_add 1 53) as E2.
    change (-1 + -53) with (-54) in E1. change (1 + 53) with 54 in E2.
    rewrite bpow_1 in E2. rewrite bpow_half in E1. rewrite E1, E2.
    apply (rel_bounds (bpow (-52)) (W / H)); [exact Hu | exact HA | exact HWH | exact Hpm53]. }
  (* q = P / a *)
  assert (HPA : (bpow (-54) <= P / A <= bpow 107)%R).
  { assert (HApos : (0 < A)%R) by (pose proof (bpow_pos (-54)); lra).
    assert (E : (P = P / A * A)%R) by (field; lra).
    assert (0 < P / A)%R by (apply Rdiv_lt_0_compat; lra).
    assert (Ho : (bpow 54 * bpow (-54) = 1)%R) by exact (bpow_opp 54).
    pose proof (bpow_add 53 54) as E2. change (53 + 54) with 107 in E2.
    pose proof (bpow_pos 54). pose proof (bpow_pos (-54)).
    set (r := (P / A)%R) in *. split.
    - apply Rmult_le_reg_r with (bpow 54); [lra|].
      rewrite (Rmult_comm (bpow (-54))), Ho. nra.
    - apply Rmult_le_reg_r with (bpow (-54)); [lra|].
      rewrite E2, Rmult_assoc, Ho. nra. }
  destruct (div_pos_normal _ _ P A Np NA) as (Q & NQ & HQ).
  { pose proof (bpow_le (-1021) (-54) ltac:(lia)). pose proof (bpow_le 107 1022 ltac:(lia)).
    lra. }
  destruct (sqrt_pos_normal _ Q NQ) as (S & NS & HS).
  pose proof (pos_normal_pos _ _ NQ) as HQpos.
  pose proof (pos_normal_pos _ _ NS) as HSpos.
  pose proof (pos_normal_pos _ _ NA) as HApos.
  (* m = a * s *)
  assert (HQrange : (bpow (-55) <= Q <= bpow 108)%R).
  { pose proof (bpow_add (-1) (-54)) as E1. pose proof (bpow_add 1 107) as E2.
    change (-1 + -54) with (-55) in E1. change (1 + 107) with 108 in E2.
    rewrite bpow_1 in E2. rewrite bpow_half in E1. rewrite E1, E2.
    apply (rel_bounds (bpow (-52)) (P / A)); [exact Hu | exact HQ | exact HPA | apply bpow_pos]. }
  assert (HsqrtQ : (bpow (-28) <= sqrt Q <= bpow 54)%R).
  { split.
    - rewrite <- (sqrt_square (bpow (-28))) by (apply Rlt_le, bpow_pos).
      apply sqrt_le_1_alt. rewrite <- bpow_add. change (-28 + -28) with (-56).
      pose proof (bpow_le (-56) (-55) ltac:(lia)). lra.
    - rewrite <- (sqrt_square (bpow 54)) by (apply Rlt_le, bpow_pos).
      apply sqrt_le_1_alt. rewrite <- bpow_add. change (54 + 54) with 108. lra. }
  assert (HSrange : (bpow (-29) <= S <= bpow 55)%R).
  { pose proof (bpow_add (-1) (-28)) as E1. pose proof (bpow_add 1 54) as E2.
    change (-1 + -28) with (-29) in E1. change (1 + 54) with 55 in E2.
    rewrite bpow_1 in E2. rewrite bpow_half in E1. rewrite E1, E2.
    apply (rel_bounds (bpow (-52)) (sqrt Q)); [exact Hu | exact HS | exact HsqrtQ | apply bpow_pos]. }
  destruct (mul_pos_normal _ _ A S NA NS) as (M & NM & HM).
  { pose proof (bpow_add (-54) (-29)) as E1. pose proof (bpow_add 54 55) as E2.
    change (-54 + -29) with (-83) in E1. change (54 + 55) with 109 in E2.
    pose proof (bpow_le (-1021) (-83) ltac:(lia)). pose proof (bpow_le 109 1022 ltac:(lia)).
    pose proof (bpow_pos (-54)). pose proof (bpow_pos (-29)). split; nra. }
  exists A, Q, S, M. repeat split; try assumption; tauto.
Qed.

Lemma pow4_bound (u : R) : (0 < u <= / 1024)%R ->
  ((1 + u) * (1 + u) * (1 + u) * (1 + u) <= 1 + 4 * u + 7 * (u * u))%R.
Proof. intros Hu. nra. Qed.

Lemma rescale_budget (w h pixels : Z) :
  0 < w < 2 ^ 53 -> 0 < h < 2 ^ 53 -> 0 < pixels < 2 ^ 50 ->
  exists w' h',
    Binary64.to_Z (fst (rescaleDimensions (Binary64.of_Z w) (Binary64.of_Z h)
                          (Binary64.of_Z pixels))) = Some w' /\
    Binary64.to_Z (snd (rescaleDimensions (Binary64.of_Z w) (Binary64.of_Z h)
                          (Binary64.of_Z pixels))) = Some h' /\
    0 <= w' /\ 0 <= h' /\ w' * h' <= pixels.
Proof.
  intros Hw Hh Hp.
  assert (Hp' : 0 < pixels < 2 ^ 53).
  { split; [lia|]. apply Z.lt_trans with (2 ^ 50); [lia | reflexivity]. }
  destruct (rescale_values w h pixels Hw Hh Hp')
    as (A & Q & S & M & NA & NQ & NS & NM & HA & HQ & HS & HM).
  unfold rescaleDimensions. cbn [fst snd].
  destruct (floor_pos_normal _ M NM) as (w' & Hw' & Hw0 & HwM).
  destruct (floor_pos_normal _ S NS) as (h' & Hh' & Hh0 & HhS).
  exists w', h'. split; [exact Hw'|]. split; [exact Hh'|].
  split; [exact Hw0|]. split; [exact Hh0|].
  pose proof bpow_m52_small as Hu. set (u := bpow (-52)) in *.
  pose proof (pos_normal_pos _ _ NA) as HApos.
  pose proof (pos_normal_pos _ _ NQ) as HQpos.
  pose proof (pos_normal_pos _ _ NS) as HSpos.
  pose proof (pos_normal_pos _ _ NM) as HMpos.
  set (P := IZR pixels) in *.
  assert (HP : (1 <= P)%R) by (apply IZR_le; lia).
  assert (HPu : (P * u <= / 4 - u)%R).
  { assert (HP50 : (P <= bpow 50 - 1)%R).
    { rewrite bpow_IZR by lia. unfold P. rewrite <- (minus_IZR _ 1). apply IZR_le. lia. }
    assert (E : (bpow 50 * u = / 4)%R).
    { unfold u. rewrite <- bpow_add. change (50 + -52) with (-2).
      assert (Ho : (bpow 2 * bpow (-2) = 1)%R) by exact (bpow_opp 2).
      rewrite (bpow_IZR 2) in Ho by lia. change (IZR (2 ^ 2)) with 4%R in Ho. lra. }
    assert (H1 : (P * u <= (bpow 50 - 1) * u)%R) by (apply Rmult_le_compat_r; lra).
    lra. }
  set (sq := sqrt Q) in *.
  assert (Hsq0 : (0 <= sq)%R) by apply sqrt_pos.
  assert (Hsq2 : (sq * sq = Q)%R) by (apply sqrt_sqrt; lra).
  assert (HAQ : (A * Q <= P * (1 + u))%R).
  { assert (E : (P = P / A * A)%R) by (field; lra).
    set (r := (P / A)%R) in *. destruct HQ as [_ HQ]. nra. }
  assert (HS2 : (S * S <= Q * ((1 + u) * (1 + u)))%R).
  { destruct HS as [_ HS]. rewrite <- Hsq2.
    assert (S * S <= (sq * (1 + u)) * (sq * (1 + u)))%R by nra. nra. }
  assert (HMS : (M * S <= P * ((1 + u) * (1 + u) * (1 + u) * (1 + u)))%R).
  { destruct HM as [_ HM].
    assert (H1 : (M * S <= A * (S * S) * (1 + u))%R) by nra.
    assert (H2 : (A * (S * S) <= A * Q * ((1 + u) * (1 + u)))%R) by nra.
    assert (H3 : (A * Q * ((1 + u) * (1 + u)) <= P * (1 + u) * ((1 + u) * (1 + u)))%R).
    { apply Rmult_le_compat_r; [nra | exact HAQ]. }
    nra. }
  assert (Hlt : (IZR (w' * h') < P + 1)%R).
  { rewrite mult_IZR.
    assert (Hw0' : (0 <= IZR w')%R) by (apply IZR_le; lia).
    assert (Hh0' : (0 <= IZR h')%R) by (apply IZR_le; lia).
    assert (H1 : (IZR w' * IZR h' <= M * S)%R) by nra.
    pose proof (pow4_bound u Hu) as H4.
    assert (H2 : (P * ((1 + u) * (1 + u) * (1 + u) * (1 + u))
                  <= P * (1 + 4 * u + 7 * (u * u)))%R).
    { apply Rmult_le_compat_l; lra. }
    assert (H3 : (P * (1 + 4 * u + 7 * (u * u)) = P + 4 * (P * u) + 7 * u * (P * u))%R)
      by ring.
    assert (H5 : (7 * u * (P * u) <= 7 * u * (/ 4 - u))%R).
    { apply Rmult_le_compat_l; lra. }
    nra. }
  unfold P in Hlt. rewrite <- (plus_IZR pixels 1) in Hlt. apply lt_IZR in Hlt. lia.
Qed.

Lemma pow6_bound (u : R) : (0 < u <= / 1024)%R ->
  ((1 + u) * (1 + u) * (1 + u) * (1 + u) * (1 + u) * (1 + u) <= 1 + 7 * u)%R.
Proof. intros Hu. nra. Qed.

(** An image more than [pixels] times taller than wide is given no width. *)
Lemma rescale_zero_width (w h pixels : Z) :
  0 < w -> 0 < h <= 2 ^ 49 -> 0 < pixels -> w * pixels < h ->
  Binary64.to_Z (fst (rescaleDimensions (Binary64.of_Z w) (Binary64.of_Z h)
                        (Binary64.of_Z pixels))) = Some 0.
Proof.
  intros Hw Hh Hp Hlt.
  assert (Hh' : 0 < h < 2 ^ 53).
  { split; [lia|]. apply Z.le_lt_trans with (2 ^ 49); [lia | reflexivity]. }
  assert (Hw' : 0 < w < 2 ^ 53) by nia.
  assert (Hp' : 0 < pixels < 2 ^ 53) by nia.
  destruct (rescale_values w h pixels Hw' Hh' Hp')
    as (A & Q & S & M & NA & NQ & NS & NM & HA & HQ & HS & HM).
  unfold rescaleDimensions. cbn [fst].
  destruct (floor_pos_normal _ M NM) as (n & Hn & Hn0 & HnM).
  rewrite Hn. f_equal.
  pose proof bpow_m52_small as Hu. set (u := bpow (-52)) in *.
  pose proof (pos_normal_pos _ _ NA) as HApos.
  pose proof (pos_normal_pos _ _ NQ) as HQpos.
  pose proof (pos_normal_pos _ _ NS) as HSpos.
  pose proof (pos_normal_pos _ _ NM) as HMpos.
  set (W := IZR w) in *. set (H := IZR h) in *. set (P := IZR pixels) in *.
  assert (HW : (1 <= W)%R) by (apply IZR_le; lia).
  assert (HH : (1 <= H)%R) by (apply IZR_le; lia).
  assert (HP : (1 <= P)%R) by (apply IZR_le; lia).
  assert (HWP : (W * P + 1 <= H)%R).
  { unfold W, P, H. rewrite <- mult_IZR, <- (plus_IZR _ 1). apply IZR_le. lia. }
  assert (HHu : (H * u <= / 8)%R).
  { assert (HP49 : (H <= bpow 49)%R) by (unfold H; rewrite bpow_IZR by lia; apply IZR_le; lia).
    assert (E : (bpow 49 * u = / 8)%R).
    { unfold u. rewrite <- bpow_add. change (49 + -52) with (-3).
      assert (Ho : (bpow 3 * bpow (-3) = 1)%R) by exact (bpow_opp 3).
      rewrite (bpow_IZR 3) in Ho by lia. change (IZR (2 ^ 3)) with 8%R in Ho. lra. }
    rewrite <- E. apply Rmult_le_compat_r; lra. }
  set (sq := sqrt Q) in *.
  assert (Hsq0 : (0 <= sq)%R) by apply sqrt_pos.
  assert (Hsq2 : (sq * sq = Q)%R) by (apply sqrt_sqrt; lra).
  assert (HAQ : (A * Q <= P * (1 + u))%R).
  { assert (E : (P = P / A * A)%R) by (field; lra).
    set (r := (P / A)%R) in *. destruct HQ as [_ HQ]. nra. }
  assert (HS2 : (S * S <= Q * ((1 + u) * (1 + u)))%R).
  { destruct HS as [_ HS]. rewrite <- Hsq2.
    assert (S * S <= (sq * (1 + u)) * (sq * (1 + u)))%R by nra. nra. }
  assert (HAH : (A * H <= W * (1 + u))%R).
  { assert (E : (W = W / H * H)%R) by (field; lra).
    set (r := (W / H)%R) in *. destruct HA as [_ HA]. nra. }
  (* M^2 * H <= W * P * (1 + u)^6 *)
  assert (HM2 : (M * M * H <= W * P * ((1 + u) * (1 + u) * (1 + u) * (1 + u) * (1 + u) * (1 + u)))%R).
  { destruct HM as [_ HM].
    assert (H1 : (M * M <= (A * S * (1 + u)) * (A * S * (1 + u)))%R) by nra.
    assert (H2 : (A * S * (1 + u) * (A * S * (1 + u)) = A * A * (S * S) * ((1 + u) * (1 + u)))%R) by ring.
    assert (H3 : (A * A * (S * S) <= A * A * (Q * ((1 + u) * (1 + u))))%R).
    { apply Rmult_le_compat_l; [nra | exact HS2]. }
    assert (H4 : (A * (A * Q) <= A * (P * (1 + u)))%R).
    { apply Rmult_le_compat_l; [lra | exact HAQ]. }
    assert (H5 : (A * H * P <= W * (1 + u) * P)%R).
    { apply Rmult_le_compat_r; [lra | exact HAH]. }
    assert (Hc : (0 < (1 + u))%R) by lra.
    assert (Hc2 : (0 < (1 + u) * (1 + u))%R) by nra.
    assert (Hc3 : (0 < (1 + u) * (1 + u) * (1 + u))%R) by nra.
    assert (Hc5 : (0 < (1 + u) * (1 + u) * (1 + u) * ((1 + u) * (1 + u)))%R) by nra.
    assert (H6 : (M * M * H <= A * A * (S * S) * ((1 + u) * (1 + u)) * H)%R).
    { apply Rmult_le_compat_r; [lra|]. lra. }
    assert (H7 : (A * A * (S * S) * ((1 + u) * (1 + u)) * H
                  <= A * A * (Q * ((1 + u) * (1 + u))) * ((1 + u) * (1 + u)) * H)%R).
    { apply Rmult_le_compat_r; [lra|]. apply Rmult_le_compat_r; [lra | exact H3]. }
    assert (H8 : (A * A * (Q * ((1 + u) * (1 + u))) * ((1 + u) * (1 + u)) * H
                  = A * (A * Q) * H * ((1 + u) * (1 + u) * ((1 + u) * (1 + u))))%R) by ring.
    assert (H9 : (A * (A * Q) * H <= A * (P * (1 + u)) * H)%R).
    { apply Rmult_le_compat_r; [lra | exact H4]. }
    assert (H10 : (A * (P * (1 + u)) * H = A * H * P * (1 + u))%R) by ring.
    assert (H11 : (A * H * P * (1 + u) <= W * (1 + u) * P * (1 + u))%R).
    { apply Rmult_le_compat_r; [lra | exact H5]. }
    assert (Hc4 : (0 < (1 + u) * (1 + u) * ((1 + u) * (1 + u)))%R) by nra.
    assert (H12 : (A * (A * Q) * H * ((1 + u) * (1 + u) * ((1 + u) * (1 + u)))
                   <= W * (1 + u) * P * (1 + u) * ((1 + u) * (1 + u) * ((1 + u) * (1 + u))))%R).
    { apply Rmult_le_compat_r; [lra | lra]. }
    rewrite H8 in H7.
    replace (W * P * ((1 + u) * (1 + u) * (1 + u) * (1 + u) * (1 + u) * (1 + u)))%R
      with (W * (1 + u) * P * (1 + u) * ((1 + u) * (1 + u) * ((1 + u) * (1 + u))))%R by ring.
    lra. }
  assert (HM1 : (M < 1)%R).
  { pose proof (pow6_bound u Hu) as H6.
    assert (H1 : (M * M * H <= W * P * (1 + 7 * u))%R).
    { eapply Rle_trans; [exact HM2|]. apply Rmult_le_compat_l; [nra | exact H6]. }
    assert (H2a : (W * P * (1 + 7 * u) <= (H - 1) * (1 + 7 * u))%R).
    { apply Rmult_le_compat_r; lra. }
    assert (H2b : ((H - 1) * (1 + 7 * u) = H + 7 * (H * u) - 1 - 7 * u)%R) by ring.
    assert (H2 : (W * P * (1 + 7 * u) < H)%R) by lra.
    destruct (Rlt_le_dec M 1) as [Hlt1|Hge1]; [exact Hlt1|].
    exfalso.
    assert (Hmm : (1 * 1 <= M * M)%R) by (apply Rmult_le_compat; lra).
    assert (Hmh : (1 * 1 * H <= M * M * H)%R) by (apply Rmult_le_compat_r; lra).
    lra. }
  assert (Hn1 : (IZR n < 1)%R) by lra.
  apply lt_IZR in Hn1. lia.
Qed.

(** C7 (as amended). For integers [w] and [h] below [2^53] and a budget [P]
    below [2^50], all positive, [rescaleDimensions], run on binary64 numbers,
    returns [floor(a * s)] and [floor(s)] with [a = w / h] and
    [s = sqrt(P / a)], every operation rounded to the nearest number; the two
    are integers [w'] and [h'], not negative, with [w' * h' <= P]; and
    [rescaleDimensions(100, 100, 10000)] is [(100, 100)]. *)
Theorem rescaleDimensions_within_budget (w h pixels : Z) :
  0 < w < 2 ^ 53 -> 0 < h < 2 ^ 53 -> 0 < pixels < 2 ^ 50 ->
  rescaleDimensions (Binary64.of_Z w) (Binary64.of_Z h) (Binary64.of_Z pixels)
    = (Binary64.floor
         ((Binary64.of_Z w / Binary64.of_Z h)
          * PrimFloat.sqrt (Binary64.of_Z pixels / (Binary64.of_Z w / Binary64.of_Z h)))%float,
       Binary64.floor
         (PrimFloat.sqrt (Binary64.of_Z pixels / (Binary64.of_Z w / Binary64.of_Z h)))%float) /\
  (exists w' h',
     Binary64.to_Z (fst (rescaleDimensions (Binary64.of_Z w) (Binary64.of_Z h)
                           (Binary64.of_Z pixels))) = Some w' /\
     Binary64.to_Z (snd (rescaleDimensions (Binary64.of_Z w) (Binary64.of_Z h)
                           (Binary64.of_Z pixels))) = Some h' /\
     0 <= w' /\ 0 <= h' /\ w' * h' <= pixels) /\
  rescaleDimensions 100 100 10000 = (100%float, 100%float).
Proof.
  intros Hw Hh Hp. split; [reflexivity|].
  split; [exact (rescale_budget w h pixels Hw Hh Hp) | vm_compute; reflexivity].
Qed.

Lemma rescaleDimensions_within_budget_witness :
  rescaleDimensions (Binary64.of_Z 20) (Binary64.of_Z 4900) (Binary64.of_Z 50000)
    = (Binary64.floor
         ((Binary64.of_Z 20 / Binary64.of_Z 4900)
          * PrimFloat.sqrt (Binary64.of_Z 50000 / (Binary64.of_Z 20 / Binary64.of_Z 4900)))%float,
       Binary64.floor
         (PrimFloat.sqrt (Binary64.of_Z 50000 / (Binary64.of_Z 20 / Binary64.of_Z 4900)))%float) /\
  (exists w' h',
     Binary64.to_Z (fst (rescaleDimensions (Binary64.of_Z 20) (Binary64.of_Z 4900)
                           (Binary64.of_Z 50000))) = Some w' /\
     Binary64.to_Z (snd (rescaleDimensions (Binary64.of_Z 20) (Binary64.of_Z 4900)
                           (Binary64.of_Z 50000))) = Some h' /\
     0 <= w' /\ 0 <= h' /\ w' * h' <= 50000) /\
  rescaleDimensions 100 100 10000 = (100%float, 100%float).
Proof.
  apply (rescaleDimensions_within_budget 20 4900 50000); split; try lia; reflexivity.
Defined.

(** The rounding shows in the result: on [(20, 4900, 50000)] the height is
    3499, where the square root of [50000 * 4900 / 20] is 3500. *)
Example rescaleDimensions_rounded :
  rescaleDimensions (Binary64.of_Z 20) (Binary64.of_Z 4900) (Binary64.of_Z 50000)
    = (Binary64.of_Z 14, Binary64.of_Z 3499).
Proof. vm_compute. reflexivity. Qed.

(** ** quantize on a palette of byte colours *)

Lemma pixel_inject (px : list Z) : map Num (map inject_Z px) = pixel px.
Proof. unfold pixel. rewrite map_map. reflexivity. Qed.

Lemma byte_palette_enc (palette : list (list Z)) :
  map array_of (map (map inject_Z) palette) = byte_palette palette.
Proof.
  unfold byte_palette. rewrite map_map. apply map_ext. intros c.
  unfold array_of. rewrite pixel_inject. reflexivity.
Qed.

(** The exact scan and the binary64 scan on integer samples. *)

Lemma squared_distance_inject (p c : list Z) :
  (squared_distance (map inject_Z p) (map inject_Z c)
   == inject_Z (squared_distance_Z p c))%Q.
Proof.
  revert c. induction p as [|x p IH]; intros [|y c]; cbn [map squared_distance squared_distance_Z];
    try reflexivity.
  rewrite IH. unfold Z.sub, Qminus.
  rewrite inject_Z_plus, inject_Z_mult, inject_Z_plus, inject_Z_opp. reflexivity.
Qed.

(** On integer samples of magnitude at most [B] with
    [channels * (2 * B)^2 < 2^53], the scan over exact numbers returns the
    index the scan over binary64 numbers returns. *)
Lemma nearestNeighbor_binary64_agree (B : Z) (point : list Z)
    (candidates : list (list Z)) :
  candidates <> [] ->
  Z.of_nat (length point) * (4 * B * B) < 2 ^ 53 ->
  Forall (fun x => - B <= x <= B) point ->
  Forall (fun c => length c = length point /\ Forall (fun x => - B <= x <= B) c)
    candidates ->
  nearestNeighbor (pixel point) (byte_palette candidates)
    = Return (Binary64.nearestNeighbor (map Binary64.of_Z point)
                (map (map Binary64.of_Z) candidates)).
Proof.
  intros Hne Hsum Hpoint Hall.
  destruct (binary64_nearest_first_minimum B point candidates Hne Hsum Hpoint Hall)
    as (i & ci & -> & Hi & Hmin & Hfirst).
  destruct (nearest_first_minimum (map inject_Z point) (map (map inject_Z) candidates))
    as (i' & ci' & Hrun & Hi' & Hmin' & Hfirst').
  - destruct candidates; [congruence | discriminate].
  - apply Forall_fmap. eapply Forall_impl; [exact Hall|].
    intros c [Hc _]. simpl. rewrite !length_map. exact Hc.
  - rewrite pixel_inject, byte_palette_enc in Hrun. rewrite Hrun. do 2 f_equal.
    rewrite list_lookup_fmap in Hi'.
    destruct (candidates !! i') as [c'|] eqn:Ec'; [|discriminate].
    injection Hi' as <-.
    assert (Hq : forall j cj, candidates !! j = Some cj ->
                   map (map inject_Z) candidates !! j = Some (map inject_Z cj)).
    { intros j cj Hj. rewrite list_lookup_fmap, Hj. reflexivity. }
    destruct (Nat.lt_trichotomy i' i) as [Hlt|[Heq|Hgt]]; [|exact Heq|]; exfalso.
    + pose proof (Hfirst i' c' Hlt Ec') as H1.
      pose proof (Hmin' i (map inject_Z ci) (Hq i ci Hi)) as H2.
      rewrite !squared_distance_inject in H2. rewrite <- Zle_Qle in H2. lia.
    + pose proof (Hfirst' i (map inject_Z ci) Hgt (Hq i ci Hi)) as H1.
      pose proof (Hmin i' c' Ec') as H2.
      rewrite !squared_distance_inject in H1. rewrite <- Zlt_Qlt in H1. lia.
Qed.

Lemma squared_distance_self (p : list Q) : (squared_distance p p == 0)%Q.
Proof.
  induction p as [|x p IH]; simpl; [reflexivity|]. rewrite IH. ring.
Qed.

Lemma squared_distance_zero (p c : list Z) :
  length p = length c ->
  (squared_distance (map inject_Z p) (map inject_Z c) <= 0)%Q -> p = c.
Proof.
  revert c. induction p as [|x p IH]; intros [|y c] Hlen Hd; try discriminate;
    [reflexivity|].
  simpl in Hlen, Hd. injection Hlen as Hlen.
  pose proof (squared_distance_nonneg (map inject_Z p) (map inject_Z c)) as Hrest.
  pose proof (Qsquare_nonneg (inject_Z x - inject_Z y)) as Hsq.
  assert (Hx : ((inject_Z x - inject_Z y) * (inject_Z x - inject_Z y) <= 0)%Q).
  { apply Qle_trans with (2 := Hd).
    rewrite <- (Qplus_0_r ((inject_Z x - inject_Z y) * (inject_Z x - inject_Z y))) at 1.
    apply Qplus_le_r. exact Hrest. }
  assert (Hr : (squared_distance (map inject_Z p) (map inject_Z c) <= 0)%Q).
  { apply Qle_trans with (2 := Hd).
    rewrite <- (Qplus_0_l (squared_distance _ _)) at 1.
    apply Qplus_le_l. exact Hsq. }
  f_equal; [|apply IH; assumption].
  unfold Qle, Qminus, Qplus, Qmult, Qopp, inject_Z in Hx. simpl in Hx. nia.
Qed.

(** The entry selected for a pixel of four channels. *)
Lemma remap_spec (palette : list (list Z)) (px : list Z) :
  palette <> [] -> Forall byte_color palette -> length px = 4%nat ->
  exists i c,
    nearestNeighbor (pixel px) (byte_palette palette) = Return (Z.of_nat i) /\
    palette !! i = Some c /\ remap palette px = c /\
    (forall j cj, palette !! j = Some cj ->
       (squared_distance (map inject_Z px) (map inject_Z c)
          <= squared_distance (map inject_Z px) (map inject_Z cj))%Q).
Proof.
  intros Hne Hpal Hpx.
  destruct (nearest_first_minimum (map inject_Z px) (map (map inject_Z) palette))
    as (i & ci & Hnn & Hi & Hmin & _).
  - destruct palette; [congruence | discriminate].
  - apply Forall_fmap. eapply Forall_impl; [exact Hpal|].
    intros c [Hc _]. simpl. rewrite !length_map. congruence.
  - rewrite pixel_inject, byte_palette_enc in Hnn.
    rewrite list_lookup_fmap in Hi.
    destruct (palette !! i) as [c|] eqn:Hc; [|discriminate]. injection Hi as <-.
    exists i, c. split; [exact Hnn|]. split; [exact Hc|]. split.
    + unfold remap. rewrite Hnn. unfold js_get.
      destruct (Z.of_nat i <? 0) eqn:E; [apply Z.ltb_lt in E; lia|].
      rewrite Nat2Z.id, Hc. reflexivity.
    + intros j cj Hj. apply (Hmin j). rewrite list_lookup_fmap, Hj. reflexivity.
Qed.

(** A palette entry is remapped to itself. *)
Lemma remap_palette_entry (palette : list (list Z)) (i : nat) (c : list Z) :
  Forall byte_color palette -> palette !! i = Some c -> remap palette c = c.
Proof.
  intros Hpal Hc.
  assert (Hne : palette <> []) by (intros ->; discriminate).
  assert (Hlen : length c = 4%nat).
  { eapply Forall_lookup_1 in Hc; [|exact Hpal]. apply Hc. }
  destruct (remap_spec palette c Hne Hpal Hlen) as (j & cj & _ & Hj & -> & Hmin).
  symmetry. apply squared_distance_zero.
  - eapply Forall_lookup_1 in Hj; [|exact Hpal]. destruct Hj as [Hj _]. congruence.
  - eapply Qle_trans; [apply (Hmin i c Hc)|].
    rewrite squared_distance_self. apply Qle_refl.
Qed.

Lemma remap_byte_color (palette : list (list Z)) (px : list Z) :
  palette <> [] -> Forall byte_color palette -> length px = 4%nat ->
  byte_color (remap palette px) /\ remap palette (remap palette px) = remap palette px.
Proof.
  intros Hne Hpal Hpx.
  destruct (remap_spec palette px Hne Hpal Hpx) as (i & c & _ & Hc & -> & _).
  split.
  - eapply Forall_lookup_1 in Hc; [exact Hc | exact Hpal].
  - eapply remap_palette_entry; eauto.
Qed.


Lemma to_uint8_clamp_byte (b : Z) :
  0 <= b <= 255 -> to_uint8_clamp (JsNum.of_Z b) = b.
Proof.
  intros Hb. unfold to_uint8_clamp, JsNum.of_Z.
  destruct (Qle_bool (inject_Z b) 0) eqn:E0.
  { apply Qle_bool_iff in E0. unfold Qle, inject_Z in E0. simpl in E0. lia. }
  destruct (Qle_bool 255 (inject_Z b)) eqn:E1.
  { apply Qle_bool_iff in E1. unfold Qle, inject_Z in E1. simpl in E1. lia. }
  rewrite Qfloor_Z.
  assert (Hcmp : Qcompare (inject_Z b - inject_Z b) (1 # 2) = Lt).
  { rewrite <- Qlt_alt. unfold Qlt, Qminus, Qplus, Qopp, inject_Z. simpl. lia. }
  rewrite Hcmp. reflexivity.
Qed.

Lemma lookup_app_plus {A} (l1 l2 : list A) (j : nat) :
  (l1 ++ l2) !! (length l1 + j)%nat = l2 !! j.
Proof.
  rewrite lookup_app_r by lia. f_equal. lia.
Qed.

(** Reading the four samples of the pixel that starts at [length done]. *)
Lemma read_pixel_chunk (done rest : list Z) (b0 b1 b2 b3 : Z) :
  read_pixel (done ++ [b0; b1; b2; b3] ++ rest) (length done) 4
    = pixel [b0; b1; b2; b3].
Proof.
  unfold read_pixel, pixel. cbn [seq map].
  rewrite !lookup_app_plus. reflexivity.
Qed.

(** Storing a byte colour over the samples that start at [length pre]. *)
Lemma store_color_chunk (pre old post : list Z) (c : list Z) (i : nat) :
  i = length pre ->
  length old = length c -> Forall (fun b => 0 <= b <= 255) c ->
  store_color (pre ++ old ++ post) i (pixel c) = pre ++ c ++ post.
Proof.
  intros ->. revert pre old. induction c as [|x c IH]; intros pre old Hlen Hc.
  - destruct old; [reflexivity | discriminate].
  - destruct old as [|o old]; [discriminate|]. simpl in Hlen. injection Hlen as Hlen.
    inversion Hc as [|? ? Hx Hc']; subst.
    cbn [pixel map store_color]. rewrite to_uint8_clamp_byte by exact Hx.
    replace (length pre) with (length pre + 0)%nat at 1 by lia.
    rewrite insert_app_r. cbn [app]. cbn [list_insert insert].
    change (pre ++ x :: old ++ post) with (pre ++ [x] ++ old ++ post).
    rewrite (app_assoc pre [x]).
    replace (S (length pre)) with (length (pre ++ [x])) by (rewrite length_app; simpl; lia).
    fold (pixel c). rewrite IH by assumption.
    rewrite <- app_assoc. reflexivity.
Qed.

Lemma quantize_loop_chunks (palette : list (list Z)) (chunks : list (list Z)) :
  palette <> [] -> Forall byte_color palette ->
  Forall (fun px : list Z => length px = 4%nat) chunks ->
  forall (fuel : nat) (done_src done_out : list Z),
    length done_out = length done_src ->
    (length chunks < fuel)%nat ->
    quantize_loop fuel (Some (byte_palette palette)) (byte_palette palette)
      (done_src ++ concat chunks) 4 (length done_src)
      (done_out ++ replicate (length (concat chunks)) 0)
    = Return (done_out ++ concat (map (remap palette) chunks)).
Proof.
  intros Hne Hpal Hchunks.
  induction Hchunks as [|px rest Hpx Hrest IH]; intros fuel done_src done_out Hlen Hfuel.
  - destruct fuel as [|fuel]; [simpl in Hfuel; lia|].
    cbn [quantize_loop concat map]. rewrite !app_nil_r.
    rewrite Nat.ltb_irrefl. reflexivity.
  - destruct fuel as [|fuel]; [simpl in Hfuel; lia|].
    destruct px as [|b0 [|b1 [|b2 [|b3 [|? ?]]]]]; try discriminate.
    destruct (remap_spec palette [b0; b1; b2; b3] Hne Hpal eq_refl)
      as (i & c & Hnn & Hc & Hremap & _).
    assert (Hbc : byte_color c) by (eapply Forall_lookup_1 in Hc; [exact Hc | exact Hpal]).
    destruct Hbc as [Hc4 Hcb].
    cbn [quantize_loop concat map].
    assert (Hin : (length done_src <? length (done_src ++ [b0; b1; b2; b3] ++ concat rest))%nat = true).
    { apply Nat.ltb_lt. rewrite length_app. simpl. lia. }
    rewrite Hin, read_pixel_chunk, Hnn. cbn [obind].
    assert (Hget : js_get (byte_palette palette) (Z.of_nat i) = Some (Some (pixel c))).
    { unfold js_get. destruct (Z.of_nat i <? 0) eqn:E; [apply Z.ltb_lt in E; lia|].
      rewrite Nat2Z.id. unfold byte_palette. rewrite list_lookup_fmap, Hc. reflexivity. }
    rewrite Hget.
    replace (length ([b0; b1; b2; b3] ++ concat rest))
      with (4 + length (concat rest))%nat by (rewrite length_app; reflexivity).
    rewrite replicate_add.
    rewrite (store_color_chunk done_out (replicate 4 0) _ c (length done_src))
      by (rewrite ?length_replicate; auto).
    rewrite Hremap.
    replace (length done_src + 4)%nat with (length (done_src ++ [b0; b1; b2; b3]))
      by (rewrite length_app; reflexivity).
    rewrite (app_assoc done_src), (app_assoc done_out c).
    rewrite IH; [rewrite <- app_assoc; reflexivity | | simpl in Hfuel; lia].
    rewrite !length_app, Hlen, Hc4. reflexivity.
Qed.

Lemma chunks_of (n : nat) (l : list Z) :
  length l = (4 * n)%nat ->
  exists chunks, l = concat chunks /\ length chunks = n /\
                 Forall (fun px : list Z => length px = 4%nat) chunks.
Proof.
  revert l. induction n as [|n IH]; intros l Hl.
  - destruct l; [|discriminate]. exists []. auto.
  - destruct l as [|b0 [|b1 [|b2 [|b3 l]]]]; try (simpl in Hl; lia).
    destruct (IH l) as (chunks & -> & Hn & Hall); [simpl in Hl; lia|].
    exists ([b0; b1; b2; b3] :: chunks). split; [reflexivity|].
    split; [simpl; lia|]. constructor; [reflexivity | exact Hall].
Qed.

Lemma length_concat_chunks (chunks : list (list Z)) :
  Forall (fun px : list Z => length px = 4%nat) chunks ->
  length (concat chunks) = (4 * length chunks)%nat.
Proof.
  induction 1 as [|px rest Hpx _ IH]; [reflexivity|].
  simpl. rewrite length_app, IH, Hpx. lia.
Qed.

(** The quantized raster of a raster of four-channel pixels. *)
Lemma quantize_chunks (palette : list (list Z)) (w h : Z) (chunks : list (list Z)) :
  palette <> [] -> Forall byte_color palette ->
  Forall (fun px : list Z => length px = 4%nat) chunks ->
  0 < w * h -> Z.of_nat (length chunks) = w * h ->
  quantize (Some (byte_palette palette))
    {| width := w; height := h; data := concat chunks |} (byte_palette palette)
  = Return (concat (map (remap palette) chunks)).
Proof.
  intros Hne Hpal Hchunks Hpos Hn. unfold quantize. cbn [width height data].
  rewrite (length_concat_chunks chunks Hchunks).
  replace (Z.to_nat (Z.of_nat (4 * length chunks) / (w * h))) with 4%nat.
  - pose proof (quantize_loop_chunks palette chunks Hne Hpal Hchunks
                  (S (4 * length chunks)) [] [] eq_refl) as Hloop.
    cbn [app length] in Hloop.
    rewrite (length_concat_chunks chunks Hchunks) in Hloop.
    apply Hloop. lia.
  - rewrite Nat2Z.inj_mul, Hn. change (Z.of_nat 4) with 4.
    rewrite Z.div_mul by lia. reflexivity.
Qed.


(** C8 (as amended). With the identifier [centroids] bound to the palette
    passed as [colors], a palette that is not empty and whose entries are
    four integers of [0, 255] each, quantization is idempotent: a raster
    that [getImageData] can produce is quantized to some raster [out], and
    quantizing [out] again gives [out]. *)
Theorem quantize_idempotent_on_byte_palette (img : image) (palette : list (list Z)) :
  wf_image img -> palette <> [] -> Forall byte_color palette ->
  exists out,
    quantize (Some (byte_palette palette)) img (byte_palette palette) = Return out /\
    quantize (Some (byte_palette palette)) (requantized img out) (byte_palette palette)
      = Return out.
Proof.
  intros (Hw & Hh & Hlen & _) Hne Hpal. destruct img as [w h src].
  cbn [width height data] in *.
  assert (Hpos : 0 < w * h) by lia.
  destruct (chunks_of (Z.to_nat (w * h)) src) as (chunks & -> & Hn & Hchunks); [lia|].
  exists (concat (map (remap palette) chunks)). split.
  - apply quantize_chunks; try assumption. lia.
  - unfold requantized. cbn [width height data].
    rewrite quantize_chunks; try assumption.
    + f_equal. f_equal. rewrite map_map. apply map_ext_Forall.
      eapply Forall_impl; [exact Hchunks|]. intros px Hpx. cbv beta.
      apply remap_byte_color; assumption.
    + apply Forall_fmap. eapply Forall_impl; [exact Hchunks|].
      intros px Hpx. simpl. apply (remap_byte_color palette px); assumption.
    + rewrite length_map. lia.
Qed.

Lemma quantize_idempotent_on_byte_palette_witness :
  exists out,
    quantize (Some (byte_palette [[0; 0; 0; 255]; [255; 255; 255; 255]]))
      {| width := 2; height := 1; data := [1; 0; 0; 255; 250; 251; 252; 255] |}
      (byte_palette [[0; 0; 0; 255]; [255; 255; 255; 255]]) = Return out /\
    quantize (Some (byte_palette [[0; 0; 0; 255]; [255; 255; 255; 255]]))
      (requantized
         {| width := 2; height := 1; data := [1; 0; 0; 255; 250; 251; 252; 255] |} out)
      (byte_palette [[0; 0; 0; 255]; [255; 255; 255; 255]]) = Return out.
Proof.
  apply (quantize_idempotent_on_byte_palette
           {| width := 2; height := 1; data := [1; 0; 0; 255; 250; 251; 252; 255] |}
           [[0; 0; 0; 255]; [255; 255; 255; 255]]).
  - unfold wf_image. simpl. repeat split; try lia. repeat constructor; lia.
  - discriminate.
  - repeat constructor; lia.
Defined.

(** C8, refuted as stated: with [fractional_palette] the red pixel is
    written as [0, 0, 0, 255], the rounded first entry, which a second pass
    maps to the second entry and writes as [0, 1, 0, 255]. *)
Lemma quantize_idempotence_counterexample :
  wf_image red_pixel /\ fractional_palette <> [] /\
  quantize (Some fractional_palette) red_pixel fractional_palette
    = Return [0; 0; 0; 255] /\
  quantize (Some fractional_palette) (requantized red_pixel [0; 0; 0; 255])
    fractional_palette = Return [0; 1; 0; 255].
Proof.
  split; [unfold wf_image; simpl; repeat split; try lia; repeat constructor; lia|].
  split; [discriminate|]. split; vm_compute; reflexivity.
Qed.

(** ** The scenario of the specification *)

(** Four pixels and [k = 2]: the loop stops after two passes on the means
    [5, 5, 5, 255] and [252.5, 252.5, 252.5, 255]. *)
Example kMeans_dataset4 :
  fst (kMeans 2 dataset4 (Some 2) [])
    = Return [Some [Num (10 # 2); Num (10 # 2); Num (10 # 2); Num (510 # 2)];
              Some [Num (505 # 2); Num (505 # 2); Num (505 # 2); Num (510 # 2)]].
Proof. vm_compute. reflexivity. Qed.

(** With that palette the first two pixels are written as the dark centroid
    and the last two as the light one, [252.5] being stored as [252]. *)
Example quantize_dataset4 :
  quantize
    (Some [Some [Num 5; Num 5; Num 5; Num 255];
           Some [Num (505 # 2); Num (505 # 2); Num (505 # 2); Num 255]])
    {| width := 4; height := 1;
       data := [0; 0; 0; 255; 10; 10; 10; 255; 250; 250; 250; 255; 255; 255; 255; 255] |}
    [Some [Num 5; Num 5; Num 5; Num 255];
     Some [Num (505 # 2); Num (505 # 2); Num (505 # 2); Num 255]]
  = Return [5; 5; 5; 255; 5; 5; 5; 255; 252; 252; 252; 255; 252; 252; 252; 255].
Proof. vm_compute. reflexivity. Qed.

(** The generator yields [49297 / 233280] first. *)
Example call_random_first :
  call_random 0 [0] = (Return (inject_Z 49297 / 233280)%Q, [49297]).
Proof. reflexivity. Qed.


(** * Further properties *)

(** ** isArrayEqual *)

(** X1. On two arrays of finite numbers [isArrayEqual] never throws, and it
    answers true exactly when the arrays have the same length and are equal
    element by element as numbers. *)
Theorem isArrayEqual_finite (p c : list Q) :
  exists b,
    isArrayEqual (array_of p) (array_of c) = Return b /\
    (b = true <-> length p = length c /\ Forall2 Qeq p c).
Proof.
  unfold isArrayEqual, array_of. rewrite !length_map.
  destruct (length p =? length c)%nat eqn:E; cbn [negb].
  - apply Nat.eqb_eq in E. exists (elements_equal (map Num p) (map Num c)).
    split; [reflexivity|]. rewrite elements_equal_Qeq by congruence.
    split; [auto | intros [_ H]; exact H].
  - apply Nat.eqb_neq in E. exists false. split; [reflexivity|].
    split; [discriminate | intros [H _]; contradiction].
Qed.

Lemma elements_equal_NaN (a : array) :
  NaN ∈ a -> elements_equal a a = false.
Proof.
  induction a as [|x a IH]; intros H; [inversion H|].
  cbn [elements_equal]. destruct x as [q| | |]; try reflexivity;
    cbn [JsNum.strict_eqb].
  - destruct (Qeq_bool q q); [|reflexivity].
    apply IH. inversion H; subst; try discriminate; assumption.
  - apply IH. inversion H; subst; try discriminate; assumption.
  - apply IH. inversion H; subst; try discriminate; assumption.
Qed.

(** X2. An array that holds a NaN is not equal to itself: [NaN !== NaN]. *)
Theorem isArrayEqual_NaN (a : array) :
  NaN ∈ a -> isArrayEqual (Some a) (Some a) = Return false.
Proof.
  intros H. unfold isArrayEqual. rewrite Nat.eqb_refl. cbn [negb].
  rewrite (elements_equal_NaN a H). reflexivity.
Qed.

Lemma isArrayEqual_NaN_witness :
  isArrayEqual (Some [Num 1; NaN]) (Some [Num 1; NaN]) = Return false.
Proof.
  apply (isArrayEqual_NaN [Num 1; NaN]). apply list_elem_of_In. simpl. auto.
Defined.

(** ** nearestNeighbor on arbitrary arrays *)

Lemma nearest_loop_range (point : array) (neighbors : list value)
    (i best_index r : Z) (best_dist : num) :
  nearest_loop point neighbors i best_dist best_index = Return r ->
  0 <= i -> -1 <= best_index < i ->
  -1 <= r < i + Z.of_nat (length neighbors).
Proof.
  revert i best_index best_dist.
  induction neighbors as [|neighbor rest IH]; intros i bi bd Hrun Hi Hbi.
  - injection Hrun as <-. simpl. lia.
  - cbn [nearest_loop] in Hrun.
    destruct (neighbor_dist point neighbor) as [dist| |]; try discriminate.
    cbn [obind] in Hrun. cbn [length]. rewrite Nat2Z.inj_succ.
    destruct (JsNum.ltb dist bd); apply IH in Hrun; lia.
Qed.

Lemma nearest_loop_outcome (point : array) (neighbors : list value)
    (i best_index : Z) (best_dist : num) :
  (exists r, nearest_loop point neighbors i best_dist best_index = Return r) \/
  nearest_loop point neighbors i best_dist best_index = Throw TypeError.
Proof.
  revert i best_index best_dist.
  induction neighbors as [|neighbor rest IH]; intros i bi bd.
  - left. exists bi. reflexivity.
  - cbn [nearest_loop]. destruct neighbor as [nb|].
    + cbn [neighbor_dist obind]. destruct (JsNum.ltb _ bd); apply IH.
    + cbn [neighbor_dist]. destruct point; [|right; reflexivity].
      cbn [obind]. destruct (JsNum.ltb _ bd); apply IH.
Qed.

Lemma nearest_loop_defined (point : array) (neighbors : list value)
    (i best_index : Z) (best_dist : num) :
  Forall is_Some neighbors ->
  exists r, nearest_loop point neighbors i best_dist best_index = Return r.
Proof.
  intros H. revert i best_index best_dist.
  induction H as [|neighbor rest [nb ->] _ IH]; intros i bi bd.
  - exists bi. reflexivity.
  - cbn [nearest_loop neighbor_dist obind]. destruct (JsNum.ltb _ bd); apply IH.
Qed.

(** X3. Whatever the point and the neighbors, an index [nearestNeighbor]
    returns is either the sentinel -1 or an index of [neighbors]; and it does
    return one, without throwing, when no neighbor is [undefined]. *)
Theorem nearestNeighbor_range (point : array) (neighbors : list value) :
  (forall i, nearestNeighbor point neighbors = Return i ->
     -1 <= i < Z.of_nat (length neighbors)) /\
  (Forall is_Some neighbors ->
     exists i, nearestNeighbor point neighbors = Return i).
Proof.
  split.
  - intros i H. apply nearest_loop_range in H; lia.
  - intros H. apply nearest_loop_defined. exact H.
Qed.

Lemma dist_loop_from_NaN (point neighbor : array) :
  dist_loop point neighbor NaN = NaN.
Proof.
  revert neighbor. induction point as [|pj point IH]; intros neighbor; [reflexivity|].
  cbn [dist_loop]. apply IH.
Qed.

Lemma add_NaN_r (x : num) : JsNum.add x NaN = NaN.
Proof. destruct x; reflexivity. Qed.

Lemma dist_loop_NaN (point neighbor : array) (dist : num) :
  NaN ∈ point -> dist_loop point neighbor dist = NaN.
Proof.
  revert neighbor dist. induction point as [|pj point IH]; intros neighbor dist H;
    [inversion H|].
  cbn [dist_loop]. inversion H; subst.
  - match goal with |- context [JsNum.sub NaN ?x] => change (JsNum.sub NaN x) with NaN end.
    cbn [JsNum.pow2]. rewrite add_NaN_r. apply dist_loop_from_NaN.
  - apply IH. assumption.
Qed.

Lemma nearest_loop_NaN (point : array) (neighbors : list value)
    (i best_index : Z) (best_dist : num) :
  NaN ∈ point -> Forall is_Some neighbors ->
  nearest_loop point neighbors i best_dist best_index = Return best_index.
Proof.
  intros Hp Hn. revert i. induction Hn as [|neighbor rest [nb ->] _ IH]; intros i;
    [reflexivity|].
  cbn [nearest_loop neighbor_dist]. rewrite (dist_loop_NaN _ _ _ Hp). cbn [obind].
  change (JsNum.ltb NaN best_dist) with false. cbv iota. apply IH.
Qed.

(** X4. A point with a NaN sample is at NaN distance from every neighbor, no
    comparison [dist < best_dist] succeeds, and the sentinel -1 is returned
    even though the list of neighbors is not empty. *)
Theorem nearestNeighbor_NaN_point (point : array) (neighbors : list value) :
  NaN ∈ point -> Forall is_Some neighbors ->
  nearestNeighbor point neighbors = Return (-1).
Proof.
  intros Hp Hn. apply nearest_loop_NaN; assumption.
Qed.

Lemma nearestNeighbor_NaN_point_witness :
  nearestNeighbor [Num 10; NaN] [Some [Num 10; Num 0]; Some [Num 0; Num 0]]
    = Return (-1).
Proof.
  apply (nearestNeighbor_NaN_point [Num 10; NaN]
           [Some [Num 10; Num 0]; Some [Num 0; Num 0]]).
  - apply list_elem_of_In. simpl. auto.
  - repeat constructor; eexists; reflexivity.
Defined.

Lemma nearest_loop_undefined (point : array) (neighbors : list value)
    (i best_index : Z) (best_dist : num) :
  point <> [] -> None ∈ neighbors ->
  nearest_loop point neighbors i best_dist best_index = Throw TypeError.
Proof.
  intros Hp. revert i best_index best_dist.
  induction neighbors as [|neighbor rest IH]; intros i bi bd H; [inversion H|].
  cbn [nearest_loop]. destruct neighbor as [nb|].
  - cbn [neighbor_dist obind].
    assert (Hrest : None ∈ rest) by (inversion H; subst; try discriminate; assumption).
    destruct (JsNum.ltb _ bd); apply IH; exact Hrest.
  - destruct point; [congruence | reflexivity].
Qed.

(** X5. When some neighbor is [undefined] and the point has at least one
    channel, reading [neighbor[j]] throws: the call ends in a TypeError
    whatever the other neighbors are. *)
Theorem nearestNeighbor_undefined_neighbor (point : array) (neighbors : list value) :
  point <> [] -> None ∈ neighbors ->
  nearestNeighbor point neighbors = Throw TypeError.
Proof.
  intros Hp Hn. apply nearest_loop_undefined; assumption.
Qed.

Lemma nearestNeighbor_undefined_neighbor_witness :
  nearestNeighbor [Num 1] [Some [Num 1]; None] = Throw TypeError.
Proof.
  apply (nearestNeighbor_undefined_neighbor [Num 1] [Some [Num 1]; None]).
  - discriminate.
  - apply list_elem_of_In. simpl. auto.
Defined.

(** ** The generator of createSeededRandom *)



(** X7. Two distinct generators do not share their seed: a draw from one and
    a draw from the other give the same two numbers and the same heap in
    either order. *)
Theorem call_random_commute (g1 g2 : generator) (h : heap) :
  g1 <> g2 ->
  (a <- call_random g1 ;; b <- call_random g2 ;; ret (a, b))%heap h =
  (b <- call_random g2 ;; a <- call_random g1 ;; ret (a, b))%heap h.
Proof.
  intros Hne. unfold bind, call_random, ret.
  rewrite !list_lookup_insert_ne by congruence.
  rewrite (list_insert_insert_ne h g2 g1) by congruence. reflexivity.
Qed.

Lemma call_random_commute_witness :
  (a <- call_random 0 ;; b <- call_random 1 ;; ret (a, b))%heap [0; 7] =
  (b <- call_random 1 ;; a <- call_random 0 ;; ret (a, b))%heap [0; 7].
Proof.
  apply (call_random_commute 0 1 [0; 7]). discriminate.
Defined.

(** ** kMeans: the initial centroids *)

Lemma initial_centroids_members (todo : nat) (random : generator)
    (dataset : list array) (centroids : list value) (h : heap) :
  dataset <> [] -> seed_ok random h ->
  Forall (fun c : value => exists p, c = Some p /\ p ∈ dataset) centroids ->
  exists centroids' h',
    initial_centroids todo random dataset centroids h = (Return centroids', h') /\
    length centroids' = (length centroids + todo)%nat /\
    Forall (fun c : value => exists p, c = Some p /\ p ∈ dataset) centroids' /\
    seed_ok random h'.
Proof.
  intros Hne. revert centroids h.
  induction todo as [|todo IH]; intros centroids h Hseed Hok.
  - exists centroids, h. repeat split; [simpl; lia | exact Hok | exact Hseed].
  - cbn [initial_centroids].
    destruct (random_point_in_dataset random dataset h Hne Hseed)
      as (p & h1 & Hrp & Hin & Hs).
    rewrite (bind_step _ _ _ _ _ Hrp).
    destruct (IH (centroids ++ [Some p]) h1 Hs) as (cs & h' & Hrun & Hlen & Hcs & Hs').
    + apply Forall_app. split; [exact Hok|]. repeat constructor. exists p. auto.
    + exists cs, h'. repeat split; try assumption.
      rewrite Hlen, length_app. simpl. lia.
Qed.

(** X8. The first loop of [kMeans] never throws. On a dataset that is not
    empty its [k] draws are pixels of the dataset (with repetitions allowed);
    on the empty dataset every draw is [undefined]. *)
Theorem initial_centroids_from_dataset (k : nat) (dataset : list array) (h : heap) :
  exists centroids h',
    (random <- createSeededRandom 0 ;;
     initial_centroids k random dataset [])%heap h = (Return centroids, h') /\
    length centroids = k /\
    match dataset with
    | [] => centroids = replicate k None
    | _ :: _ => Forall (fun c : value => exists p, c = Some p /\ p ∈ dataset) centroids
    end.
Proof.
  rewrite (bind_step _ _ h (h ++ [0]) (length h)) by reflexivity.
  destruct dataset as [|first rest].
  - destruct (initial_centroids_empty_dataset k (length h) [] (h ++ [0])) as [h' Hrun].
    exists (replicate k None), h'. split; [exact Hrun|].
    split; [apply length_replicate | reflexivity].
  - destruct (initial_centroids_members k (length h) (first :: rest) [] (h ++ [0]))
      as (cs & h' & Hrun & Hlen & Hcs & _).
    + discriminate.
    + unfold seed_ok. rewrite lookup_app_r by lia.
      rewrite Nat.sub_diag. simpl. lia.
    + constructor.
    + exists cs, h'. split; [exact Hrun|]. split; [exact Hlen | exact Hcs].
Qed.

(** ** centroid *)

Lemma fold_point_Num (rc p : list Q) (d : positive) :
  length p = length rc ->
  fold_point (map Num rc) (map Num p) d
    = map Num (zip_with (fun r x => r + (x - r) / inject_Z (Z.pos d))%Q rc p).
Proof.
  revert rc. induction p as [|x p IH]; intros [|r rc] H; try discriminate;
    [reflexivity|].
  cbn [map fold_point zip_with]. rewrite IH by (simpl in H; lia). reflexivity.
Qed.

(** The invariant of the running means: after [m] points the running value
    of a channel, times [m], is the sum of that channel. *)
Lemma centroid_loop_mean (dataset : list (list Q)) (d : positive) (rc : list Q) :
  Forall (fun p : list Q => length p = length rc) dataset ->
  exists c,
    centroid_loop (map (map Num) dataset) d (map Num rc) = map Num c /\
    length c = length rc /\
    forall j, (j < length rc)%nat ->
      (default 0 (c !! j) * inject_Z (Z.pos d - 1 + Z.of_nat (length dataset))
       == default 0 (rc !! j) * inject_Z (Z.pos d - 1) + channel_sum j dataset)%Q.
Proof.
  revert d rc. induction dataset as [|p rest IH]; intros d rc Hall.
  - exists rc. split; [reflexivity|]. split; [reflexivity|].
    intros j _. unfold channel_sum. cbn [map fold_right length Z.of_nat].
    rewrite Z.add_0_r. ring.
  - inversion Hall as [|? ? Hp Hrest]; subst.
    cbn [map centroid_loop]. rewrite fold_point_Num by exact Hp.
    set (rc' := zip_with (fun r x => r + (x - r) / inject_Z (Z.pos d))%Q rc p).
    assert (Hlen' : length rc' = length rc).
    { unfold rc'. rewrite length_zip_with. lia. }
    destruct (IH (Pos.succ d) rc') as (c & Hrun & Hlen & Hsum).
    { rewrite Hlen'. exact Hrest. }
    exists c. split; [exact Hrun|]. split; [congruence|].
    intros j Hj. rewrite Hlen' in Hsum. specialize (Hsum j Hj).
    destruct (lookup_lt_is_Some_2 rc j Hj) as [r Hr].
    destruct (lookup_lt_is_Some_2 p j ltac:(lia)) as [x Hx].
    assert (Hr' : rc' !! j = Some (r + (x - r) / inject_Z (Z.pos d))%Q).
    { unfold rc'. rewrite lookup_zip_with, Hr, Hx. reflexivity. }
    rewrite Hr' in Hsum. rewrite Hr. cbn [default] in *.
    unfold channel_sum. cbn [map fold_right]. rewrite Hx. cbn [default].
    fold (channel_sum j rest).
    replace (Z.pos d - 1 + Z.of_nat (length (p :: rest)))
      with (Z.pos (Pos.succ d) - 1 + Z.of_nat (length rest))
      by (cbn [length]; lia).
    rewrite Hsum.
    replace (Z.pos (Pos.succ d) - 1) with (Z.pos d) by lia.
    unfold Z.sub. rewrite (inject_Z_plus (Z.pos d) (- (1))).
    change (inject_Z (- (1))) with (-1 # 1)%Q. unfold Datatypes.id.
    set (D := inject_Z (Z.pos d)).
    assert (HD : ~ (D == 0)%Q) by (unfold D, Qeq, inject_Z; simpl; lia).
    pose proof (Qmult_div_r (x - r) D HD) as Hdiv.
    assert (E : ((r + (x - r) / D) * D == r * D + D * ((x - r) / D))%Q) by ring.
    rewrite E, Hdiv. ring.
Qed.

Lemma centroid_mean (C : nat) (dataset : list (list Q)) :
  dataset <> [] -> Forall (fun p : list Q => length p = C) dataset ->
  exists c,
    centroid (map (map Num) dataset) = map Num c /\ length c = C /\
    forall j, (j < C)%nat ->
      (default 0 (c !! j)
       == channel_sum j dataset / inject_Z (Z.of_nat (length dataset)))%Q.
Proof.
  intros Hne Hall. destruct dataset as [|first rest]; [congruence|].
  assert (Hfirst : length first = C) by (inversion Hall; assumption).
  unfold centroid. cbn [map]. rewrite length_map, Hfirst.
  change (replicate C (JsNum.of_Z 0)) with (replicate C (Num 0)).
  change (map Num first :: map (map Num) rest) with (map (map Num) (first :: rest)).
  rewrite <- (fmap_replicate Num C 0%Q).
  destruct (centroid_loop_mean (first :: rest) 1 (replicate C 0%Q))
    as (c & Hrun & Hlen & Hsum).
  { rewrite length_replicate. exact Hall. }
  rewrite length_replicate in Hlen, Hsum.
  exists c. split; [exact Hrun|]. split; [exact Hlen|].
  intros j Hj. specialize (Hsum j Hj).
  rewrite lookup_replicate_2 in Hsum by exact Hj. cbn [default] in Hsum.
  change (1 - 1) with 0 in Hsum. rewrite Z.add_0_l in Hsum.
  set (n := inject_Z (Z.of_nat (length (first :: rest)))) in *.
  assert (Hn : ~ (n == 0)%Q).
  { unfold n, Qeq, inject_Z. cbn [length]. simpl. lia. }
  unfold Datatypes.id in Hsum. rewrite <- (Qmult_inj_r _ _ n Hn). rewrite Hsum.
  rewrite (Qmult_comm (channel_sum j (first :: rest) / n) n).
  rewrite (Qmult_div_r _ n Hn). ring.
Qed.

Lemma channel_sum_bounds (lo hi : Q) (j : nat) (dataset : list (list Q)) :
  Forall (fun p : list Q => (j < length p)%nat /\
                            Forall (fun x => lo <= x /\ x <= hi)%Q p) dataset ->
  (lo * inject_Z (Z.of_nat (length dataset)) <= channel_sum j dataset)%Q /\
  (channel_sum j dataset <= hi * inject_Z (Z.of_nat (length dataset)))%Q.
Proof.
  induction 1 as [|p rest [Hj Hp] _ [IH1 IH2]].
  - unfold channel_sum; cbn. split; ring_simplify; apply Qle_refl.
  - destruct (lookup_lt_is_Some_2 p j Hj) as [x Hx].
    pose proof (Forall_lookup_1 _ _ _ _ Hp Hx) as [Hlo Hhi].
    unfold channel_sum. cbn [map fold_right]. fold (channel_sum j rest).
    rewrite Hx. cbn [default length]. rewrite Nat2Z.inj_succ.
    unfold Z.succ. rewrite inject_Z_plus. split.
    + assert (E : (lo * (inject_Z (Z.of_nat (length rest)) + inject_Z 1)
                   == lo + lo * inject_Z (Z.of_nat (length rest)))%Q) by ring.
      rewrite E. apply Qplus_le_compat; assumption.
    + assert (E : (hi * (inject_Z (Z.of_nat (length rest)) + inject_Z 1)
                   == hi + hi * inject_Z (Z.of_nat (length rest)))%Q) by ring.
      rewrite E. apply Qplus_le_compat; assumption.
Qed.

Lemma centroid_bounds (lo hi : Q) (C : nat) (dataset : list (list Q)) :
  dataset <> [] ->
  Forall (fun p : list Q => length p = C /\
                            Forall (fun x => lo <= x /\ x <= hi)%Q p) dataset ->
  exists c,
    centroid (map (map Num) dataset) = map Num c /\ length c = C /\
    Forall (fun x => lo <= x /\ x <= hi)%Q c.
Proof.
  intros Hne Hall.
  destruct (centroid_mean C dataset Hne) as (c & Hrun & Hlen & Hmean).
  { eapply Forall_impl; [exact Hall|]. intros p [Hp _]. exact Hp. }
  exists c. split; [exact Hrun|]. split; [exact Hlen|].
  apply Forall_lookup_2. intros j x Hx.
  assert (Hj : (j < C)%nat) by (rewrite <- Hlen; eapply lookup_lt_Some; exact Hx).
  specialize (Hmean j Hj). rewrite Hx in Hmean. cbn [default] in Hmean.
  destruct (channel_sum_bounds lo hi j dataset) as [H1 H2].
  { eapply Forall_impl; [exact Hall|]. intros p [Hp Hb]. split; [lia | exact Hb]. }
  set (n := inject_Z (Z.of_nat (length dataset))) in *.
  assert (Hn : (0 < n)%Q).
  { unfold n, Qlt, inject_Z. destruct dataset; [congruence|]. cbn [length]. simpl. lia. }
  rewrite Hmean. split.
  - apply Qle_shift_div_l; assumption.
  - apply Qle_shift_div_r; assumption.
Qed.



(** ** kMeans: the assignment loop *)

Lemma concat_insert_app {A} (clusters : list (list A)) (i : nat)
    (cluster : list A) (p : A) :
  clusters !! i = Some cluster ->
  concat (<[i := cluster ++ [p]]> clusters) ≡ₚ concat clusters ++ [p].
Proof.
  revert i. induction clusters as [|c clusters IH]; intros [|i] H; try discriminate.
  - injection H as ->. cbn [list_insert insert concat].
    rewrite <- !app_assoc. apply Permutation_app_head, Permutation_app_comm.
  - cbn [list_insert insert concat]. change (insert i ?x clusters) with (<[i := x]> clusters).
    rewrite (IH i H). rewrite app_assoc. reflexivity.
Qed.

Lemma assign_points_clusters (points : list array) (centroids : list value)
    (clusters clusters' : list (list array)) :
  assign_points points centroids clusters = Return clusters' ->
  (forall i cluster p, clusters !! i = Some cluster -> p ∈ cluster ->
     nearestNeighbor p centroids = Return (Z.of_nat i)) ->
  length clusters' = length clusters /\
  concat clusters' ≡ₚ concat clusters ++ points /\
  (forall i cluster p, clusters' !! i = Some cluster -> p ∈ cluster ->
     nearestNeighbor p centroids = Return (Z.of_nat i)).
Proof.
  revert clusters. induction points as [|point rest IH]; intros clusters Hrun Hinv.
  - injection Hrun as <-. rewrite app_nil_r. auto.
  - cbn [assign_points] in Hrun.
    destruct (nearestNeighbor point centroids) as [nearest| |] eqn:Hnn; try discriminate.
    cbn [obind] in Hrun.
    destruct (js_get clusters nearest) as [cluster|] eqn:Hget; [|discriminate].
    unfold js_get in Hget. destruct (nearest <? 0) eqn:E; [discriminate|].
    apply Z.ltb_ge in E.
    apply IH in Hrun as (Hlen & Hperm & Hinv').
    + rewrite length_insert in Hlen. split; [exact Hlen|]. split; [|exact Hinv'].
      rewrite Hperm, (concat_insert_app _ _ _ _ Hget).
      rewrite <- app_assoc. reflexivity.
    + intros i cl p Hi Hp.
      destruct (decide (i = Z.to_nat nearest)) as [->|Hne].
      * rewrite list_lookup_insert_eq in Hi by (eapply lookup_lt_Some; exact Hget).
        injection Hi as <-. apply elem_of_app in Hp as [Hp|Hp].
        -- eapply Hinv; eauto.
        -- apply list_elem_of_singleton in Hp as ->. rewrite Hnn. f_equal. lia.
      * rewrite list_lookup_insert_ne in Hi by congruence. eapply Hinv; eauto.
Qed.

(** X11. When the assignment loop of a pass returns, the [k] clusters it has
    filled are a partition of the dataset: together they hold every point
    once, and each point lies in the cluster whose index [nearestNeighbor]
    returns for it. *)
Theorem assign_points_partition (dataset : list array) (centroids : list value)
    (k : nat) (clusters : list (list array)) :
  assign_points dataset centroids (replicate k []) = Return clusters ->
  length clusters = k /\
  concat clusters ≡ₚ dataset /\
  (forall i cluster p, clusters !! i = Some cluster -> p ∈ cluster ->
     nearestNeighbor p centroids = Return (Z.of_nat i)).
Proof.
  intros Hrun. apply assign_points_clusters in Hrun as (Hlen & Hperm & Hinv).
  - rewrite length_replicate in Hlen. split; [exact Hlen|]. split; [|exact Hinv].
    rewrite Hperm. clear. induction k as [|k IH]; [reflexivity | exact IH].
  - intros i cluster p Hi Hp. apply lookup_replicate in Hi as [-> _].
    inversion Hp.
Qed.

Lemma assign_points_partition_witness :
  length [[pixel [0; 0]; pixel [1; 1]]; [pixel [9; 9]]] = 2%nat /\
  concat [[pixel [0; 0]; pixel [1; 1]]; [pixel [9; 9]]]
    ≡ₚ [pixel [0; 0]; pixel [9; 9]; pixel [1; 1]] /\
  (forall i cluster p,
     [[pixel [0; 0]; pixel [1; 1]]; [pixel [9; 9]]] !! i = Some cluster ->
     p ∈ cluster ->
     nearestNeighbor p [Some (pixel [0; 0]); Some (pixel [9; 9])]
       = Return (Z.of_nat i)).
Proof.
  apply (assign_points_partition [pixel [0; 0]; pixel [9; 9]; pixel [1; 1]]
           [Some (pixel [0; 0]); Some (pixel [9; 9])] 2
           [[pixel [0; 0]; pixel [1; 1]]; [pixel [9; 9]]]).
  reflexivity.
Defined.

(** ** kMeans: an invariant of the centroids *)

Section Invariant.
Variable P : array -> Prop.
Hypothesis P_centroid :
  forall cluster, cluster <> [] -> Forall P cluster -> P (centroid cluster).

Lemma update_centroids_invariant (todo i : nat) (random : generator)
    (dataset : list array) (clusters : list (list array)) (converged : bool)
    (centroids : list value) (h h' : heap) (r : bool * list value) :
  update_centroids todo i random dataset clusters converged centroids h = (Return r, h') ->
  dataset <> [] -> Forall P dataset -> Forall (Forall P) clusters ->
  (i + todo <= length centroids)%nat ->
  Forall (fun c : value => exists p, c = Some p /\ P p) centroids ->
  seed_ok random h ->
  Forall (fun c : value => exists p, c = Some p /\ P p) (snd r) /\ seed_ok random h'.
Proof.
  intros Hrun Hne Hd Hc. revert i converged centroids h Hrun.
  induction todo as [|todo IH]; intros i converged centroids h Hrun Hbound Hok Hseed.
  - cbn in Hrun. injection Hrun as <- <-. auto.
  - cbn [update_centroids] in Hrun.
    apply bind_returns in Hrun as (centroid_i & h1 & Hci & Hrun).
    apply bind_returns in Hrun as (converged' & h2 & Hconv & Hrun).
    assert (Hh2 : h2 = h1).
    { destruct converged; [apply lift_returns in Hconv as [_ ->]; reflexivity|].
      injection Hconv as _ ->. reflexivity. }
    subst h2.
    assert (Hnew : (exists p, centroid_i = Some p /\ P p) /\ seed_ok random h1).
    { destruct (clusters !! i) as [[|point cluster]|] eqn:Hcl.
      - destruct (random_point_in_dataset random dataset h Hne Hseed)
          as (p & h1' & Hrp & Hin & Hs).
        rewrite Hrp in Hci. injection Hci as <- <-. split; [|exact Hs].
        exists p. split; [reflexivity|].
        rewrite Forall_forall in Hd. apply Hd. exact Hin.
      - injection Hci as <- <-. split; [|exact Hseed].
        exists (centroid (point :: cluster)). split; [reflexivity|].
        apply P_centroid; [discriminate|].
        eapply Forall_lookup_1 in Hcl; [exact Hcl | exact Hc].
      - apply lift_returns in Hci as [Hci _]. discriminate. }
    destruct Hnew as [(p & -> & Hp) Hs].
    eapply IH in Hrun; [exact Hrun | | | exact Hs].
    + rewrite set_value_length; lia.
    + unfold set_value.
      destruct (i <? length centroids)%nat eqn:E; [|apply Nat.ltb_ge in E; lia].
      apply Forall_insert; [exact Hok|]. exists p. auto.
Qed.

Lemma kMeans_while_invariant (fuel : nat) (random : generator)
    (dataset : list array) (k : Z) (centroids palette : list value) (h h' : heap) :
  kMeans_while fuel random dataset k centroids h = (Return palette, h') ->
  dataset <> [] -> Forall P dataset ->
  length centroids = Z.to_nat k ->
  Forall (fun c : value => exists p, c = Some p /\ P p) centroids ->
  seed_ok random h ->
  Forall (fun c : value => exists p, c = Some p /\ P p) palette.
Proof.
  intros Hrun Hne Hd. revert centroids h Hrun.
  induction fuel as [|fuel IH]; intros centroids h Hrun Hlen Hok Hseed; [discriminate|].
  cbn [kMeans_while] in Hrun.
  apply bind_returns in Hrun as (r & h1 & Hit & Hrun).
  pose proof (kMeans_iteration_length _ _ _ _ _ _ _ Hit Hlen) as [Hk Hr].
  unfold kMeans_iteration in Hit.
  apply bind_returns in Hit as (clusters0 & h0 & Hc & Hit).
  apply lift_returns in Hc as [Hc ->].
  apply empty_clusters_returns in Hc as [_ ->].
  apply bind_returns in Hit as (clusters & h0 & Ha & Hit).
  apply lift_returns in Ha as [Ha ->].
  apply (assign_points_members P) in Ha as [Hcl _];
    [| exact Hd | apply Forall_replicate; constructor].
  apply update_centroids_invariant in Hit as [Hch Hs]; try assumption; [|lia].
  destruct (fst r).
  - injection Hrun as <- _. exact Hch.
  - eapply IH; eauto.
Qed.

Lemma kMeans_invariant (fuel : nat) (dataset : list array) (k : option Z)
    (h : heap) (palette : list value) :
  fst (kMeans fuel dataset k h) = Return palette ->
  dataset <> [] -> Forall P dataset ->
  Forall (fun c : value => exists p, c = Some p /\ P p) palette.
Proof.
  intros Hrun Hne Hd. unfold kMeans in Hrun.
  set (k' := match k with None => Z.min 3 (Z.of_nat (length dataset)) | Some z => z end) in *.
  rewrite (bind_step _ _ h (h ++ [0]) (length h)) in Hrun by reflexivity.
  destruct (initial_centroids_members (Z.to_nat k') (length h) dataset [] (h ++ [0]))
    as (cs & h1 & Hinit & Hlen & Hcs & Hs).
  - exact Hne.
  - unfold seed_ok. rewrite lookup_app_r by lia. rewrite Nat.sub_diag. simpl. lia.
  - constructor.
  - rewrite (bind_step _ _ _ _ _ Hinit) in Hrun.
    destruct (kMeans_while fuel (length h) dataset k' cs h1) as [o h2] eqn:Hw.
    simpl in Hrun. subst o.
    eapply kMeans_while_invariant; [exact Hw | exact Hne | exact Hd | exact Hlen | | exact Hs].
    eapply Forall_impl; [exact Hcs|]. intros c (p & -> & Hp). exists p.
    split; [reflexivity|]. rewrite Forall_forall in Hd. apply Hd. exact Hp.
Qed.

End Invariant.

Lemma Forall_map_Num (R : list Q -> Prop) (cluster : list array) :
  Forall (fun a : array => exists q, a = map Num q /\ R q) cluster ->
  exists qs, cluster = map (map Num) qs /\ Forall R qs.
Proof.
  induction 1 as [|a cluster (q & -> & Hq) _ (qs & -> & Hqs)].
  - exists []. auto.
  - exists (q :: qs). split; [reflexivity|]. constructor; assumption.
Qed.

(** X12. On a dataset that is not empty, whose points are [C] finite numbers
    of [lo, hi] each, every centroid [kMeans] returns is an array of [C]
    finite numbers of [lo, hi]: no entry is [undefined], holds a NaN, or
    leaves the range of the samples. *)
Theorem kMeans_palette_within_bounds (lo hi : Q) (C : nat) (fuel : nat)
    (dataset : list (list Q)) (k : option Z) (h : heap) (palette : list value) :
  dataset <> [] ->
  Forall (fun p : list Q => length p = C /\
                            Forall (fun x => lo <= x /\ x <= hi)%Q p) dataset ->
  fst (kMeans fuel (map (map Num) dataset) k h) = Return palette ->
  Forall (fun c : value => exists q, c = Some (map Num q) /\ length q = C /\
                                      Forall (fun x => lo <= x /\ x <= hi)%Q q) palette.
Proof.
  intros Hne Hd Hrun.
  pose (P := fun a : array => exists q, a = map Num q /\
               (length q = C /\ Forall (fun x => lo <= x /\ x <= hi)%Q q)).
  assert (Hpal : Forall (fun c : value => exists p, c = Some p /\ P p) palette).
  { eapply (kMeans_invariant P); [| exact Hrun | |].
    - intros cluster Hcne Hcl.
      apply Forall_map_Num in Hcl as (qs & -> & Hqs).
      destruct (centroid_bounds lo hi C qs) as (c & Hc & Hlen & Hb).
      + intros ->. apply Hcne. reflexivity.
      + exact Hqs.
      + exists c. auto.
    - destruct dataset; [congruence | discriminate].
    - apply Forall_fmap. eapply Forall_impl; [exact Hd|].
      intros p Hp. exists p. auto. }
  eapply Forall_impl; [exact Hpal|].
  intros c (p & -> & q & -> & Hlen & Hb). exists q. auto.
Qed.

Lemma kMeans_palette_within_bounds_witness :
  Forall (fun c : value => exists q, c = Some (map Num q) /\ length q = 4%nat /\
                                      Forall (fun x => 0 <= x /\ x <= 255)%Q q)
    [Some [Num (10 # 2); Num (10 # 2); Num (10 # 2); Num (510 # 2)];
     Some [Num (505 # 2); Num (505 # 2); Num (505 # 2); Num (510 # 2)]].
Proof.
  apply (kMeans_palette_within_bounds 0 255 4 2
           [[0; 0; 0; 255]; [10; 10; 10; 255]; [250; 250; 250; 255];
            [255; 255; 255; 255]]%Q (Some 2) []).
  - discriminate.
  - repeat constructor; discriminate.
  - vm_compute. reflexivity.
Defined.

(** ** kMeans with a single cluster *)







(** ** kMeans on a dataset of one colour *)

Lemma nearestNeighbor_constant (p : list Q) (m : nat) :
  nearestNeighbor (map Num p) (replicate (S m) (array_of p)) = Return 0.
Proof.
  rewrite <- (fmap_replicate array_of (S m) p).
  destruct (nearest_first_minimum p (replicate (S m) p)) as (i & ci & Hnn & Hi & _ & Hfirst).
  - discriminate.
  - apply Forall_replicate. reflexivity.
  - destruct i as [|i]; [exact Hnn|]. exfalso.
    apply lookup_replicate in Hi as [-> _].
    apply (Qlt_irrefl (squared_distance p p)).
    apply (Hfirst 0%nat p); [lia | reflexivity].
Qed.

Lemma assign_points_constant (p : list Q) (n m : nat) (cluster : list array)
    (others : list (list array)) :
  assign_points (replicate n (map Num p)) (replicate (S m) (array_of p))
    (cluster :: others)
  = Return ((cluster ++ replicate n (map Num p)) :: others).
Proof.
  revert cluster. induction n as [|n IH]; intros cluster.
  - cbn. rewrite app_nil_r. reflexivity.
  - change (replicate (S n) (map Num p)) with (map Num p :: replicate n (map Num p)).
    cbn [assign_points]. rewrite nearestNeighbor_constant.
    cbn [obind]. change (js_get (cluster :: others) 0) with (Some cluster).
    cbv iota beta.
    change (<[Z.to_nat 0 := cluster ++ [map Num p]]> (cluster :: others))
      with ((cluster ++ [map Num p]) :: others).
    rewrite IH. rewrite <- app_assoc. reflexivity.
Qed.

Lemma channel_sum_replicate (j n : nat) (p : list Q) :
  (channel_sum j (replicate n p) == inject_Z (Z.of_nat n) * default 0 (p !! j))%Q.
Proof.
  induction n as [|n IH].
  - unfold channel_sum. cbn. ring.
  - unfold channel_sum. cbn [replicate map fold_right]. fold (channel_sum j (replicate n p)).
    rewrite IH, Nat2Z.inj_succ. unfold Z.succ. rewrite inject_Z_plus.
    change (inject_Z 1) with 1%Q. ring.
Qed.

Lemma centroid_constant (p : list Q) (n : nat) :
  exists c, centroid (replicate (S n) (map Num p)) = map Num c /\ Forall2 Qeq c p.
Proof.
  destruct (centroid_mean (length p) (replicate (S n) p)) as (c & Hc & Hlen & Hmean).
  - discriminate.
  - apply Forall_replicate. reflexivity.
  - rewrite fmap_replicate in Hc. exists c. split; [exact Hc|].
    apply Forall2_same_length_lookup_2; [exact Hlen|].
    intros j x y Hx Hy.
    assert (Hj : (j < length p)%nat) by (eapply lookup_lt_Some; exact Hy).
    specialize (Hmean j Hj). rewrite Hx, channel_sum_replicate, Hy in Hmean.
    cbn [default] in Hmean. unfold Datatypes.id in Hmean.
    rewrite length_replicate in Hmean. rewrite Hmean.
    set (N := inject_Z (Z.of_nat (S n))).
    assert (HN : ~ (N == 0)%Q) by (unfold N, Qeq, inject_Z; simpl; lia).
    rewrite (Qmult_comm N y). apply Qdiv_mult_l. exact HN.
Qed.

Lemma isArrayEqual_Qeq (c p : list Q) :
  Forall2 Qeq c p -> isArrayEqual (Some (map Num c)) (array_of p) = Return true.
Proof.
  intros H. unfold isArrayEqual, array_of. rewrite !length_map.
  pose proof (Forall2_length _ _ _ H) as Hlen.
  rewrite Hlen, Nat.eqb_refl. cbn [negb].
  f_equal. apply elements_equal_Qeq; [congruence | exact H].
Qed.

Lemma isArrayEqual_refl (p : list Q) :
  isArrayEqual (array_of p) (array_of p) = Return true.
Proof.
  apply isArrayEqual_Qeq. induction p; constructor; [reflexivity | assumption].
Qed.

(** The update loop past the first cluster: every cluster is empty, every
    draw is the one colour, and no centroid changes. *)
Lemma update_centroids_constant (p : list Q) (n m : nat) (random : generator)
    (cluster : list array) (c0 : value) (todo i : nat) (h : heap) :
  seed_ok random h -> (1 <= i)%nat -> (i + todo <= S m)%nat ->
  exists h',
    update_centroids todo i random (replicate (S n) (map Num p))
      (cluster :: replicate m []) true (c0 :: replicate m (array_of p)) h
    = (Return (true, c0 :: replicate m (array_of p)), h') /\ seed_ok random h'.
Proof.
  revert i h. induction todo as [|todo IH]; intros i h Hseed Hi Hbound.
  - exists h. split; [reflexivity | exact Hseed].
  - cbn [update_centroids].
    destruct i as [|i]; [lia|].
    assert (Hcl : (cluster :: replicate m (@nil array)) !! S i = Some []).
    { cbn. apply lookup_replicate_2. lia. }
    assert (Hc : (c0 :: replicate m (array_of p)) !! S i = Some (array_of p)).
    { cbn. apply lookup_replicate_2. lia. }
    rewrite Hcl.
    destruct (random_point_in_dataset random (replicate (S n) (map Num p)) h)
      as (p' & h1 & Hrp & Hin & Hs); [discriminate | exact Hseed |].
    apply elem_of_replicate in Hin as [-> _].
    rewrite (bind_step _ _ _ _ _ Hrp). cbv beta.
    unfold get_value. rewrite Hc.
    change (Some (map Num p)) with (array_of p).
    rewrite isArrayEqual_refl. unfold bind at 1. unfold lift at 1. cbv beta iota.
    assert (Hset : set_value (c0 :: replicate m (array_of p)) (S i) (array_of p)
                   = c0 :: replicate m (array_of p)).
    { unfold set_value. cbn [length]. rewrite length_replicate.
      destruct (S i <? S m)%nat eqn:E; [|apply Nat.ltb_ge in E; lia].
      apply list_insert_id. exact Hc. }
    rewrite Hset. apply IH; [exact Hs | lia | lia].
Qed.

Lemma kMeans_iteration_constant (p : list Q) (n m : nat) (random : generator)
    (h : heap) :
  seed_ok random h -> Z.of_nat (S m) <= 4294967295 ->
  exists c h',
    kMeans_iteration random (replicate (S n) (map Num p)) (Z.of_nat (S m))
      (replicate (S m) (array_of p)) h
    = (Return (true, Some (map Num c) :: replicate m (array_of p)), h') /\
    Forall2 Qeq c p.
Proof.
  intros Hseed Hk. destruct (centroid_constant p n) as (c & Hc & Hcp).
  unfold kMeans_iteration.
  assert (He : empty_clusters (Z.of_nat (S m)) = Return (replicate (S m) [])).
  { unfold empty_clusters.
    destruct ((Z.of_nat (S m) <? 0) || (4294967295 <? Z.of_nat (S m))) eqn:E.
    - apply orb_true_iff in E as [E|E]; apply Z.ltb_lt in E; lia.
    - rewrite Nat2Z.id. reflexivity. }
  rewrite He. unfold bind at 1. unfold lift at 1. cbv beta iota.
  change (replicate (S m) (@nil array)) with ([] :: replicate m (@nil array)).
  rewrite (assign_points_constant p (S n) m [] (replicate m [])).
  unfold bind at 1. unfold lift at 1. cbv beta iota.
  rewrite Nat2Z.id. cbn [update_centroids app replicate].
  cbn [lookup list_lookup]. unfold bind at 1. unfold ret at 1. cbv beta iota.
  change (map Num p :: replicate n (map Num p)) with (replicate (S n) (map Num p)).
  rewrite Hc. unfold get_value at 1. cbn [lookup list_lookup].
  rewrite (isArrayEqual_Qeq c p Hcp).
  unfold bind at 1. unfold lift at 1. cbv beta iota.
  change (set_value (array_of p :: replicate m (array_of p)) 0 (Some (map Num c)))
    with (Some (map Num c) :: replicate m (array_of p)).
  destruct (update_centroids_constant p n m random (replicate (S n) (map Num p))
              (Some (map Num c)) m 1 h Hseed) as (h' & Hrun & _); [lia | lia |].
  exists c, h'. split; [exact Hrun | exact Hcp].
Qed.

(** X14. On a dataset whose points are all the same array of finite numbers
    [kMeans] returns at the end of its first pass, for every [k] from 1 to
    [2^32 - 1], and each of the [k] centroids it returns equals that array
    under [isArrayEqual]. *)
Theorem kMeans_constant_dataset (fuel n : nat) (p : list Q) (k : Z) (h : heap) :
  1 <= k <= 4294967295 ->
  exists palette,
    fst (kMeans (S fuel) (replicate (S n) (map Num p)) (Some k) h) = Return palette /\
    length palette = Z.to_nat k /\
    Forall (fun c : value => isArrayEqual c (array_of p) = Return true) palette.
Proof.
  intros Hk. unfold kMeans.
  rewrite (bind_step _ _ h (h ++ [0]) (length h)) by reflexivity.
  destruct (initial_centroids_members (Z.to_nat k) (length h)
              (replicate (S n) (map Num p)) [] (h ++ [0]))
    as (cs & h1 & Hinit & Hlen & Hcs & Hs).
  { discriminate. }
  { unfold seed_ok. rewrite lookup_app_r by lia. rewrite Nat.sub_diag. simpl. lia. }
  { constructor. }
  rewrite (bind_step _ _ _ _ _ Hinit).
  destruct (Z.to_nat k) as [|m] eqn:Em; [lia|].
  assert (Hkm : k = Z.of_nat (S m)) by lia.
  assert (Hrep : cs = replicate (S m) (array_of p)).
  { symmetry. apply replicate_as_Forall. split; [exact Hlen|].
    eapply Forall_impl; [exact Hcs|]. intros c (p' & -> & Hin).
    apply elem_of_replicate in Hin as [-> _]. reflexivity. }
  subst cs. rewrite Hkm in *.
  destruct (kMeans_iteration_constant p n m (length h) h1 Hs) as (c & h' & Hit & Hcp);
    [lia|].
  cbn [kMeans_while]. rewrite (bind_step _ _ _ _ _ Hit). cbn [fst snd ret].
  exists (Some (map Num c) :: replicate m (array_of p)).
  split; [reflexivity|]. split; [cbn [length]; rewrite length_replicate; reflexivity|].
  constructor; [apply isArrayEqual_Qeq; exact Hcp|].
  apply Forall_replicate. apply isArrayEqual_refl.
Qed.

Lemma kMeans_constant_dataset_witness :
  exists palette,
    fst (kMeans 1 (replicate 3 (map Num [7; 7; 7; 255]%Q)) (Some 2) []) = Return palette /\
    length palette = Z.to_nat 2 /\
    Forall (fun c : value => isArrayEqual c (array_of [7; 7; 7; 255]%Q) = Return true)
      palette.
Proof.
  apply (kMeans_constant_dataset 0 2 [7; 7; 7; 255]%Q 2 []). lia.
Defined.

(** ** kMeans: what a returned palette is *)

Lemma num_equiv_refl (x : num) : num_equiv x x.
Proof. destruct x; simpl; auto. reflexivity. Qed.

Lemma add_equiv (x x' y y' : num) :
  num_equiv x x' -> num_equiv y y' -> num_equiv (JsNum.add x y) (JsNum.add x' y').
Proof.
  destruct x, x'; simpl; try contradiction; intros Hx;
    destruct y, y'; simpl; try contradiction; intros Hy; auto.
  rewrite Hx, Hy. reflexivity.
Qed.

Lemma sub_equiv (x x' y y' : num) :
  num_equiv x x' -> num_equiv y y' -> num_equiv (JsNum.sub x y) (JsNum.sub x' y').
Proof.
  intros Hx Hy. unfold JsNum.sub. apply add_equiv; [exact Hx|].
  destruct y, y'; simpl in *; try contradiction; auto. rewrite Hy. reflexivity.
Qed.

Lemma pow2_equiv (x x' : num) :
  num_equiv x x' -> num_equiv (JsNum.pow2 x) (JsNum.pow2 x').
Proof.
  destruct x, x'; simpl; try contradiction; auto. intros H. rewrite H. reflexivity.
Qed.

Lemma ltb_equiv (x x' y y' : num) :
  num_equiv x x' -> num_equiv y y' -> JsNum.ltb x y = JsNum.ltb x' y'.
Proof.
  destruct x, x'; simpl; try contradiction; intros Hx;
    destruct y, y'; simpl; try contradiction; intros Hy; auto.
  f_equal. destruct (Qle_bool q1 q) eqn:E1, (Qle_bool q2 q0) eqn:E2; try reflexivity.
  - apply Qle_bool_iff in E1. rewrite Hx, Hy in E1. apply Qle_bool_iff in E1. congruence.
  - apply Qle_bool_iff in E2. rewrite <- Hx, <- Hy in E2. apply Qle_bool_iff in E2.
    congruence.
Qed.

Lemma elements_equal_equiv (a b : array) :
  length a = length b -> elements_equal a b = true -> Forall2 num_equiv a b.
Proof.
  revert b. induction a as [|x a IH]; intros [|y b] Hlen H; try discriminate;
    [constructor|].
  cbn [elements_equal] in H. destruct (JsNum.strict_eqb x y) eqn:E; [|discriminate].
  constructor; [|apply IH; [simpl in Hlen; lia | exact H]].
  destruct x, y; simpl in *; try discriminate; auto. apply Qeq_bool_iff. exact E.
Qed.

Lemma dist_loop_equiv (point a b : array) (d d' : num) :
  Forall2 num_equiv a b -> num_equiv d d' ->
  num_equiv (dist_loop point a d) (dist_loop point b d').
Proof.
  revert a b d d'. induction point as [|pj point IH]; intros a b d d' Hab Hd;
    [exact Hd|].
  cbn [dist_loop]. destruct Hab as [|x y a b Hxy Hab]; cbn [tail].
  - apply IH; [constructor|]. apply add_equiv; [exact Hd | apply num_equiv_refl].
  - apply IH; [exact Hab|]. apply add_equiv; [exact Hd|].
    apply pow2_equiv, sub_equiv; [apply num_equiv_refl | exact Hxy].
Qed.

Lemma nearest_loop_equiv (point : array) (neighbors neighbors' : list value)
    (i best_index : Z) (best_dist best_dist' : num) :
  Forall2 (fun v v' : value => isArrayEqual v v' = Return true) neighbors neighbors' ->
  num_equiv best_dist best_dist' ->
  nearest_loop point neighbors i best_dist best_index
    = nearest_loop point neighbors' i best_dist' best_index.
Proof.
  intros H. revert i best_index best_dist best_dist'.
  induction H as [|v v' neighbors neighbors' Hv _ IH]; intros i bi bd bd' Hbd;
    [reflexivity|].
  cbn [nearest_loop]. destruct v as [a|], v' as [b|]; try discriminate.
  unfold isArrayEqual in Hv.
  destruct (length a =? length b)%nat eqn:Hlen; [|discriminate].
  apply Nat.eqb_eq in Hlen. cbn [negb] in Hv. injection Hv as Hv.
  pose proof (elements_equal_equiv a b Hlen Hv) as Hab.
  cbn [neighbor_dist obind].
  pose proof (dist_loop_equiv point a b _ _ Hab (num_equiv_refl (JsNum.of_Z 0))) as Hd.
  rewrite (ltb_equiv _ _ _ _ Hd Hbd).
  destruct (JsNum.ltb (dist_loop point b (JsNum.of_Z 0)) bd'); apply IH; assumption.
Qed.

Lemma assign_points_equiv (points : list array) (centroids centroids' : list value)
    (clusters : list (list array)) :
  Forall2 (fun v v' : value => isArrayEqual v v' = Return true) centroids centroids' ->
  assign_points points centroids clusters = assign_points points centroids' clusters.
Proof.
  intros H. revert clusters. induction points as [|point rest IH]; intros clusters;
    [reflexivity|].
  cbn [assign_points]. unfold nearestNeighbor.
  rewrite (nearest_loop_equiv point centroids centroids' 0 (-1) PInf PInf H I).
  destruct (nearest_loop point centroids' 0 PInf (-1)) as [nearest| |]; try reflexivity.
  cbn [obind]. destruct (js_get clusters nearest); [apply IH | reflexivity].
Qed.

Lemma js_get_elem_of {A} (l : list A) (i : Z) (x : A) :
  js_get l i = Some x -> x ∈ l.
Proof.
  unfold js_get. destruct (i <? 0); [discriminate|].
  apply list_elem_of_lookup_2.
Qed.

(** The centroids the update loop has stored: the centroid of the cluster,
    or a draw from the dataset for an empty cluster. *)
Lemma update_centroids_values (todo i : nat) (random : generator)
    (dataset : list array) (clusters : list (list array)) (converged : bool)
    (centroids : list value) (h h' : heap) (r : bool * list value) :
  update_centroids todo i random dataset clusters converged centroids h = (Return r, h') ->
  (i + todo <= length centroids)%nat ->
  (forall j, (j < i)%nat -> snd r !! j = centroids !! j) /\
  (forall j, (i <= j < i + todo)%nat ->
     exists cluster,
       clusters !! j = Some cluster /\
       match cluster with
       | [] => snd r !! j = Some None \/
               exists p, snd r !! j = Some (Some p) /\ p ∈ dataset
       | _ :: _ => snd r !! j = Some (Some (centroid cluster))
       end).
Proof.
  revert i converged centroids h.
  induction todo as [|todo IH]; intros i converged centroids h Hrun Hbound.
  - cbn in Hrun. injection Hrun as <- _. split; [reflexivity | lia].
  - cbn [update_centroids] in Hrun.
    apply bind_returns in Hrun as (centroid_i & h1 & Hci & Hrun).
    apply bind_returns in Hrun as (converged' & h2 & _ & Hrun).
    apply IH in Hrun as [Hbelow Hrest]; [|rewrite set_value_length; lia].
    assert (Hset : forall j, set_value centroids i centroid_i !! j =
                     if decide (j = i) then Some centroid_i else centroids !! j).
    { intros j. unfold set_value.
      destruct (i <? length centroids)%nat eqn:E; [|apply Nat.ltb_ge in E; lia].
      apply Nat.ltb_lt in E. destruct (decide (j = i)) as [->|Hne].
      - apply list_lookup_insert_eq. exact E.
      - apply list_lookup_insert_ne. congruence. }
    split.
    + intros j Hj. rewrite Hbelow by lia. rewrite Hset.
      destruct (decide (j = i)); [lia | reflexivity].
    + intros j Hj. destruct (decide (j = i)) as [->|Hne]; [|apply Hrest; lia].
      rewrite Hbelow by lia. rewrite Hset. destruct (decide (i = i)); [|congruence].
      destruct (clusters !! i) as [[|point cluster]|] eqn:Hcl.
      * exists []. split; [reflexivity|].
        rewrite random_point_spec in Hci. injection Hci as <- _.
        destruct (js_get dataset _) as [p|] eqn:Hget; [|left; reflexivity].
        right. exists p. split; [reflexivity|]. eapply js_get_elem_of. exact Hget.
      * exists (point :: cluster). split; [reflexivity|].
        injection Hci as <- _. reflexivity.
      * apply lift_returns in Hci as [Hci _]. discriminate.
Qed.

(** X15. A palette [kMeans] returns is a fixed point of its pass: assigning
    the dataset to the returned centroids succeeds, and every centroid is the
    centroid of the cluster of the points assigned to it, or a pixel of the
    dataset when no point is assigned to it. *)
Theorem kMeans_returns_fixed_point (fuel : nat) (dataset : list array) (k : Z)
    (h : heap) (palette : list value) :
  fst (kMeans fuel dataset (Some k) h) = Return palette ->
  exists clusters,
    assign_points dataset palette (replicate (Z.to_nat k) []) = Return clusters /\
    length clusters = Z.to_nat k /\
    forall i cluster, clusters !! i = Some cluster ->
      match cluster with
      | [] => exists p, palette !! i = Some (Some p) /\ p ∈ dataset
      | _ :: _ => palette !! i = Some (Some (centroid cluster))
      end.
Proof.
  intros Hrun.
  destruct (kMeans_unfold fuel dataset k h) as (cs0 & h0 & _ & Hlen0 & Hk).
  rewrite Hk in Hrun.
  apply kMeans_while_returns_iff in Hrun as (n & cs & hn & h' & _ & Hpasses & Hit).
  pose proof (passes_length _ _ _ _ _ _ _ _ Hpasses Hlen0) as Hlen.
  pose proof (kMeans_iteration_converged _ _ _ _ _ _ _ Hit Hlen) as Hconv.
  pose proof (kMeans_iteration_length _ _ _ _ _ _ _ Hit Hlen) as [Hk0 Hplen].
  cbn [snd] in Hplen.
  assert (Hequiv : Forall2 (fun v v' : value => isArrayEqual v v' = Return true)
                     palette cs).
  { apply Forall2_same_length_lookup_2; [congruence|].
    intros j x y Hx Hy. specialize (Hconv j ltac:(eapply lookup_lt_Some; exact Hy)).
    unfold get_value in Hconv. rewrite Hx, Hy in Hconv. exact Hconv. }
  unfold kMeans_iteration in Hit.
  apply bind_returns in Hit as (clusters0 & h1 & Hc & Hit).
  apply lift_returns in Hc as [Hc ->].
  apply empty_clusters_returns in Hc as [_ ->].
  apply bind_returns in Hit as (clusters & h1 & Ha & Hit).
  apply lift_returns in Ha as [Ha ->].
  pose proof (assign_points_members (fun _ => True) _ _ _ _ Ha) as [_ Hcl].
  { apply Forall_true. auto. }
  { apply Forall_true. intros. apply Forall_true. auto. }
  rewrite length_replicate in Hcl.
  apply update_centroids_values in Hit as [_ Hval]; [|lia]. cbn [snd] in Hval.
  exists clusters. split; [|split; [exact Hcl|]].
  - rewrite (assign_points_equiv dataset palette cs _ Hequiv). exact Ha.
  - intros i cluster Hi.
    assert (Hik : (i < Z.to_nat k)%nat) by (rewrite <- Hcl; eapply lookup_lt_Some; exact Hi).
    destruct (Hval i ltac:(lia)) as (cluster' & Hi' & Hc).
    rewrite Hi in Hi'. injection Hi' as <-.
    destruct cluster as [|point cluster]; [|exact Hc].
    destruct Hc as [Hnone|Hsome]; [|exact Hsome].
    specialize (Hconv i ltac:(lia)). unfold get_value in Hconv at 1.
    rewrite Hnone in Hconv. discriminate.
Qed.

Lemma kMeans_returns_fixed_point_witness :
  exists clusters,
    assign_points dataset4
      [Some [Num (10 # 2); Num (10 # 2); Num (10 # 2); Num (510 # 2)];
       Some [Num (505 # 2); Num (505 # 2); Num (505 # 2); Num (510 # 2)]]
      (replicate (Z.to_nat 2) []) = Return clusters /\
    length clusters = Z.to_nat 2 /\
    forall i cluster, clusters !! i = Some cluster ->
      match cluster with
      | [] => exists p,
                [Some [Num (10 # 2); Num (10 # 2); Num (10 # 2); Num (510 # 2)];
                 Some [Num (505 # 2); Num (505 # 2); Num (505 # 2); Num (510 # 2)]]
                  !! i = Some (Some p) /\ p ∈ dataset4
      | _ :: _ =>
          [Some [Num (10 # 2); Num (10 # 2); Num (10 # 2); Num (510 # 2)];
           Some [Num (505 # 2); Num (505 # 2); Num (505 # 2); Num (510 # 2)]]
            !! i = Some (Some (centroid cluster))
      end.
Proof.
  apply (kMeans_returns_fixed_point 2 dataset4 2 []). vm_compute. reflexivity.
Defined.

(** ** kMeans on a dataset with a NaN sample *)

Lemma assign_points_NaN (points : list array) (centroids : list value)
    (clusters : list (list array)) :
  (exists p, p ∈ points /\ NaN ∈ p) -> Forall is_Some centroids ->
  assign_points points centroids clusters = Throw TypeError.
Proof.
  intros Hnan Hc. revert clusters.
  induction points as [|point rest IH]; intros clusters.
  - destruct Hnan as (p & Hp & _). inversion Hp.
  - cbn [assign_points].
    destruct (nearest_loop_defined point centroids 0 (-1) PInf Hc) as [i Hi].
    unfold nearestNeighbor. rewrite Hi. cbn [obind].
    destruct (js_get clusters i) as [cluster|] eqn:Hget; [|reflexivity].
    apply IH. destruct Hnan as (p & Hp & Hn).
    apply elem_of_cons in Hp as [->|Hp]; [|exists p; auto].
    exfalso. rewrite (nearest_loop_NaN point centroids 0 (-1) PInf Hn Hc) in Hi.
    injection Hi as <-. discriminate.
Qed.

(** X16. On a dataset one of whose points holds a NaN sample, [kMeans]
    throws a TypeError in its first pass, for every [k] from 1 to
    [2^32 - 1]: [nearestNeighbor] returns -1 for that point at the latest,
    and [clusters[-1].push] is a call on [undefined]. *)
Theorem kMeans_NaN_sample (fuel : nat) (dataset : list array) (k : Z) (h : heap) :
  (exists p, p ∈ dataset /\ NaN ∈ p) -> 1 <= k <= 4294967295 ->
  fst (kMeans (S fuel) dataset (Some k) h) = Throw TypeError.
Proof.
  intros Hnan Hk. unfold kMeans.
  rewrite (bind_step _ _ h (h ++ [0]) (length h)) by reflexivity.
  destruct (initial_centroids_members (Z.to_nat k) (length h) dataset [] (h ++ [0]))
    as (cs & h1 & Hinit & _ & Hcs & _).
  { destruct Hnan as (p & Hp & _). intros ->. inversion Hp. }
  { unfold seed_ok. rewrite lookup_app_r by lia. rewrite Nat.sub_diag. simpl. lia. }
  { constructor. }
  rewrite (bind_step _ _ _ _ _ Hinit).
  assert (Hdef : Forall is_Some cs).
  { eapply Forall_impl; [exact Hcs|]. intros c (p & -> & _). eauto. }
  cbn [kMeans_while]. unfold bind at 1. unfold kMeans_iteration.
  unfold bind at 1. unfold lift at 1. unfold empty_clusters.
  destruct ((k <? 0) || (4294967295 <? k)) eqn:E.
  { apply orb_true_iff in E as [E|E]; apply Z.ltb_lt in E; lia. }
  unfold bind at 1. unfold lift at 1.
  rewrite (assign_points_NaN dataset cs _ Hnan Hdef). reflexivity.
Qed.

Lemma kMeans_NaN_sample_witness :
  fst (kMeans 1 [[Num 1; Num 2]; [Num 3; NaN]] (Some 2) []) = Throw TypeError.
Proof.
  apply (kMeans_NaN_sample 0 [[Num 1; Num 2]; [Num 3; NaN]] 2 []).
  - exists [Num 3; NaN]. split; apply list_elem_of_In; simpl; auto.
  - lia.
Defined.

(** ** quantize: errors and the shape of the result *)

Lemma quantize_unbound (img : image) (colors : list value) :
  data img <> [] ->
  (quantize None img colors = Throw ReferenceError \/
   quantize None img colors = Throw TypeError) /\
  (Forall is_Some colors -> quantize None img colors = Throw ReferenceError).
Proof.
  intros Hne. unfold quantize. cbn [quantize_loop].
  assert (Hlt : (0 <? length (data img))%nat = true).
  { apply Nat.ltb_lt. destruct (data img); [congruence | simpl; lia]. }
  rewrite Hlt. unfold nearestNeighbor. split.
  - destruct (nearest_loop_outcome
                (read_pixel (data img) 0
                   (Z.to_nat (Z.of_nat (length (data img)) / (width img * height img))))
                colors 0 (-1) PInf) as [[r ->]| ->]; [left | right]; reflexivity.
  - intros Hall.
    destruct (nearest_loop_defined
                (read_pixel (data img) 0
                   (Z.to_nat (Z.of_nat (length (data img)) / (width img * height img))))
                colors 0 (-1) PInf Hall) as [r ->].
    reflexivity.
Qed.

(** X17. With no binding for the identifier [centroids], as the file
    stands, [quantize] returns no raster for an image that has at least one
    sample: it throws a ReferenceError as soon as [nearestNeighbor] has
    returned for the first pixel, as it does when every colour is defined,
    and otherwise the TypeError of [nearestNeighbor]. *)
Theorem quantize_unbound_centroids (img : image) (colors : list value) :
  data img <> [] ->
  (quantize None img colors = Throw ReferenceError \/
   quantize None img colors = Throw TypeError) /\
  (Forall is_Some colors -> quantize None img colors = Throw ReferenceError).
Proof. exact (quantize_unbound img colors). Qed.

Lemma quantize_unbound_centroids_witness :
  (quantize None one_pixel [Some (pixel [0; 0; 0; 255]); None] = Throw ReferenceError \/
   quantize None one_pixel [Some (pixel [0; 0; 0; 255]); None] = Throw TypeError) /\
  (Forall is_Some [Some (pixel [0; 0; 0; 255]); None] ->
   quantize None one_pixel [Some (pixel [0; 0; 0; 255]); None] = Throw ReferenceError).
Proof.
  apply (quantize_unbound_centroids one_pixel [Some (pixel [0; 0; 0; 255]); None]).
  discriminate.
Defined.

(** X18. With an empty list of colours [nearestNeighbor] returns -1 for the
    first pixel, [centroids[-1]] is [undefined], and reading its [length]
    throws a TypeError, whatever [centroids] is bound to. *)
Theorem quantize_empty_palette (centroids : list value) (img : image) :
  data img <> [] -> quantize (Some centroids) img [] = Throw TypeError.
Proof.
  intros Hne. unfold quantize. cbn [quantize_loop].
  assert (Hlt : (0 <? length (data img))%nat = true).
  { apply Nat.ltb_lt. destruct (data img); [congruence | simpl; lia]. }
  rewrite Hlt. reflexivity.
Qed.

Lemma quantize_empty_palette_witness :
  quantize (Some [Some (pixel [0; 0; 0; 255])]) one_pixel [] = Throw TypeError.
Proof.
  apply (quantize_empty_palette [Some (pixel [0; 0; 0; 255])] one_pixel).
  discriminate.
Defined.

Lemma to_uint8_clamp_range (x : num) : 0 <= to_uint8_clamp x <= 255.
Proof.
  destruct x as [q| | |]; cbn [to_uint8_clamp]; try lia.
  destruct (Qle_bool q 0) eqn:E0; [lia|].
  destruct (Qle_bool 255 q) eqn:E1; [lia|].
  assert (H0 : (0 <= q)%Q).
  { apply Qlt_le_weak, Qnot_le_lt. intros H. apply Qle_bool_iff in H. congruence. }
  assert (H1 : (q < 255)%Q).
  { apply Qnot_le_lt. intros H. apply Qle_bool_iff in H. congruence. }
  pose proof (Qfloor_resp_le 0 q H0) as Hf0. change (Qfloor 0) with 0 in Hf0.
  assert (Hf1 : Qfloor q < 255).
  { pose proof (Qfloor_le q) as Hle.
    pose proof (Qle_lt_trans _ _ _ Hle H1) as Hlt.
    unfold Qlt, inject_Z in Hlt. simpl in Hlt. lia. }
  destruct (Qcompare _ _); [destruct (Z.even _)| |]; lia.
Qed.

Lemma store_color_shape (out : list Z) (i : nat) (nearest_color : array) :
  Forall (fun b => 0 <= b <= 255) out ->
  length (store_color out i nearest_color) = length out /\
  Forall (fun b => 0 <= b <= 255) (store_color out i nearest_color).
Proof.
  revert out i. induction nearest_color as [|c rest IH]; intros out i Hout.
  - auto.
  - cbn [store_color].
    destruct (IH (<[i := to_uint8_clamp c]> out) (S i)) as [Hlen Hall].
    + apply Forall_insert; [exact Hout | apply to_uint8_clamp_range].
    + rewrite length_insert in Hlen. auto.
Qed.

Lemma quantize_loop_shape (fuel : nat) (centroids : option (list value))
    (colors : list value) (src : list Z) (n_channels i : nat) (out out' : list Z) :
  quantize_loop fuel centroids colors src n_channels i out = Return out' ->
  Forall (fun b => 0 <= b <= 255) out ->
  length out' = length out /\ Forall (fun b => 0 <= b <= 255) out'.
Proof.
  revert i out. induction fuel as [|fuel IH]; intros i out Hrun Hout; [discriminate|].
  cbn [quantize_loop] in Hrun.
  destruct (i <? length src)%nat; [|injection Hrun as <-; auto].
  destruct (nearestNeighbor _ colors) as [idx| |]; try discriminate.
  cbn [obind] in Hrun. destruct centroids as [cs|]; [|discriminate].
  destruct (js_get cs idx) as [[nearest_color|]|]; try discriminate.
  destruct (store_color_shape out i nearest_color Hout) as [Hlen Hall].
  apply IH in Hrun as [Hlen' Hall']; [|exact Hall].
  split; [congruence | exact Hall'].
Qed.

(** X19. Whatever [centroids] is bound to and whatever the colours are, a
    raster [quantize] returns has as many samples as the source raster, and
    each of them is an integer of [0, 255]. *)
Theorem quantize_output_shape (centroids : option (list value)) (img : image)
    (colors : list value) (out : list Z) :
  quantize centroids img colors = Return out ->
  length out = length (data img) /\ Forall (fun b => 0 <= b <= 255) out.
Proof.
  unfold quantize. intros Hrun. apply quantize_loop_shape in Hrun as [Hlen Hall].
  - rewrite length_replicate in Hlen. auto.
  - apply Forall_replicate. lia.
Qed.

Lemma quantize_output_shape_witness :
  length [0; 0; 0; 255] = length (data red_pixel) /\
  Forall (fun b => 0 <= b <= 255) [0; 0; 0; 255].
Proof.
  apply (quantize_output_shape (Some fractional_palette) red_pixel fractional_palette
           [0; 0; 0; 255]).
  vm_compute. reflexivity.
Defined.

(** ** quantize: the colour written for a pixel *)


(** Storing a colour over the samples that start at [length pre]. *)
Lemma store_color_clamped (pre old post : list Z) (c : array) (i : nat) :
  i = length pre -> length old = length c ->
  store_color (pre ++ old ++ post) i c = pre ++ map to_uint8_clamp c ++ post.
Proof.
  intros ->. revert pre old. induction c as [|x c IH]; intros pre old Hlen.
  - destruct old; [reflexivity | discriminate].
  - destruct old as [|o old]; [discriminate|]. simpl in Hlen. injection Hlen as Hlen.
    cbn [map store_color].
    replace (length pre) with (length pre + 0)%nat at 1 by lia.
    rewrite insert_app_r. cbn [app]. cbn [list_insert insert].
    change (pre ++ to_uint8_clamp x :: old ++ post)
      with (pre ++ [to_uint8_clamp x] ++ old ++ post).
    rewrite (app_assoc pre [to_uint8_clamp x]).
    replace (S (length pre)) with (length (pre ++ [to_uint8_clamp x]))
      by (rewrite length_app; simpl; lia).
    rewrite IH by assumption.
    rewrite <- app_assoc. reflexivity.
Qed.

(** The colour selected for a pixel of four channels in a palette of finite
    colours of four channels. *)
Lemma quantized_pixel_spec (palette : list (list Q)) (px : list Z) :
  palette <> [] -> Forall (fun c : list Q => length c = 4%nat) palette ->
  length px = 4%nat ->
  exists i c,
    nearestNeighbor (pixel px) (map array_of palette) = Return (Z.of_nat i) /\
    palette !! i = Some c /\
    quantized_pixel (map array_of palette) px = map to_uint8_clamp (map Num c) /\
    (forall j cj, palette !! j = Some cj ->
       (squared_distance (map inject_Z px) c
          <= squared_distance (map inject_Z px) cj)%Q) /\
    (forall j cj, (j < i)%nat -> palette !! j = Some cj ->
       (squared_distance (map inject_Z px) c
          < squared_distance (map inject_Z px) cj)%Q).
Proof.
  intros Hne Hpal Hpx.
  destruct (nearest_first_minimum (map inject_Z px) palette)
    as (i & c & Hnn & Hi & Hmin & Hfirst).
  - exact Hne.
  - eapply Forall_impl; [exact Hpal|]. intros c Hc. simpl. rewrite length_map. congruence.
  - rewrite pixel_inject in Hnn. exists i, c.
    split; [exact Hnn|]. split; [exact Hi|]. split; [|split; assumption].
    unfold quantized_pixel. rewrite Hnn. unfold js_get.
    destruct (Z.of_nat i <? 0) eqn:E; [apply Z.ltb_lt in E; lia|].
    rewrite Nat2Z.id, list_lookup_fmap, Hi. reflexivity.
Qed.

Lemma quantize_loop_pixels (palette : list (list Q)) (chunks : list (list Z)) :
  palette <> [] -> Forall (fun c : list Q => length c = 4%nat) palette ->
  Forall (fun px : list Z => length px = 4%nat) chunks ->
  forall (fuel : nat) (done_src done_out : list Z),
    length done_out = length done_src ->
    (length chunks < fuel)%nat ->
    quantize_loop fuel (Some (map array_of palette)) (map array_of palette)
      (done_src ++ concat chunks) 4 (length done_src)
      (done_out ++ replicate (length (concat chunks)) 0)
    = Return (done_out ++ concat (map (quantized_pixel (map array_of palette)) chunks)).
Proof.
  intros Hne Hpal Hchunks.
  induction Hchunks as [|px rest Hpx Hrest IH]; intros fuel done_src done_out Hlen Hfuel.
  - destruct fuel as [|fuel]; [simpl in Hfuel; lia|].
    cbn [quantize_loop concat map]. rewrite !app_nil_r.
    rewrite Nat.ltb_irrefl. reflexivity.
  - destruct fuel as [|fuel]; [simpl in Hfuel; lia|].
    destruct px as [|b0 [|b1 [|b2 [|b3 [|? ?]]]]]; try discriminate.
    destruct (quantized_pixel_spec palette [b0; b1; b2; b3] Hne Hpal eq_refl)
      as (i & c & Hnn & Hc & Hq & _).
    assert (Hc4 : length c = 4%nat).
    { eapply Forall_lookup_1 in Hc; [exact Hc | exact Hpal]. }
    cbn [quantize_loop concat map].
    assert (Hin : (length done_src <? length (done_src ++ [b0; b1; b2; b3] ++ concat rest))%nat = true).
    { apply Nat.ltb_lt. rewrite length_app. simpl. lia. }
    rewrite Hin, read_pixel_chunk, Hnn. cbn [obind].
    assert (Hget : js_get (map array_of palette) (Z.of_nat i) = Some (Some (map Num c))).
    { unfold js_get. destruct (Z.of_nat i <? 0) eqn:E; [apply Z.ltb_lt in E; lia|].
      rewrite Nat2Z.id, list_lookup_fmap, Hc. reflexivity. }
    rewrite Hget.
    replace (length ([b0; b1; b2; b3] ++ concat rest))
      with (4 + length (concat rest))%nat by (rewrite length_app; reflexivity).
    rewrite replicate_add.
    rewrite (store_color_clamped done_out (replicate 4 0) _ (map Num c) (length done_src))
      by (rewrite ?length_replicate, ?length_map; auto).
    rewrite Hq.
    replace (length done_src + 4)%nat with (length (done_src ++ [b0; b1; b2; b3]))
      by (rewrite length_app; reflexivity).
    rewrite (app_assoc done_src), (app_assoc done_out (map to_uint8_clamp (map Num c))).
    rewrite IH; [rewrite <- app_assoc; reflexivity | | simpl in Hfuel; lia].
    rewrite !length_app, !length_map, Hlen, Hc4. reflexivity.
Qed.

Lemma quantize_pixels (palette : list (list Q)) (img : image) :
  wf_image img -> palette <> [] ->
  Forall (fun c : list Q => length c = 4%nat) palette ->
  exists chunks,
    data img = concat chunks /\
    Z.of_nat (length chunks) = width img * height img /\
    Forall (fun px : list Z => length px = 4%nat) chunks /\
    quantize (Some (map array_of palette)) img (map array_of palette)
      = Return (concat (map (quantized_pixel (map array_of palette)) chunks)).
Proof.
  intros (Hw & Hh & Hlen & _) Hne Hpal. destruct img as [w h src].
  cbn [width height data] in *.
  assert (Hpos : 0 < w * h) by lia.
  destruct (chunks_of (Z.to_nat (w * h)) src) as (chunks & -> & Hn & Hchunks); [lia|].
  exists chunks. split; [reflexivity|]. split; [lia|]. split; [exact Hchunks|].
  unfold quantize. cbn [width height data].
  rewrite (length_concat_chunks chunks Hchunks).
  replace (Z.to_nat (Z.of_nat (4 * length chunks) / (w * h))) with 4%nat.
  - pose proof (quantize_loop_pixels palette chunks Hne Hpal Hchunks
                  (S (4 * length chunks)) [] [] eq_refl) as Hloop.
    cbn [app length] in Hloop.
    rewrite (length_concat_chunks chunks Hchunks) in Hloop.
    apply Hloop. lia.
  - rewrite Nat2Z.inj_mul. replace (Z.of_nat (length chunks)) with (w * h) by lia.
    change (Z.of_nat 4) with 4. rewrite Z.div_mul by lia. reflexivity.
Qed.



(** ** rescaleDimensions: the dimensions it can return *)

Lemma pow3_bound (u : R) : (0 < u <= / 1024)%R ->
  ((1 + u) * (1 + u) * (1 + u) <= 1 + 4 * u)%R.
Proof. intros Hu. nra. Qed.

Lemma rescale_zero_height (w h pixels : Z) :
  0 < w <= 2 ^ 49 -> 0 < h -> 0 < pixels -> h * pixels < w ->
  Binary64.to_Z (snd (rescaleDimensions (Binary64.of_Z w) (Binary64.of_Z h)
                        (Binary64.of_Z pixels))) = Some 0.
Proof.
  intros Hw Hh Hp Hlt.
  assert (Hw' : 0 < w < 2 ^ 53).
  { split; [lia|]. apply Z.le_lt_trans with (2 ^ 49); [lia | reflexivity]. }
  assert (Hh' : 0 < h < 2 ^ 53) by nia.
  assert (Hp' : 0 < pixels < 2 ^ 53) by nia.
  destruct (rescale_values w h pixels Hw' Hh' Hp')
    as (A & Q & S & M & NA & NQ & NS & NM & HA & HQ & HS & HM).
  unfold rescaleDimensions. cbn [snd].
  destruct (floor_pos_normal _ S NS) as (n & Hn & Hn0 & HnS).
  rewrite Hn. f_equal.
  pose proof bpow_m52_small as Hu. set (u := bpow (-52)) in *.
  pose proof (pos_normal_pos _ _ NA) as HApos.
  pose proof (pos_normal_pos _ _ NQ) as HQpos.
  pose proof (pos_normal_pos _ _ NS) as HSpos.
  set (W := IZR w) in *. set (H := IZR h) in *. set (P := IZR pixels) in *.
  assert (HW : (1 <= W)%R) by (apply IZR_le; lia).
  assert (HH : (1 <= H)%R) by (apply IZR_le; lia).
  assert (HP : (1 <= P)%R) by (apply IZR_le; lia).
  assert (HHP : (H * P + 1 <= W)%R).
  { unfold W, P, H. rewrite <- mult_IZR, <- (plus_IZR _ 1). apply IZR_le. lia. }
  assert (HWu : (W * u <= / 8)%R).
  { assert (HP49 : (W <= bpow 49)%R) by (unfold W; rewrite bpow_IZR by lia; apply IZR_le; lia).
    assert (E : (bpow 49 * u = / 8)%R).
    { unfold u. rewrite <- bpow_add. change (49 + -52) with (-3).
      assert (Ho : (bpow 3 * bpow (-3) = 1)%R) by exact (bpow_opp 3).
      rewrite (bpow_IZR 3) in Ho by lia. change (IZR (2 ^ 3)) with 8%R in Ho. lra. }
    rewrite <- E. apply Rmult_le_compat_r; lra. }
  set (sq := sqrt Q) in *.
  assert (Hsq0 : (0 <= sq)%R) by apply sqrt_pos.
  assert (Hsq2 : (sq * sq = Q)%R) by (apply sqrt_sqrt; lra).
  assert (HAQ : (A * Q <= P * (1 + u))%R).
  { assert (E : (P = P / A * A)%R) by (field; lra).
    set (r := (P / A)%R) in *. destruct HQ as [_ HQ]. nra. }
  assert (HS2 : (S * S <= Q * ((1 + u) * (1 + u)))%R).
  { destruct HS as [_ HS]. rewrite <- Hsq2.
    assert (S * S <= (sq * (1 + u)) * (sq * (1 + u)))%R by nra. nra. }
  assert (HAH : (W * (1 - u) <= A * H)%R).
  { assert (E : (W = W / H * H)%R) by (field; lra).
    set (r := (W / H)%R) in *. destruct HA as [HA _].
    assert (r * (1 - u) * H <= A * H)%R by (apply Rmult_le_compat_r; lra).
    nra. }
  (* S^2 * W * (1 - u) <= H * P * (1 + u)^3 *)
  assert (Hc2 : (0 < (1 + u) * (1 + u))%R) by nra.
  assert (H1 : (S * S * (W * (1 - u)) <= S * S * (A * H))%R).
  { apply Rmult_le_compat_l; [nra | exact HAH]. }
  assert (H2 : (S * S * (A * H) <= Q * ((1 + u) * (1 + u)) * (A * H))%R).
  { apply Rmult_le_compat_r; [nra | exact HS2]. }
  assert (H3 : (Q * ((1 + u) * (1 + u)) * (A * H) = A * Q * (H * ((1 + u) * (1 + u))))%R) by ring.
  assert (H4 : (A * Q * (H * ((1 + u) * (1 + u))) <= P * (1 + u) * (H * ((1 + u) * (1 + u))))%R).
  { apply Rmult_le_compat_r; [nra | exact HAQ]. }
  assert (H5 : (P * (1 + u) * (H * ((1 + u) * (1 + u))) = H * P * ((1 + u) * (1 + u) * (1 + u)))%R) by ring.
  pose proof (pow3_bound u Hu) as H6.
  assert (H7 : (H * P * ((1 + u) * (1 + u) * (1 + u)) <= H * P * (1 + 4 * u))%R).
  { apply Rmult_le_compat_l; [nra | exact H6]. }
  assert (H8 : (H * P * (1 + 4 * u) <= (W - 1) * (1 + 4 * u))%R).
  { apply Rmult_le_compat_r; lra. }
  assert (H9 : ((W - 1) * (1 + 4 * u) = W + 4 * (W * u) - 1 - 4 * u)%R) by ring.
  assert (H10 : (W * (1 - u) = W - W * u)%R) by ring.
  assert (HS1 : (S < 1)%R).
  { destruct (Rlt_le_dec S 1) as [Hlt1|Hge1]; [exact Hlt1|].
    exfalso.
    assert (Hmm : (1 * 1 <= S * S)%R) by (apply Rmult_le_compat; lra).
    assert (Hmh : (1 * 1 * (W * (1 - u)) <= S * S * (W * (1 - u)))%R).
    { apply Rmult_le_compat_r; [nra | exact Hmm]. }
    lra. }
  assert (Hn1 : (IZR n < 1)%R) by lra.
  apply lt_IZR in Hn1. lia.
Qed.

(** X21. On binary64 numbers, for positive integers [w], [h] up to [2^49]
    and a positive budget [P], [rescaleDimensions] returns the width 0
    when [w * P < h] and the height 0 when [h * P < w]: an image more than
    [P] times taller than wide is given a canvas of no width, as
    [rescaleDimensions(1, 60000, 50000)], which is [[0, 54772]].  Rounding
    gives the width 0 to some other images as well:
    [rescaleDimensions(1, 49, 49)] is [[0, 49]]. *)
Theorem rescaleDimensions_zero_dimension (w h pixels : Z) :
  0 < w <= 2 ^ 49 -> 0 < h <= 2 ^ 49 -> 0 < pixels ->
  (w * pixels < h ->
   Binary64.to_Z (fst (rescaleDimensions (Binary64.of_Z w) (Binary64.of_Z h)
                         (Binary64.of_Z pixels))) = Some 0) /\
  (h * pixels < w ->
   Binary64.to_Z (snd (rescaleDimensions (Binary64.of_Z w) (Binary64.of_Z h)
                         (Binary64.of_Z pixels))) = Some 0) /\
  rescaleDimensions (Binary64.of_Z 1) (Binary64.of_Z 60000) (Binary64.of_Z 50000)
    = (Binary64.of_Z 0, Binary64.of_Z 54772) /\
  rescaleDimensions (Binary64.of_Z 1) (Binary64.of_Z 49) (Binary64.of_Z 49)
    = (Binary64.of_Z 0, Binary64.of_Z 49).
Proof.
  intros Hw Hh Hp. split; [|split; [|split; vm_compute; reflexivity]].
  - intros Hlt. apply rescale_zero_width; lia.
  - intros Hlt. apply rescale_zero_height; lia.
Qed.

Lemma rescaleDimensions_zero_dimension_witness :
  (1 * 50000 < 60000 ->
   Binary64.to_Z (fst (rescaleDimensions (Binary64.of_Z 1) (Binary64.of_Z 60000)
                         (Binary64.of_Z 50000))) = Some 0) /\
  (60000 * 50000 < 1 ->
   Binary64.to_Z (snd (rescaleDimensions (Binary64.of_Z 1) (Binary64.of_Z 60000)
                         (Binary64.of_Z 50000))) = Some 0) /\
  rescaleDimensions (Binary64.of_Z 1) (Binary64.of_Z 60000) (Binary64.of_Z 50000)
    = (Binary64.of_Z 0, Binary64.of_Z 54772) /\
  rescaleDimensions (Binary64.of_Z 1) (Binary64.of_Z 49) (Binary64.of_Z 49)
    = (Binary64.of_Z 0, Binary64.of_Z 49).
Proof.
  apply (rescaleDimensions_zero_dimension 1 60000 50000); lia.
Defined.

(** ** getPixelDataset *)

Lemma dataset_loop_chunks (chunks : list (list Z)) :
  Forall (fun px : list Z => length px = 4%nat) chunks ->
  forall (fuel : nat) (done : list Z) (dataset : list (list Z)),
    (length chunks < fuel)%nat ->
    dataset_loop fuel (done ++ concat chunks) 4 (length done) dataset
      = Return (dataset ++ chunks).
Proof.
  induction 1 as [|px rest Hpx _ IH]; intros fuel done dataset Hfuel.
  - destruct fuel as [|fuel]; [simpl in Hfuel; lia|].
    cbn [dataset_loop concat]. rewrite !app_nil_r, Nat.ltb_irrefl. reflexivity.
  - destruct fuel as [|fuel]; [simpl in Hfuel; lia|].
    cbn [dataset_loop concat].
    assert (Hin : (length done <? length (done ++ px ++ concat rest))%nat = true).
    { apply Nat.ltb_lt. rewrite !length_app, Hpx. lia. }
    rewrite Hin.
    assert (Hslice : slice (done ++ px ++ concat rest) (length done) 4 = px).
    { unfold slice. rewrite drop_app_length. apply take_app_length'.
      symmetry. exact Hpx. }
    rewrite Hslice.
    replace (length done + 4)%nat with (length (done ++ px))
      by (rewrite length_app, Hpx; reflexivity).
    rewrite (app_assoc done px).
    rewrite IH by (simpl in Hfuel; lia).
    rewrite <- app_assoc. reflexivity.
Qed.

(** X23. When the host returns the raster of a canvas of [w'] by [h']
    pixels, four samples a pixel, [getPixelDataset] returns its [w' * h']
    pixels in order, four samples each: flattening the dataset gives the
    raster back. The canvas has the dimensions of the image when
    [resizedPixels] is omitted, is not positive, or is at least the number of
    pixels of the image. *)
Theorem getPixelDataset_round_trip (getImageData : Z -> Z -> outcome (list Z))
    (img_width img_height : Z) (resizedPixels : option Z)
    (canvasWidth canvasHeight : Z) (flattenedDataset : list Z) :
  canvas_dimensions img_width img_height resizedPixels
    = Return (canvasWidth, canvasHeight) ->
  0 < canvasWidth -> 0 < canvasHeight ->
  getImageData canvasWidth canvasHeight = Return flattenedDataset ->
  Z.of_nat (length flattenedDataset) = 4 * (canvasWidth * canvasHeight) ->
  (exists dataset,
     getPixelDataset getImageData img_width img_height resizedPixels
       = Return dataset /\
     concat dataset = flattenedDataset /\
     Z.of_nat (length dataset) = canvasWidth * canvasHeight /\
     Forall (fun px : list Z => length px = 4%nat) dataset) /\
  ((forall p, resizedPixels = Some p -> p <= 0 \/ img_width * img_height <= p) ->
   canvasWidth = img_width /\ canvasHeight = img_height).
Proof.
  intros Hcanvas Hw Hh Hhost Hlen. split.
  - unfold getPixelDataset. rewrite Hcanvas. cbn [obind fst snd].
    rewrite Hhost. cbn [obind].
    destruct (chunks_of (Z.to_nat (canvasWidth * canvasHeight)) flattenedDataset)
      as (chunks & -> & Hn & Hchunks); [lia|].
    exists chunks.
    replace (Z.to_nat (Z.of_nat (length (concat chunks)) / (canvasWidth * canvasHeight)))
      with 4%nat.
    + pose proof (dataset_loop_chunks chunks Hchunks (S (length (concat chunks))) [] [])
        as Hloop.
      cbn [app length] in Hloop. rewrite Hloop.
      * split; [reflexivity|]. split; [reflexivity|]. split; [lia | exact Hchunks].
      * rewrite (length_concat_chunks chunks Hchunks). lia.
    + rewrite Hlen, Z.div_mul by lia. reflexivity.
  - intros Hfit. unfold canvas_dimensions in Hcanvas.
    destruct resizedPixels as [p|]; [|injection Hcanvas as <- <-; auto].
    destruct ((0 <? p) && (p <? img_width * img_height)) eqn:E.
    + apply andb_true_iff in E as [E1 E2]. apply Z.ltb_lt in E1, E2.
      destruct (Hfit p eq_refl); lia.
    + injection Hcanvas as <- <-. auto.
Qed.

Lemma getPixelDataset_round_trip_witness :
  (exists dataset,
     getPixelDataset (fun _ _ => Return [1; 0; 0; 255; 250; 251; 252; 255]) 2 1
       (Some 50000) = Return dataset /\
     concat dataset = [1; 0; 0; 255; 250; 251; 252; 255] /\
     Z.of_nat (length dataset) = 2 * 1 /\
     Forall (fun px : list Z => length px = 4%nat) dataset) /\
  ((forall p, Some 50000 = Some p -> p <= 0 \/ 2 * 1 <= p) ->
   2 = 2 /\ 1 = 1).
Proof.
  apply (getPixelDataset_round_trip
           (fun _ _ => Return [1; 0; 0; 255; 250; 251; 252; 255]) 2 1 (Some 50000)
           2 1 [1; 0; 0; 255; 250; 251; 252; 255]).
  - reflexivity.
  - lia.
  - lia.
  - reflexivity.
  - reflexivity.
Defined.

(** An image of 1000 by 500 pixels is drawn on a canvas of 316 by 158 for
    the budget of 50000 pixels the page uses. *)
Example canvas_dimensions_resized :
  canvas_dimensions 1000 500 (Some 50000) = Return (316, 158).
Proof. vm_compute. reflexivity. Qed.

(** ** kMeans and quantize together *)

Lemma Forall_array_of (palette : list value) :
  Forall (fun c : value => exists p, c = Some p /\
            exists q : list Q, p = map Num q /\ length q = 4%nat) palette ->
  exists qs, palette = map array_of qs /\
             Forall (fun c : list Q => length c = 4%nat) qs.
Proof.
  induction 1 as [|c palette (p & -> & q & -> & Hq) _ (qs & -> & Hqs)].
  - exists []. auto.
  - exists (q :: qs). split; [reflexivity|]. constructor; assumption.
Qed.

(** X24. A palette [kMeans] returns for a dataset of pixels of four byte
    samples, with [k >= 1], is one [quantize] accepts: with the identifier
    [centroids] bound to it, [quantize] returns a raster for every raster
    [getImageData] can produce, with a sample of [0, 255] for each sample
    of the source. *)
Theorem quantize_accepts_kMeans_palette (fuel : nat) (dataset : list (list Z))
    (k : Z) (h : heap) (palette : list value) (img : image) :
  dataset <> [] -> Forall byte_color dataset -> 1 <= k ->
  fst (kMeans fuel (map pixel dataset) (Some k) h) = Return palette ->
  wf_image img ->
  exists out,
    quantize (Some palette) img palette = Return out /\
    length out = length (data img) /\ Forall (fun b => 0 <= b <= 255) out.
Proof.
  intros Hne Hd Hk Hrun Hwf.
  pose (P := fun a : array => exists q : list Q, a = map Num q /\ length q = 4%nat).
  assert (Hpal : Forall (fun c : value => exists p, c = Some p /\ P p) palette).
  { eapply (kMeans_invariant P); [| exact Hrun | |].
    - intros cluster Hcne Hcl.
      apply (Forall_map_Num (fun q => length q = 4%nat)) in Hcl as (qs & -> & Hqs).
      destruct (centroid_mean 4 qs) as (c & Hc & Hlen & _).
      + intros ->. apply Hcne. reflexivity.
      + exact Hqs.
      + exists c. auto.
    - destruct dataset; [congruence | discriminate].
    - apply Forall_fmap. eapply Forall_impl; [exact Hd|].
      intros p [Hp _]. exists (map inject_Z p). split.
      + symmetry. apply pixel_inject.
      + rewrite length_map. exact Hp. }
  apply Forall_array_of in Hpal as (qs & -> & Hqs).
  assert (Hqne : qs <> []).
  { intros ->. apply kMeans_returns_k_centroids in Hrun. simpl in Hrun. lia. }
  destruct (quantize_pixels qs img Hwf Hqne Hqs) as (chunks & _ & _ & _ & Hq).
  exists (concat (map (quantized_pixel (map array_of qs)) chunks)).
  split; [exact Hq|].
  apply quantize_loop_shape in Hq as [Hlen Hall].
  - rewrite length_replicate in Hlen. auto.
  - apply Forall_replicate. lia.
Qed.

Lemma quantize_accepts_kMeans_palette_witness :
  exists out,
    quantize
      (Some [Some [Num (10 # 2); Num (10 # 2); Num (10 # 2); Num (510 # 2)];
             Some [Num (505 # 2); Num (505 # 2); Num (505 # 2); Num (510 # 2)]])
      {| width := 2; height := 1; data := [10; 10; 10; 255; 250; 250; 250; 255] |}
      [Some [Num (10 # 2); Num (10 # 2); Num (10 # 2); Num (510 # 2)];
       Some [Num (505 # 2); Num (505 # 2); Num (505 # 2); Num (510 # 2)]]
    = Return out /\
    length out
      = length (data {| width := 2; height := 1;
                        data := [10; 10; 10; 255; 250; 250; 250; 255] |}) /\
    Forall (fun b => 0 <= b <= 255) out.
Proof.
  apply (quantize_accepts_kMeans_palette 2
           [[0; 0; 0; 255]; [10; 10; 10; 255]; [250; 250; 250; 255];
            [255; 255; 255; 255]] 2 []).
  - discriminate.
  - repeat constructor; lia.
  - lia.
  - vm_compute. reflexivity.
  - unfold wf_image. simpl. repeat split; try lia. repeat constructor; lia.
Defined.

(** ** The callback of the Quantize button *)

(** X25. As the file stands, the callback of the Quantize button computes no
    [data_url] for an image that has at least one sample: whatever the host
    returns for the canvas, whatever integer [k] is and however many passes
    [kMeans] is given, the calls [getPixelDataset], [kMeans], [quantize] end
    in an exception or do not end. *)
Theorem quantize_callback_never_returns
    (getImageData : Z -> Z -> outcome (list Z)) (fuel : nat) (img : image)
    (k : Z) (h : heap) (data_url : list Z) :
  data img <> [] ->
  fst (quantize_callback getImageData fuel img k h) <> Return data_url.
Proof.
  intros Hne Hrun. unfold quantize_callback in Hrun.
  destruct (bind _ _ h) as [o h'] eqn:Hb. cbn [fst] in Hrun. subst o.
  apply bind_returns in Hb as (pixel_dataset & h1 & _ & Hb).
  apply bind_returns in Hb as (centroids & h2 & _ & Hb).
  apply lift_returns in Hb as [Hq _].
  destruct (quantize_unbound img centroids Hne) as [[H|H] _];
    rewrite H in Hq; discriminate.
Qed.

Lemma quantize_callback_never_returns_witness :
  fst (quantize_callback (fun _ _ => Return [10; 10; 10; 255]) 2 one_pixel 3 [])
    <> Return [10; 10; 10; 255].
Proof.
  apply (quantize_callback_never_returns (fun _ _ => Return [10; 10; 10; 255]) 2
           one_pixel 3 [] [10; 10; 10; 255]).
  discriminate.
Defined.
